(** * Leak detection: report generation, leak correlation and DOM helpers

    A shallow embedding of [src/analysis.ts] ([findValue], [getSummary]) and
    of [src/puppeteerUtils.ts] ([isNavigationError], [getFrameStack],
    [robustPierceQueryHandler], [unwrapHandle], [unwrapHandleEx],
    [attributePairs], [createCDPReadStream]), together with the properties the
    specification states about them and further properties of the code. *)

From Stdlib Require Import String Ascii ZArith.
From stdpp Require Import base list strings gmap pretty.

Set Warnings "-register-all".

Open Scope string_scope.
Open Scope list_scope.

(** ** Promises

    A settled promise is either fulfilled with a value or rejected with a
    reason.  Rejection reasons are JavaScript error messages. *)

Module Promise.

Definition Reason := string.

Inductive Settled (A : Type) : Type :=
| Fulfilled (value : A)
| Rejected (reason : Reason).
Arguments Fulfilled {A} value.
Arguments Rejected {A} reason.

(** [p.then(f)] with a single callback: a rejection passes through. *)
Definition then_ {A B} (p : Settled A) (f : A → B) : Settled B :=
  match p with
  | Fulfilled a => Fulfilled (f a)
  | Rejected e => Rejected e
  end.

(** [await p] inside an async function whose continuation is [k]. *)
Definition await {A B} (p : Settled A) (k : A → Settled B) : Settled B :=
  match p with
  | Fulfilled a => k a
  | Rejected e => Rejected e
  end.

(** The values of the fulfilled members, in array order. *)
Fixpoint values {A} (ps : list (Settled A)) : list A :=
  match ps with
  | [] => []
  | Fulfilled a :: ps => a :: values ps
  | Rejected _ :: ps => values ps
  end.

(** A schedule gives the instant at which the promise at each array
    position settles.  [earliest] scans the array from position [i] and
    keeps the rejection that settles first ([best] is the earliest one seen
    so far); of two rejections settling at the same instant the one at the
    lower position is kept. *)
Fixpoint earliest {A} (sched : nat → nat) (i : nat) (ps : list (Settled A))
    (best : option (nat * Reason)) : option (nat * Reason) :=
  match ps with
  | [] => best
  | Fulfilled _ :: ps => earliest sched (S i) ps best
  | Rejected e :: ps =>
      earliest sched (S i) ps
        (match best with
         | Some (t, _) => if Nat.ltb (sched i) t then Some (sched i, e) else best
         | None => Some (sched i, e)
         end)
  end.

(** [Promise.all(ps)]: rejects as soon as one member rejects, with that
    member's reason; otherwise fulfils with all values in array order. *)
Definition all {A} (sched : nat → nat) (ps : list (Settled A))
    : Settled (list A) :=
  match earliest sched 0 ps None with
  | Some (_, e) => Rejected e
  | None => Fulfilled (values ps)
  end.

Definition isRejected {A} (p : Settled A) : bool :=
  match p with Rejected _ => true | Fulfilled _ => false end.

End Promise.

Import Promise.

(** ** Data model of [analysis.ts] *)

(** [part: 'url' | 'header' | 'body'] *)
Inductive Part := part_url | part_header | part_body.

Record FindEntry := {
  requestIndex : option nat;
  visitedTargetIndex : option nat;
  part : Part;
  header : option string;
  encodings : list string;
}.

(** JavaScript numbers are only used as millisecond timestamps here; they
    are taken as integers and their formatting is left to parameters. *)
Definition number := Z.

(** [ThirdPartyInfo]: the classification carried by requests, visited
    targets and stack frames. *)
Class ThirdPartyInfo (A : Type) := {
  thirdParty : A → option bool;
  tracker : A → option bool;
}.

(** Modelled from the spec: [RequestCollector.RequestData] is declared by
    [tracker-radar-collector]; the fields are those [analysis.ts] reads.
    [requestHeaders] lists the own properties of the header object in the
    order [Object.entries] enumerates them. *)
Record RequestData := {
  url : string;
  requestHeaders : option (list (string * string));
  postData : option string;
  wallTime : option number;
  stack : option (list string);
  request_thirdParty : option bool;
  request_tracker : option bool;
}.

#[export] Instance RequestData_info : ThirdPartyInfo RequestData :=
  {| thirdParty := request_thirdParty; tracker := request_tracker |}.

Definition Buffer := list Byte.byte.

#[export] Instance byte_eq_dec : EqDecision Byte.byte := Byte.byte_eq_dec.

(** [Buffer.from(str)] *)
Definition Buffer_from (s : string) : Buffer := list_byte_of_string s.

(** ** [findValue] *)

Section FindValue.

(** The encoders of [value-searcher] and their [toString]. *)
Context {Encoder : Type} (String_ : Encoder → string).

(** [ValueSearcher.findValueIn]: the settled state of the promise it
    returns for a buffer, [null] being [None]. *)
Record ValueSearcher := {
  findValueIn : Buffer → Settled (option (list Encoder));
}.

(** [encoders && {...}]: an array, even an empty one, is truthy. *)
Definition andEntry (encoders : option (list Encoder))
    (mk : list string → FindEntry) : option FindEntry :=
  match encoders with
  | Some encoders => Some (mk (String_ <$> encoders))
  | None => None
  end.

Definition urlEntry (requestIndex : nat) (encodings : list string) :=
  {| requestIndex := Some requestIndex; visitedTargetIndex := None;
     part := part_url; header := None; encodings := encodings |}.

Definition headerEntry (requestIndex : nat) (name : string)
    (encodings : list string) :=
  {| requestIndex := Some requestIndex; visitedTargetIndex := None;
     part := part_header; header := Some name; encodings := encodings |}.

Definition bodyEntry (requestIndex : nat) (encodings : list string) :=
  {| requestIndex := Some requestIndex; visitedTargetIndex := None;
     part := part_body; header := None; encodings := encodings |}.

Definition visitedEntry (visitedTargetIndex : nat)
    (encodings : list string) :=
  {| requestIndex := None; visitedTargetIndex := Some visitedTargetIndex;
     part := part_url; header := None; encodings := encodings |}.

(** The array built by the callback of [requests.flatMap]. *)
Definition requestSearches (searcher : ValueSearcher)
    (requestIndex : nat) (request : RequestData)
    : list (Settled (option FindEntry)) :=
  [then_ (findValueIn searcher (Buffer_from (url request)))
     (λ encoders, andEntry encoders (urlEntry requestIndex))]
  ++ ((λ '(name, value),
         then_ (findValueIn searcher (Buffer_from value))
           (λ encoders, andEntry encoders (headerEntry requestIndex name)))
      <$> default [] (requestHeaders request))
  ++ [match postData request with
      | Some (String c s as data) =>
          then_ (findValueIn searcher (Buffer_from data))
            (λ encoders, andEntry encoders (bodyEntry requestIndex))
      | Some EmptyString | None => Fulfilled None
      end].

(** The second spread: visited targets whose URL is not a request URL. *)
Definition visitedSearches (searcher : ValueSearcher)
    (requestUrls : gset string) (visitedTargets : list string)
    : list (Settled (option FindEntry)) :=
  (λ '(url, visitedTargetIndex),
     then_ (findValueIn searcher (Buffer_from url))
       (λ encoders, andEntry encoders (visitedEntry visitedTargetIndex)))
  <$> filter (λ '(url, _), url ∉ requestUrls)
        (imap (λ visitedTargetIndex url, (url, visitedTargetIndex))
           visitedTargets).

(** Modelled from the spec: [notFalsy] is defined in [./utils], outside
    [analysis.ts]; [.filter(notFalsy)] keeps the findings and drops what a
    search without a finding resolves to. *)
Definition notFalsy {A} (xs : list (option A)) : list A := omap id xs.

Definition findValue (sched : nat → nat) (searcher : ValueSearcher)
    (requests : list RequestData) (visitedTargets : list string)
    : Settled (list FindEntry) :=
  let requestUrls : gset string := list_to_set (url <$> requests) in
  await
    (all sched
       (mjoin (imap (requestSearches searcher) requests)
        ++ visitedSearches searcher requestUrls visitedTargets))
    (λ results, Fulfilled (notFalsy results)).

End FindValue.

(** ** Data read by [getSummary] *)

(** Modelled from the spec: [SelectorChain] is declared in [./pageUtils],
    outside [analysis.ts]; a chain is a sequence of selectors. *)
Definition SelectorChain := list string.

(** A plain [ThirdPartyInfo] object, as attached to a stack frame. *)
Record FrameInfo := {
  frame_thirdParty : option bool;
  frame_tracker : option bool;
}.

#[export] Instance FrameInfo_info : ThirdPartyInfo FrameInfo :=
  {| thirdParty := frame_thirdParty; tracker := frame_tracker |}.

(** The object literal [{}] passed to [thirdPartyInfoStr]. *)
Definition emptyInfo : FrameInfo :=
  {| frame_thirdParty := None; frame_tracker := None |}.

Module VisitedTarget.
(** Modelled from the spec: a visited target is declared in
    [./FieldsCollector], outside [analysis.ts]; section 3 of the
    specification gives it a URL, a time and an optional classification. *)
Record t := {
  url : string;
  time : number;
  target_thirdParty : option bool;
  target_tracker : option bool;
}.
End VisitedTarget.

#[export] Instance VisitedTarget_info : ThirdPartyInfo VisitedTarget.t :=
  {| thirdParty := VisitedTarget.target_thirdParty;
     tracker := VisitedTarget.target_tracker |}.

(** [request ?? visitedTarget!] is a request or a visited target. *)
#[export] Instance sum_info `{ThirdPartyInfo A, ThirdPartyInfo B}
    : ThirdPartyInfo (A + B) :=
  {| thirdParty := λ x, match x with inl a => thirdParty a | inr b => thirdParty b end;
     tracker := λ x, match x with inl a => tracker a | inr b => tracker b end |}.

Module PasswordLeak.
(** Modelled from the spec: a password leak is declared in
    [./FieldsCollector], outside [analysis.ts]; the fields are those
    [getSummary] reads, [attrs_frameStack] being the value of
    [leak.attrs?.frameStack]. *)
Record t := {
  time : number;
  attribute : string;
  selector : SelectorChain;
  attrs_frameStack : option (list string);
  frameStack : option (list string);
}.
End PasswordLeak.

(** Modelled from the spec: the event classes are declared in
    [./FieldsCollector], outside [analysis.ts]; [getSummary] only tests which
    class an event is an instance of. *)
Inductive FieldsCollectorEvent :=
| FillEvent | SubmitEvent | ClickLinkEvent | OtherEvent.

#[export] Instance FieldsCollectorEvent_eq_dec : EqDecision FieldsCollectorEvent.
Proof. solve_decision. Defined.

Inductive ErrorLevel := level_error | level_warn.

Module ErrorInfo.
(** Modelled from the spec: an entry of the error log is
    [{level, context, error}]; [context] holds, for each element of the
    context array, its value when it is a string, and [error] is
    [String(error.error)]. *)
Record t := {
  level : ErrorLevel;
  context : list (option string);
  error : string;
}.
End ErrorInfo.

Module FieldsData.
(** Modelled from the spec: the data of the fields collector is declared in
    [./FieldsCollector], outside [analysis.ts]; the fields are those
    [getSummary] reads. *)
Record t := {
  passwordLeaks : list PasswordLeak.t;
  visitedTargets : list VisitedTarget.t;
  fields : list SelectorChain;
  events : list FieldsCollectorEvent;
  links : option (list string);
  errors : list ErrorInfo.t;
}.
End FieldsData.

Module SavedCallEx.
(** Modelled from the spec: [SavedCallEx] is declared in [./main], outside
    [analysis.ts]; section 3 of the specification gives a saved call a
    description, the custom data [{selectorChain?, type, value, time}], a
    stack and the classification of each of its frames. *)
Record Custom := {
  selectorChain : option SelectorChain;
  type : string;
  value : string;
  time : number;
}.
Record t := {
  description : string;
  custom : Custom;
  stack : list string;
  stackInfo : list (option FrameInfo);
}.
End SavedCallEx.

(** Modelled from the spec: [OutputFile] is declared in [./main], outside
    [analysis.ts]; each collector's data may be absent. *)
Record CollectorData := {
  fields : option FieldsData.t;
  requests : option (list RequestData);
  apis : option (list SavedCallEx.t);
}.

Record CrawlResult := {
  initialUrl : string;
  finalUrl : string;
  testStarted : number;
  testFinished : number;
  data : CollectorData;
}.

(** An element of [output.leakedValues]: a [FindEntry] with the kind of
    value that leaked. *)
Record LeakedValue := {
  findEntry :> FindEntry;
  type : string;
}.

Record OutputFile := {
  crawlResult : CrawlResult;
  leakedValues : option (list LeakedValue);
}.

(** [fieldsCollectorOptions.fill] *)
Record FillOptions := {
  email : string;
  password : string;
}.

(** ** Strings *)

Definition LF : string := String (ascii_of_nat 10) "".
Definition TAB : string := String (ascii_of_nat 9) "".
Definition DQ : string := String (ascii_of_nat 34) "".
Definition NUL : string := String (ascii_of_nat 0) "".

(** A template literal: the concatenation of its pieces. *)
Definition template (pieces : list string) : string := String.concat "" pieces.

(** [Part] values are the strings ['url'], ['header'] and ['body']. *)
Definition Part_str (p : Part) : string :=
  match p with
  | part_url => "url"
  | part_header => "header"
  | part_body => "body"
  end.

(** A regular expression as [String.prototype.replace] observes it: the way
    it cuts a subject into unmatched text and the successive matches. *)
Inductive Chunk := Text (s : string) | Match (s : string).
Definition RegExp := string → list Chunk.

(** [subject.replace(regex, callback)] for a callback that reads and
    updates a variable of its enclosing scope, whose value is threaded
    through the successive calls. *)
Fixpoint replaceChunks {S} (chunks : list Chunk)
    (callback : string → S → string * S) (st : S) : string * S :=
  match chunks with
  | [] => ("", st)
  | Text s :: chunks =>
      let '(rest, st) := replaceChunks chunks callback st in (s +:+ rest, st)
  | Match m :: chunks =>
      let '(ret, st) := callback m st in
      let '(rest, st) := replaceChunks chunks callback st in
      (ret +:+ rest, st)
  end.

Definition String_replace {S} (subject : string) (regex : RegExp)
    (callback : string → S → string * S) (st : S) : string * S :=
  replaceChunks (regex subject) callback st.

(** ** The report writer

    [getSummary] pushes strings onto the array [strings] and joins them at
    the end; a computation either throws or returns a value together with
    the strings it pushed. *)

Inductive Exn := TypeError.

Definition Report (A : Type) : Type := Exn + (A * list string).

#[export] Instance Report_ret : MRet Report := λ A a, inr (a, []).

Definition bind {A B} (m : Report A) (f : A → Report B) : Report B :=
  match m with
  | inl e => inl e
  | inr (a, out) =>
      match f a with
      | inl e => inl e
      | inr (b, out') => inr (b, out ++ out')
      end
  end.

#[export] Instance Report_bind : MBind Report := λ A B f m, bind m f.

Notation "'let*' x ':=' m 'in' k" := (bind m (λ x, k))
  (at level 10, x name, m at level 100, k at level 200, only parsing).

Definition pure {A} (a : A) : Report A := mret a.

Definition throw {A} (e : Exn) : Report A := inl e.

(** [strings.push(str)] *)
Definition write (str : string) : Report unit := inr ((), [str]).

(** [if (str) strings.push(str); strings.push('\n')] *)
Definition writeln (str : string) : Report unit :=
  match str with
  | "" => write LF
  | _ => write str ;; write LF
  end.

(** [for (const x of xs) body(x)] *)
Fixpoint forOf {A} (xs : list A) (body : A → Report unit) : Report unit :=
  match xs with
  | [] => pure ()
  | x :: xs => body x ;; forOf xs body
  end.

(** [xs.map(f)] for a callback that may throw. *)
Fixpoint mapR {A B} (f : A → Report B) (xs : list A) : Report (list B) :=
  match xs with
  | [] => pure []
  | x :: xs => let* y := f x in let* ys := mapR f xs in pure (y :: ys)
  end.

(** [xs.filter(f)] for a callback that may throw. *)
Fixpoint filterR {A} (f : A → Report bool) (xs : list A) : Report (list A) :=
  match xs with
  | [] => pure []
  | x :: xs =>
      let* b := f x in
      let* ys := filterR f xs in
      pure (if (b : bool) then x :: ys else ys)
  end.

(** Reading a property of [x], which throws when [x] is [undefined]. *)
Definition deref {A} (x : option A) : Report A :=
  match x with
  | Some a => pure a
  | None => throw TypeError
  end.

(** [a ?? b] *)
Definition nullish {A} (a b : option A) : option A :=
  match a with
  | Some _ => a
  | None => b
  end.
Infix "??" := nullish (at level 45, right associativity).

(** Modelled from the spec: [nonEmpty] is defined in [./utils], outside
    [analysis.ts]; the stack is printed "when present", that is when it is
    defined and has a frame. *)
Definition nonEmpty {A} (array : option (list A)) : bool :=
  match array with
  | Some (_ :: _) => true
  | _ => false
  end.

(** [rambda]'s [groupBy]: the resulting object is kept as the list of its
    properties in creation order, which is the order of [Object.entries]
    for keys that are not array indices. *)
Fixpoint groupInsert {A} (key : string) (item : A)
    (result : list (string * list A)) : list (string * list A) :=
  match result with
  | [] => [(key, [item])]
  | (k, items) :: result =>
      if decide (k = key) then (k, items ++ [item]) :: result
      else (k, items) :: groupInsert key item result
  end.

Definition groupBy {A} (groupFn : A → string) (items : list A)
    : list (string * list A) :=
  foldl (λ result item, groupInsert (groupFn item) item result) [] items.

(** ** [getSummary] *)

Section GetSummary.

(** [formatDuration] is imported from [./utils], [selectorStr] and
    [stackFrameFileRegex] from [./pageUtils]; [secondsToFixed1 x] stands for
    the floating-point expression [(x / 1e3).toFixed(1)]. *)
Context (formatDuration : number → string)
        (secondsToFixed1 : number → string)
        (selectorStr : SelectorChain → string)
        (stackFrameFileRegex : RegExp).

Context (output : OutputFile) (fieldsCollectorOptions : FillOptions).

Definition time (timestamp : number) : string :=
  template ["⌚️"; secondsToFixed1 (timestamp - testStarted (crawlResult output))%Z; "s"].

Definition thirdPartyInfoStr `{ThirdPartyInfo A} (info : A) : string :=
  template [if decide (thirdParty info = Some true) then "third party " else "";
            if decide (tracker info = Some true) then "🕵 tracker " else ""].

Definition writeHeader : Report unit :=
  let result := crawlResult output in
  writeln (template ["Crawl of "; initialUrl result]) ;;
  (if decide (finalUrl result ≠ initialUrl result)
   then writeln (template ["URL after redirects: "; finalUrl result])
   else pure ()) ;;
  writeln (template ["Took "; formatDuration (testFinished result - testStarted result)%Z]) ;;
  writeln "".

Definition writePasswordLeaks (fieldsData : option FieldsData.t) : Report unit :=
  match fieldsData with
  | Some fieldsData =>
      match FieldsData.passwordLeaks fieldsData with
      | [] => pure ()
      | passwordLeaks =>
          writeln "⚠️ 🔑 Password was written to the DOM:" ;;
          forOf passwordLeaks (λ leak,
            writeln (template [time (PasswordLeak.time leak); " to attribute "; DQ;
                               PasswordLeak.attribute leak; DQ; " on element "; DQ;
                               selectorStr (PasswordLeak.selector leak); DQ;
                               "; frame stack (bottom→top):"]) ;;
            let* frames := deref (PasswordLeak.attrs_frameStack leak ?? PasswordLeak.frameStack leak) in
            forOf frames (λ frame, writeln (template [TAB; frame]))) ;;
          writeln (template ["If a script then extracts the DOM it might leak the password"; LF])
      end
  | None => writeln (template ["❌️ No fields collector data, it probably crashed"; LF])
  end.

(** A leak with the request and the visited target its indices select. *)
Record AnnotatedLeak := {
  leak :> LeakedValue;
  request : option RequestData;
  visitedTarget : option VisitedTarget.t;
}.

Definition annotate (collectorData : CollectorData) (leak : LeakedValue)
    : Report AnnotatedLeak :=
  let* request :=
    match requestIndex leak with
    | Some requestIndex =>
        let* requests := deref (requests collectorData) in
        pure (requests !! requestIndex)
    | None => pure None
    end in
  let* visitedTarget :=
    match visitedTargetIndex leak with
    | Some visitedTargetIndex =>
        let* fields := deref (fields collectorData) in
        pure (FieldsData.visitedTargets fields !! visitedTargetIndex)
    | None => pure None
    end in
  pure {| leak := leak; request := request; visitedTarget := visitedTarget |}.

(** [request ?? visitedTarget] *)
Definition location (leak : AnnotatedLeak) : option (RequestData + VisitedTarget.t) :=
  (inl <$> request leak) ?? (inr <$> visitedTarget leak).

(** [request ?? visitedTarget!], about to be read. *)
Definition source (leak : AnnotatedLeak) : Report (RequestData + VisitedTarget.t) :=
  deref (location leak).

Definition hasDomainInfo (annotatedLeaks : list AnnotatedLeak) : Report bool :=
  match annotatedLeaks !! 0%nat with
  | None => pure false
  | Some first =>
      let* location := source first in
      pure (bool_decide (thirdParty location ≠ None))
  end.

(** [thirdParty! || tracker!], as the condition of [filter]. *)
Definition isImportant (leak : AnnotatedLeak) : Report bool :=
  let* location := source leak in
  pure (bool_decide (thirdParty location = Some true)
        || bool_decide (tracker location = Some true)).

Definition importantLeaks (hasDomainInfo : bool)
    (annotatedLeaks : list AnnotatedLeak) : Report (list AnnotatedLeak) :=
  if hasDomainInfo then filterR isImportant annotatedLeaks
  else pure annotatedLeaks.

Definition writeLeak (leak : AnnotatedLeak) : Report unit :=
  let* reqTime :=
    match visitedTarget leak with
    | Some visitedTarget => pure (Some (VisitedTarget.time visitedTarget))
    | None => let* request := deref (request leak) in pure (wallTime request)
    end in
  write (template [match reqTime with
                   | Some reqTime => template [time reqTime; " "]
                   | None => ""
                   end;
                   type leak; " sent in "; Part_str (part leak)]) ;;
  match request leak with
  | Some request =>
      write (template [" of request to "; thirdPartyInfoStr request; DQ; url request; DQ]) ;;
      (if nonEmpty (stack request)
       then writeln " by:" ;;
            forOf (default [] (stack request)) (λ frame, writeln (template [TAB; frame]))
       else pure ()) ;;
      writeln ""
  | None =>
      let* visitedTarget := deref (visitedTarget leak) in
      writeln (template [" for navigation to "; thirdPartyInfoStr visitedTarget;
                         VisitedTarget.url visitedTarget])
  end.

Definition writeLeaks (collectorData : CollectorData) : Report unit :=
  match leakedValues output with
  | Some leakedValues =>
      let* annotatedLeaks := mapR (annotate collectorData) leakedValues in
      let* hasDomainInfo := hasDomainInfo annotatedLeaks in
      let* importantLeaks := importantLeaks hasDomainInfo annotatedLeaks in
      match importantLeaks with
      | _ :: _ =>
          writeln (template ["ℹ️ 🖅 Values were sent in web requests";
                             if hasDomainInfo then " to third parties" else ""; ":"]) ;;
          forOf importantLeaks writeLeak ;;
          writeln ""
      | [] =>
          writeln (template ["✔️ No leaks ";
                             match leakedValues with _ :: _ => "to third parties " | [] => "" end;
                             "detected"; LF])
      end
  | None => writeln (template ["⚠️ No leaked value data found"; LF])
  end.

(** The summary of a group: [{selectorChain, type, value, stack,
    stackInfo}] of its first call. *)
Record FieldValueCall := {
  selectorChain : option SelectorChain;
  type_ : string;
  value : string;
  stack_ : list string;
  stackInfo : list (option FrameInfo);
}.

(** The key function given to [groupBy]. *)
Definition groupKey (call : SavedCallEx.t) : string :=
  let custom := SavedCallEx.custom call in
  template [match SavedCallEx.selectorChain custom with
            | Some selectorChain => selectorStr selectorChain
            | None => ""
            end; NUL;
            SavedCallEx.type custom; NUL;
            SavedCallEx.value custom; NUL;
            String.concat LF (SavedCallEx.stack call)].

(** The two [filter] stages of the pipe. *)
Definition fieldValueReads (savedCalls : list SavedCallEx.t) : list SavedCallEx.t :=
  let searchValues := [email fieldsCollectorOptions; password fieldsCollectorOptions] in
  filter (λ call, SavedCallEx.value (SavedCallEx.custom call) ∈ searchValues)
    (filter (λ call, SavedCallEx.description call = "HTMLInputElement.prototype.value")
       savedCalls).

(** The [groupBy] stage followed by [Object.entries]. *)
Definition fieldValueGroups (savedCalls : list SavedCallEx.t)
    : list (string * list SavedCallEx.t) :=
  groupBy groupKey (fieldValueReads savedCalls).

Definition fieldValueCalls (savedCalls : list SavedCallEx.t)
    : Report (list (FieldValueCall * list number)) :=
  mapR (λ '(_, calls),
          let* first := deref (calls !! 0%nat) in
          let custom := SavedCallEx.custom first in
          pure ({| selectorChain := SavedCallEx.selectorChain custom;
                   type_ := SavedCallEx.type custom;
                   value := SavedCallEx.value custom;
                   stack_ := SavedCallEx.stack first;
                   stackInfo := SavedCallEx.stackInfo first |},
                (λ call, SavedCallEx.time (SavedCallEx.custom call)) <$> calls))
    (fieldValueGroups savedCalls).

(** The body of the loop that fills [displayFrames]: its state is the
    array [displayFrames] and the variable [prevFile], which the replacement
    callback reads and assigns. *)
Definition displayStep (state : list string * option string)
    (entry : string * option FrameInfo) : list string * option string :=
  let '(displayFrames, prevFile) := state in
  let '(frame, frameInfo) := entry in
  let '(displayFrame, prevFile) :=
    String_replace frame stackFrameFileRegex
      (λ file prevFile,
         (if decide (prevFile = Some file) then "↓"
          else template [thirdPartyInfoStr (default emptyInfo frameInfo); file],
          Some file))
      prevFile in
  (displayFrames ++ [displayFrame], prevFile).

(** [for (const [frame, frameInfo] of reverse(entries)) ...] *)
Definition displayLoop (entries : list (string * option FrameInfo))
    : list string * option string :=
  foldl displayStep ([], None) (reverse entries).

(** The loop over [zip(call.stack, call.stackInfo)], followed by
    [displayFrames.reverse()]. *)
Definition displayFrames (call : FieldValueCall) : list string :=
  reverse (displayLoop (zip (stack_ call) (stackInfo call))).1.

Definition writeFieldValueCall (entry : FieldValueCall * list number) : Report unit :=
  let '(call, times) := entry in
  write (template [String.concat " " (time <$> times); " access to ";
                   if decide (value call = password fieldsCollectorOptions)
                   then "🔑 " else "📧 ";
                   "value of "; type_ call; " field"]) ;;
  match selectorChain call with
  | Some selectorChain => write (template [" "; DQ; selectorStr selectorChain; DQ])
  | None => pure ()
  end ;;
  writeln " by:" ;;
  forOf (displayFrames call) (λ frame, writeln (template [TAB; frame])) ;;
  writeln "".

Definition writeFieldValueCalls (collectorData : CollectorData) : Report unit :=
  match apis collectorData with
  | Some savedCalls =>
      let* fieldValueCalls := fieldValueCalls savedCalls in
      match fieldValueCalls with
      | _ :: _ =>
          writeln "ℹ️ 🔍 Field value reads:" ;;
          forOf fieldValueCalls writeFieldValueCall ;;
          writeln ""
      | [] => pure ()
      end
  | None => writeln (template ["⚠️ No API call data found"; LF])
  end.

Definition countEvents (kind : FieldsCollectorEvent)
    (events : list FieldsCollectorEvent) : string :=
  pretty (length (filter (λ ev, ev = kind) events)).

Definition writeStatistics (fieldsData : option FieldsData.t) : Report unit :=
  match fieldsData with
  | Some fieldsData =>
      writeln (template ["📊 Automated crawl statistics:"; LF]) ;;
      writeln (template ["📑 "; pretty (length (FieldsData.fields fieldsData)); " fields found"]) ;;
      writeln (template ["✒️ "; countEvents FillEvent (FieldsData.events fieldsData); " fields filled"]) ;;
      writeln (template ["⏎ "; countEvents SubmitEvent (FieldsData.events fieldsData); " fields submitted"]) ;;
      writeln (template ["🔗 "; pretty (default 0%nat (length <$> FieldsData.links fieldsData)); " links found"]) ;;
      writeln (template ["🖱 "; countEvents ClickLinkEvent (FieldsData.events fieldsData); " links clicked"]) ;;
      match FieldsData.errors fieldsData with
      | _ :: _ =>
          writeln (template [LF; "Fields collector errors:"]) ;;
          forOf (FieldsData.errors fieldsData) (λ error,
            writeln (template [TAB;
                               match ErrorInfo.level error with
                               | level_error => "❌️"
                               | level_warn => "⚠️"
                               end; " ";
                               match ErrorInfo.context error !! 0%nat with
                               | Some (Some context0) => template [context0; " "]
                               | _ => ""
                               end;
                               ErrorInfo.error error])) ;;
          writeln ""
      | [] => pure ()
      end
  | None => pure ()
  end.

(** The statements of [getSummary] in order; [strings] is the list of the
    strings they push. *)
Definition summarize : Report unit :=
  let collectorData := data (crawlResult output) in
  let fieldsData := fields collectorData in
  writeHeader ;;
  writePasswordLeaks fieldsData ;;
  match requests collectorData with
  | None => writeln "⚠️ No request collector data found"
  | Some _ => pure ()
  end ;;
  writeLeaks collectorData ;;
  writeFieldValueCalls collectorData ;;
  writeStatistics fieldsData.

(** [return strings.join('')], or the exception thrown. *)
Definition getSummary : Exn + string :=
  match summarize with
  | inl e => inl e
  | inr (_, strings) => inr (String.concat "" strings)
  end.

End GetSummary.

(** ** The DOM seen by [robustPierceQueryHandler]

    An element has an identity, its open shadow root if it has one (what the
    original [shadowRoot] getter returns) and its child elements.  Nodes
    that are not elements are invisible to a tree walker that shows
    elements only, so a shadow root, a fragment or a document is given by
    its child elements. *)

Inductive Element :=
  mkElement (uid : nat) (shadowRoot : option (list Element)) (children : list Element).

Definition uid (e : Element) : nat :=
  match e with mkElement uid _ _ => uid end.
Definition shadowRoot (e : Element) : option (list Element) :=
  match e with mkElement _ shadowRoot _ => shadowRoot end.
Definition children (e : Element) : list Element :=
  match e with mkElement _ _ children => children end.

Inductive Node :=
| ElementNode (e : Element)
| FragmentNode (children : list Element).

Definition childElements (node : Node) : list Element :=
  match node with
  | ElementNode e => children e
  | FragmentNode children => children
  end.

(** An element followed by its light-tree descendants, in document order. *)
Fixpoint inclusiveDescendants (e : Element) : list Element :=
  match e with
  | mkElement _ _ children => e :: flat_map inclusiveDescendants children
  end.

(** The nodes [iter.nextNode()] visits for
    [document.createTreeWalker(node, NodeFilter.SHOW_ELEMENT)]: the element
    descendants of [node] in document order, [node] itself excluded. *)
Definition createTreeWalker (node : Node) : list Element :=
  flat_map inclusiveDescendants (childElements node).

Section PierceQuery.

(** The original [Element.prototype.matches]. *)
Context (matches : Element → string → bool).

(** The elements [examineChildren(node)] yields, in order.  The generator
    calls itself on the shadow roots it meets; [fuel] bounds the nesting of
    these calls and [None] means that it was too small. *)
Fixpoint examineChildren (fuel : nat) (selector : string) (node : Node)
    : option (list Element) :=
  match fuel with
  | 0 => None
  | S fuel =>
      let examineShadow (e : Element) : option (list Element) :=
        match shadowRoot e with
        | Some nodeShadow => examineChildren fuel selector (FragmentNode nodeShadow)
        | None => Some []
        end in
      match node with
      | ElementNode e => examineShadow e
      | FragmentNode _ => Some []
      end ≫= λ fromShadow,
      mapM (λ child,
              examineShadow child ≫= λ fromChildShadow,
              Some ((if matches child selector then [child] else [])
                    ++ fromChildShadow))
        (createTreeWalker node) ≫= λ fromWalk,
      Some (fromShadow ++ mjoin fromWalk)
  end.

(** The same generator run until its first [yield]: [Some None] when it
    finishes without yielding. *)
Fixpoint examineChildrenFirst (fuel : nat) (selector : string) (node : Node)
    : option (option Element) :=
  match fuel with
  | 0 => None
  | S fuel =>
      let examineShadow (e : Element) : option (option Element) :=
        match shadowRoot e with
        | Some nodeShadow => examineChildrenFirst fuel selector (FragmentNode nodeShadow)
        | None => Some None
        end in
      let fix walk (iter : list Element) : option (option Element) :=
        match iter with
        | [] => Some None
        | child :: iter =>
            if matches child selector then Some (Some child)
            else match examineShadow child with
                 | Some None => walk iter
                 | found => found
                 end
        end in
      match match node with
            | ElementNode e => examineShadow e
            | FragmentNode _ => Some None
            end with
      | Some None => walk (createTreeWalker node)
      | found => found
      end
  end.

(** The nesting depth of shadow roots below an element. *)
Fixpoint shadowDepth (e : Element) : nat :=
  match e with
  | mkElement _ shadowRoot children =>
      max (match shadowRoot with
           | Some nodeShadow => S (foldr (λ c d, max (shadowDepth c) d) 0 nodeShadow)
           | None => 0
           end)
          (foldr (λ c d, max (shadowDepth c) d) 0 children)
  end.

Definition shadowDepthOf (node : Node) : nat :=
  match node with
  | ElementNode e => shadowDepth e
  | FragmentNode children => foldr (λ c d, max (shadowDepth c) d) 0 children
  end.

(** [return [...examineChildren(node)]] *)
Definition queryAll (node : Node) (selector : string) : list Element :=
  default [] (examineChildren (S (shadowDepthOf node)) selector node).

(** [const [first] = examineChildren(node); return first ?? null] *)
Definition queryOne (node : Node) (selector : string) : option Element :=
  default None (examineChildrenFirst (S (shadowDepthOf node)) selector node).

(** The order stated by the specification, by recursion on the tree: an
    element is tested, then its shadow tree is searched, then its light
    children. *)
Fixpoint pierce (selector : string) (e : Element) : list Element :=
  match e with
  | mkElement _ shadowRoot children =>
      (if matches e selector then [e] else [])
      ++ match shadowRoot with
         | Some nodeShadow => flat_map (pierce selector) nodeShadow
         | None => []
         end
      ++ flat_map (pierce selector) children
  end.

Definition pierceShadow (selector : string) (e : Element) : list Element :=
  match shadowRoot e with
  | Some nodeShadow => flat_map (pierce selector) nodeShadow
  | None => []
  end.

Definition pierceAll (selector : string) (node : Node) : list Element :=
  match node with
  | ElementNode e => pierceShadow selector e
  | FragmentNode _ => []
  end ++ flat_map (pierce selector) (childElements node).

End PierceQuery.

(** Ownership: [e] is reachable from an element through light children and
    open shadow roots. *)
Inductive reaches : Element → Element → Prop :=
| reaches_child p e : e ∈ children p → reaches p e
| reaches_shadow p nodeShadow e :
    shadowRoot p = Some nodeShadow → e ∈ nodeShadow → reaches p e
| reaches_trans p m e : reaches p m → reaches m e → reaches p e.

Definition reachesFrom (node : Node) (e : Element) : Prop :=
  match node with
  | ElementNode p => reaches p e
  | FragmentNode children =>
      e ∈ children ∨ ∃ c, c ∈ children ∧ reaches c e
  end.

(** ** Remote objects and [unwrapHandle] *)

(** The fields of [Protocol.Runtime.RemoteObject] that are read.  The
    protocol gives a class name to every value of type [object]. *)
Record RemoteObject := {
  remoteType : string;
  subtype : option string;
  className : string;
}.

(** What [handle.jsonValue()] gives for a value that is neither an object,
    a function nor a symbol. *)
Inductive Primitive :=
| prim_undefined
| prim_string (s : string)
| prim_number (n : Z)
| prim_boolean (b : bool)
| prim_bigint (n : Z).

(** A handle with the outcome of its protocol calls: [getProperties()]
    gives the entries of a [Map] in insertion order. *)
Inductive JSHandle :=
  mkHandle (remoteObject : RemoteObject)
           (getProperties : Settled (list (string * JSHandle)))
           (jsonValue : Settled Primitive).

Definition remoteObject (handle : JSHandle) : RemoteObject :=
  match handle with mkHandle remoteObject _ _ => remoteObject end.
Definition getProperties (handle : JSHandle) : Settled (list (string * JSHandle)) :=
  match handle with mkHandle _ getProperties _ => getProperties end.
Definition jsonValue (handle : JSHandle) : Settled Primitive :=
  match handle with mkHandle _ _ jsonValue => jsonValue end.

(** The values [unwrapHandleEx] produces. *)
Inductive Unwrapped :=
| unwrapped_handle (handle : JSHandle)
| unwrapped_null
| unwrapped_primitive (value : Primitive)
| unwrapped_object (properties : list (string * Unwrapped))
| unwrapped_array (items : list Unwrapped).

(** [obj[key] = value] on an object kept as the list of its properties. *)
Fixpoint setProperty {A} (key : string) (value : A) (obj : list (string * A))
    : list (string * A) :=
  match obj with
  | [] => [(key, value)]
  | (k, v) :: obj =>
      if decide (k = key) then (k, value) :: obj
      else (k, v) :: setProperty key value obj
  end.

(** [Object.fromEntries(entries)] *)
Definition Object_fromEntries {A} (entries : list (string * A)) : list (string * A) :=
  foldl (λ obj '(k, v), setProperty k v obj) [] entries.

Section Unwrap.

(** The instants at which the members of an array given to [Promise.all]
    settle. *)
Context (sched : nat → nat).

(** The default value of the parameter [shouldUnwrap]. *)
Definition shouldUnwrap_default (className : string) : bool :=
  bool_decide (className ∈ ["Object"; "Proxy"]).

(** [shouldUnwrap] is [None] when the argument is left out. *)
Fixpoint unwrapHandleEx (handle : JSHandle)
    (shouldUnwrap : option (string → bool)) {struct handle} : Settled Unwrapped :=
  let shouldUnwrap := default shouldUnwrap_default shouldUnwrap in
  match handle with
  | mkHandle remoteObject getProperties jsonValue =>
      if bool_decide (remoteType remoteObject ∈ ["function"; "symbol"])
      then Fulfilled (unwrapped_handle handle)
      else if decide (remoteType remoteObject = "object") then
        if bool_decide (subtype remoteObject ∈ [None; Some "proxy"]) then
          if shouldUnwrap (className remoteObject) then
            await getProperties (λ properties,
              await
                (all sched
                   ((λ '(k, v),
                       await (unwrapHandleEx v (Some shouldUnwrap))
                         (λ unwrapped, Fulfilled (k, unwrapped)))
                    <$> properties))
                (λ entries, Fulfilled (unwrapped_object (Object_fromEntries entries))))
          else Fulfilled (unwrapped_handle handle)
        else if decide (subtype remoteObject = Some "null") then
          Fulfilled unwrapped_null
        else if decide (subtype remoteObject = Some "array") then
          await getProperties (λ properties,
            await
              (all sched
                 ((λ '(_, v), unwrapHandleEx v (Some shouldUnwrap)) <$> properties))
              (λ items, Fulfilled (unwrapped_array items)))
        else Fulfilled (unwrapped_handle handle)
      else await jsonValue (λ value, Fulfilled (unwrapped_primitive value))
  end.

Definition unwrapHandle (handle : JSHandle) : Settled Unwrapped :=
  unwrapHandleEx handle (Some (λ _, true)).

End Unwrap.

(** ** [isNavigationError] *)

(** A JavaScript string is a sequence of UTF-16 code units. *)
Definition CodeUnit := N.

(** The code units of a string of ASCII characters. *)
Definition codeUnits (s : string) : list CodeUnit :=
  N_of_ascii <$> list_ascii_of_string s.

(** The regular expressions of the ignore-case, non-Unicode kind, as far
    as the pattern of [isNavigationError] goes. *)
Inductive Pattern :=
| pat_empty
| pat_char (c : CodeUnit)
| pat_dot
| pat_start
| pat_boundary
| pat_seq (p q : Pattern)
| pat_alt (p q : Pattern)
| pat_star (p : Pattern).

(** A sequence of pattern characters. *)
Definition literal (s : string) : Pattern :=
  foldr (λ c p, pat_seq (pat_char c) p) pat_empty (codeUnits s).

(** [Canonicalize] under the flag [i]: a code unit is compared by its
    upper case, unless that would turn a code unit outside ASCII into an
    ASCII one; so against the ASCII characters of a pattern, the letters
    [a] to [z] stand for [A] to [Z] and every other code unit for itself. *)
Definition canonicalize (c : CodeUnit) : CodeUnit :=
  if (97 <=? c)%N && (c <=? 122)%N then (c - 32)%N else c.

(** [IsWordChar]: the letters, the digits and the underscore. *)
Definition isWordChar (c : CodeUnit) : bool :=
  ((97 <=? c)%N && (c <=? 122)%N) || ((65 <=? c)%N && (c <=? 90)%N)
  || ((48 <=? c)%N && (c <=? 57)%N) || (c =? 95)%N.

(** The line terminators, which [.] does not match. *)
Definition isLineTerminator (c : CodeUnit) : bool :=
  (c =? 10)%N || (c =? 13)%N || (c =? 8232)%N || (c =? 8233)%N.

(** Whether the code unit next to a position, if any, is a word character. *)
Definition wordAt (next : list CodeUnit) : bool :=
  match next with
  | c :: _ => isWordChar c
  | [] => false
  end.

(** The backtracking matcher: [before] holds the code units before the
    current position, the nearest first, and [after] those from the position
    on; the continuation [k] matches the rest of the pattern.  An iteration of
    a starred pattern must consume input. *)
Fixpoint matchPattern (p : Pattern) (before after : list CodeUnit)
    (k : list CodeUnit → list CodeUnit → bool) : bool :=
  match p with
  | pat_empty => k before after
  | pat_char c =>
      match after with
      | a :: after => (canonicalize a =? canonicalize c)%N && k (a :: before) after
      | [] => false
      end
  | pat_dot =>
      match after with
      | a :: after => negb (isLineTerminator a) && k (a :: before) after
      | [] => false
      end
  | pat_start =>
      match before with
      | [] => k before after
      | _ :: _ => false
      end
  | pat_boundary => xorb (wordAt before) (wordAt after) && k before after
  | pat_seq p q => matchPattern p before after (λ before after, matchPattern q before after k)
  | pat_alt p q => matchPattern p before after k || matchPattern q before after k
  | pat_star p =>
      (fix star (fuel : nat) (before after : list CodeUnit) : bool :=
         match fuel with
         | 0 => k before after
         | S fuel =>
             matchPattern p before after
               (λ before' after',
                  Nat.ltb (length after') (length after) && star fuel before' after')
             || k before after
         end) (length after) before after
  end.

(** [regex.test(str)] for a pattern without the flags [g] and [y]: a match
    is tried at each position from the start. *)
Fixpoint testFrom (p : Pattern) (before after : list CodeUnit) : bool :=
  matchPattern p before after (λ _ _, true)
  || match after with
     | a :: after => testFrom p (a :: before) after
     | [] => false
     end.

Definition RegExp_test (p : Pattern) (str : list CodeUnit) : bool :=
  testFrom p [] str.

(** [/^Protocol error\b.*\b(?:Session closed|Target closed)|^Execution
    context was destroyed\b|^Execution context is not available in detached
    frame\b/i] *)
Definition navigationErrorPattern : Pattern :=
  pat_alt
    (pat_seq pat_start
       (pat_seq (literal "Protocol error")
          (pat_seq pat_boundary
             (pat_seq (pat_star pat_dot)
                (pat_seq pat_boundary
                   (pat_alt (literal "Session closed") (literal "Target closed")))))))
    (pat_alt
       (pat_seq pat_start
          (pat_seq (literal "Execution context was destroyed") pat_boundary))
       (pat_seq pat_start
          (pat_seq (literal "Execution context is not available in detached frame")
             pat_boundary))).

(** A thrown value: an instance of [Error] with its message, or any other
    value. *)
Inductive Thrown :=
| thrown_Error (message : list CodeUnit)
| thrown_other.

(** [err instanceof Error && regex.test(err.message)] *)
Definition isNavigationError (err : Thrown) : bool :=
  match err with
  | thrown_Error message => RegExp_test navigationErrorPattern message
  | thrown_other => false
  end.

(** ** [getFrameStack] *)

(** A frame with what [parentFrame()] returns: the parent frame, or [null]
    for a frame without a parent. *)
Inductive Frame := mkFrame (frameId : nat) (parentFrame : option Frame).

Definition frameId (frame : Frame) : nat :=
  match frame with mkFrame frameId _ => frameId end.
Definition parentFrame (frame : Frame) : option Frame :=
  match frame with mkFrame _ parentFrame => parentFrame end.

(** [while ((curFrame = curFrame.parentFrame())) frames.push(curFrame)] *)
Fixpoint pushParents (curFrame : Frame) (frames : list Frame) : list Frame :=
  match curFrame with
  | mkFrame _ (Some parent) => pushParents parent (frames ++ [parent])
  | mkFrame _ None => frames
  end.

Definition getFrameStack (frame : Frame) : list Frame :=
  pushParents frame [frame].

(** ** [attributePairs] *)

(** [Protocol.DOM.GetAttributesResponse]: the interleaved names and values
    of the attributes. *)
Record GetAttributesResponse := {
  attributes : list string;
}.

Module AttributePair.
(** [{name, value}]; reading an array past its end gives [undefined]. *)
Record t := {
  name : option string;
  value : option string;
}.
End AttributePair.

Inductive ArrayExn := RangeError.

(** [Array(n)] throws a [RangeError] unless [n] is an integer, and half of
    an odd length is not one. *)
Definition attributePairs (attributesResponse : GetAttributesResponse)
    : ArrayExn + list AttributePair.t :=
  let attributes := attributes attributesResponse in
  if Nat.even (length attributes)
  then inr ((λ i, {| AttributePair.name := attributes !! (i * 2)%nat;
                     AttributePair.value := attributes !! (i * 2 + 1)%nat |})
            <$> seq 0 (length attributes / 2))
  else inl RangeError.

(** ** [createCDPReadStream] *)

Module IO.
(** The commands [readStream] sends to the session. *)
Inductive Command := read | close.

(** [Protocol.IO.ReadResponse] *)
Record ReadResponse := {
  base64Encoded : option bool;
  data : string;
  eof : bool;
}.
End IO.

(** What [readStream] yields. *)
Record StreamChunk := {
  chunk : string;
  encoding : option string;
}.

Definition chunkOf (response : IO.ReadResponse) : StreamChunk :=
  {| chunk := IO.data response;
     encoding := if decide (IO.base64Encoded response = Some true)
                 then Some "base64" else None |}.

(** How a run of the generator ends: it returns, its consumer calls
    [return()] while it is suspended, it throws, or it waits for an answer
    of the session that never comes. *)
Inductive StreamEnd :=
| stream_done
| stream_returned
| stream_threw (reason : Reason)
| stream_pending.

(** A run of the generator: the commands sent, the chunks yielded and the
    way it ends. *)
Record StreamRun := {
  sent : list IO.Command;
  yielded : list StreamChunk;
  ending : StreamEnd;
}.

(** The [finally] block: [await cdp.send('IO.close', {handle})], then the
    completion of the [try] block unless the command is rejected. *)
Definition closing (closed : Settled ()) (completion : StreamEnd) : StreamRun :=
  {| sent := [IO.close]; yielded := [];
     ending := match closed with
               | Fulfilled _ => completion
               | Rejected reason => stream_threw reason
               end |}.

Definition sending (command : IO.Command) (chunks : list StreamChunk)
    (run : StreamRun) : StreamRun :=
  {| sent := command :: sent run; yielded := chunks ++ yielded run;
     ending := ending run |}.

(** The [do ... while (!eof)] loop inside [try], entered with a call of
    [next()] to answer.  [reads] are the answers of the session to the
    successive [IO.read] commands and [closed] its answer to [IO.close].
    [pulls] is the number of further calls of [next()] the consumer makes
    before it calls [return()], [None] when it never calls [return()]. *)
Fixpoint readLoop (reads : list (Settled IO.ReadResponse)) (closed : Settled ())
    (pulls : option nat) : StreamRun :=
  match reads with
  | [] => {| sent := [IO.read]; yielded := []; ending := stream_pending |}
  | Rejected reason :: _ =>
      sending IO.read [] (closing closed (stream_threw reason))
  | Fulfilled response :: reads =>
      sending IO.read [chunkOf response]
        match pulls with
        | Some 0 => closing closed stream_returned
        | _ =>
            if IO.eof response then closing closed stream_done
            else readLoop reads closed (pred <$> pulls)
        end
  end.

(** Modelled from the spec: the consumer of the generator,
    [createProducerStream], is defined in [./utils], outside
    [puppeteerUtils.ts]; a consumer that abandons the stream early releases
    it, that is, it calls [return()] on the generator.  This is the generator
    [readStream()] driven by a consumer that calls [next()] [pulls] times and
    then [return()]; a generator that was never resumed runs no code when
    [return()] is called. *)
Definition readStream (reads : list (Settled IO.ReadResponse)) (closed : Settled ())
    (pulls : option nat) : StreamRun :=
  match pulls with
  | Some 0 => {| sent := []; yielded := []; ending := stream_returned |}
  | Some (S pulls) => readLoop reads closed (Some pulls)
  | None => readLoop reads closed None
  end.

(** ** What [findValue] searches, and the findings in structural order *)

Section FindValueSpec.

Context {Encoder : Type} (String_ : Encoder → string).

(** The buffers handed to [findValueIn], one per location. *)
Definition requestBuffers (request : RequestData) : list Buffer :=
  [Buffer_from (url request)]
  ++ ((λ '(_, value), Buffer_from value) <$> default [] (requestHeaders request))
  ++ match postData request with
     | Some (String _ _ as data) => [Buffer_from data]
     | _ => []
     end.

Definition searchedBuffers (requests : list RequestData)
    (visitedTargets : list string) : list Buffer :=
  flat_map requestBuffers requests
  ++ (Buffer_from <$> filter (λ target, target ∉ url <$> requests) visitedTargets).

(** The finding of one location, if the search has one. *)
Definition finding (searcher : ValueSearcher (Encoder := Encoder))
    (text : string) (mk : list string → FindEntry) : list FindEntry :=
  match findValueIn searcher (Buffer_from text) with
  | Fulfilled (Some encoders) => [mk (String_ <$> encoders)]
  | _ => []
  end.

(** URL, then each header in enumeration order, then the body if
    present. *)
Definition requestFindings (searcher : ValueSearcher (Encoder := Encoder))
    (requestIndex : nat) (request : RequestData) : list FindEntry :=
  finding searcher (url request) (urlEntry requestIndex)
  ++ flat_map (λ '(name, value), finding searcher value (headerEntry requestIndex name))
       (default [] (requestHeaders request))
  ++ match postData request with
     | Some (String _ _ as data) => finding searcher data (bodyEntry requestIndex)
     | _ => []
     end.

(** Request by request, starting at index [requestIndex]. *)
Fixpoint allRequestFindings (searcher : ValueSearcher (Encoder := Encoder))
    (requestIndex : nat) (requests : list RequestData) : list FindEntry :=
  match requests with
  | [] => []
  | request :: requests =>
      requestFindings searcher requestIndex request
      ++ allRequestFindings searcher (S requestIndex) requests
  end.

(** Visited targets in index order, those whose URL is a request URL
    left out. *)
Fixpoint visitedFindings (searcher : ValueSearcher (Encoder := Encoder))
    (requestUrls : list string) (visitedTargetIndex : nat)
    (visitedTargets : list string) : list FindEntry :=
  match visitedTargets with
  | [] => []
  | target :: visitedTargets =>
      (if decide (target ∈ requestUrls) then []
       else finding searcher target (visitedEntry visitedTargetIndex))
      ++ visitedFindings searcher requestUrls (S visitedTargetIndex) visitedTargets
  end.

Definition orderedFindings (searcher : ValueSearcher (Encoder := Encoder))
    (requests : list RequestData) (visitedTargets : list string) : list FindEntry :=
  allRequestFindings searcher 0 requests
  ++ visitedFindings searcher (url <$> requests) 0 visitedTargets.

End FindValueSpec.

(** ** Vocabulary for the properties of [getSummary] *)

(** The resolved location of a leak carries a defined [thirdParty]. *)
Definition classified (leak : AnnotatedLeak) : bool :=
  match location leak with
  | Some location => bool_decide (thirdParty location ≠ None)
  | None => false
  end.

(** The resolved location of a leak has [thirdParty === true] or
    [tracker === true]. *)
Definition important (leak : AnnotatedLeak) : bool :=
  match location leak with
  | Some location =>
      bool_decide (thirdParty location = Some true)
      || bool_decide (tracker location = Some true)
  | None => false
  end.

Definition firstClassified (annotatedLeaks : list AnnotatedLeak) : bool :=
  match annotatedLeaks with
  | first :: _ => classified first
  | [] => false
  end.

(** The indices of a leak select an element of a collection that is there:
    no index points into an absent collection, and one of them selects an
    element. *)
Definition resolves (collectorData : CollectorData) (leak : LeakedValue) : bool :=
  let request :=
    index ← requestIndex leak; requests ← requests collectorData; requests !! index in
  let visitedTarget :=
    index ← visitedTargetIndex leak; fields ← fields collectorData;
    FieldsData.visitedTargets fields !! index in
  bool_decide (is_Some (requestIndex leak) → is_Some (requests collectorData))
  && bool_decide (is_Some (visitedTargetIndex leak) → is_Some (fields collectorData))
  && bool_decide (is_Some request ∨ is_Some visitedTarget).

Definition hasFrameStack (leak : PasswordLeak.t) : bool :=
  bool_decide (is_Some (PasswordLeak.attrs_frameStack leak ?? PasswordLeak.frameStack leak)).

(** The contract of [getSummary] on the data it is given, which its
    non-null assertions take for granted. *)
Definition wellFormed (output : OutputFile) : bool :=
  let collectorData := data (crawlResult output) in
  match fields collectorData with
  | Some fieldsData => forallb hasFrameStack (FieldsData.passwordLeaks fieldsData)
  | None => true
  end
  && match leakedValues output with
     | Some leakedValues => forallb (resolves collectorData) leakedValues
     | None => true
     end.

(** [line] occurs in [report]. *)
Definition contains (report line : string) : Prop :=
  ∃ before after, report = before +:+ line +:+ after.

(** ** Vocabulary for the properties of the query handler *)

(** Every element below a node, through light children and open shadow
    roots. *)
Definition everyElement (node : Node) : list Element :=
  pierceAll (λ _ _, true) "" node.

(** Distinct elements have distinct identities. *)
Definition uniqueIds (node : Node) : Prop :=
  NoDup (uid <$> everyElement node).

(** ** Vocabulary for the properties of [unwrapHandle] *)

(** A policy that is true on exactly two class names. *)
Definition exactlyTwo (shouldUnwrap : string → bool) : Prop :=
  ∃ a b, a ≠ b ∧ ∀ className, shouldUnwrap className = true ↔ className = a ∨ className = b.

(** ** Vocabulary for the entries of [findValue] *)

Section FindValueLocationsSpec.

Context {Encoder : Type} (String_ : Encoder → string).
Context (searcher : ValueSearcher (Encoder := Encoder)).

(** What a request contributes: a finding in its URL, in the value of one
    of its headers, or in its body when it has a non-empty one. *)
Definition foundInRequest (index : nat) (request : RequestData) (entry : FindEntry) : Prop :=
  ∃ encoders,
    (findValueIn searcher (Buffer_from (url request)) = Fulfilled (Some encoders)
     ∧ entry = urlEntry index (String_ <$> encoders))
    ∨ (∃ name value,
         (name, value) ∈ default [] (requestHeaders request)
         ∧ findValueIn searcher (Buffer_from value) = Fulfilled (Some encoders)
         ∧ entry = headerEntry index name (String_ <$> encoders))
    ∨ (∃ body,
         postData request = Some body ∧ body ≠ ""
         ∧ findValueIn searcher (Buffer_from body) = Fulfilled (Some encoders)
         ∧ entry = bodyEntry index (String_ <$> encoders)).

(** What a visited target contributes: a finding in its URL, unless a
    request has the same URL. *)
Definition foundInTarget (requests : list RequestData) (index : nat) (target : string)
    (entry : FindEntry) : Prop :=
  ∃ encoders,
    (target ∉ (url <$> requests))
    ∧ findValueIn searcher (Buffer_from target) = Fulfilled (Some encoders)
    ∧ entry = visitedEntry index (String_ <$> encoders).

End FindValueLocationsSpec.

(** ** Vocabulary for the rendering of the leaks *)

(** What [getSummary] writes about where a leak was sent: the request, or
    the visited target when the leak has no request. *)
Definition leakPhrase (leak : AnnotatedLeak) : option string :=
  match request leak, visitedTarget leak with
  | Some request, _ =>
      Some (template [" of request to "; thirdPartyInfoStr request; DQ; url request; DQ])
  | None, Some visitedTarget =>
      Some (template [" for navigation to "; thirdPartyInfoStr visitedTarget;
                      VisitedTarget.url visitedTarget])
  | None, None => None
  end.

Section LeaksSection.

Context (secondsToFixed1 : number → string) (output : OutputFile).

(** The strings [getSummary] pushes for one leak. *)
Definition leakLines (leak : AnnotatedLeak) : list string :=
  match writeLeak secondsToFixed1 output leak with
  | inr (_, strings) => strings
  | inl _ => []
  end.

(** The strings [getSummary] pushes for the leaks when [rendered] are the
    leaks it renders: the heading, the lines of each rendered leak in turn
    and an empty line; or, when it renders none, the line that says so. *)
Definition leaksSection (domainInfo : bool) (leaks : list LeakedValue)
    (rendered : list AnnotatedLeak) : list string :=
  match rendered with
  | [] =>
      [template ["✔️ No leaks ";
                 match leaks with _ :: _ => "to third parties " | [] => "" end;
                 "detected"; LF];
       LF]
  | _ :: _ =>
      [template ["ℹ️ 🖅 Values were sent in web requests";
                 if domainInfo then " to third parties" else ""; ":"];
       LF]
      ++ flat_map leakLines rendered
      ++ [LF]
  end.

End LeaksSection.

(** ** Vocabulary for the properties of the grouping and of the frame stack *)

(** The distinct keys of a list, each at its first occurrence. *)
Fixpoint firstOccurrences (keys : list string) : list string :=
  match keys with
  | [] => []
  | key :: keys => key :: filter (λ k, k ≠ key) (firstOccurrences keys)
  end.

(** A stack frame as the file pattern cuts it: the text before the file,
    the file and the text after it when the pattern matches once, nothing
    when it does not match. *)
Record ParsedFrame := {
  frameText : string;
  frameInfo : option FrameInfo;
  fileMatch : option (string * string * string);
}.

Definition parsedBy (regex : RegExp) (frame : ParsedFrame) : Prop :=
  regex (frameText frame)
  = match fileMatch frame with
    | Some (before, file, after) => [Text before; Match file; Text after]
    | None => [Text (frameText frame)]
    end.

(** The file of the nearest frame, going down the array, that has one. *)
Fixpoint fileBelow (below : list ParsedFrame) : option string :=
  match below with
  | [] => None
  | frame :: below =>
      match fileMatch frame with
      | Some (_, file, _) => Some file
      | None => fileBelow below
      end
  end.

(** A frame without a file is displayed as it is; a frame with a file is
    displayed with the marker when the nearest frame with a file further
    down the array has the same file, and with its own file otherwise. *)
Fixpoint compressed (frames : list ParsedFrame) : list string :=
  match frames with
  | [] => []
  | frame :: below =>
      match fileMatch frame with
      | Some (before, file, after) =>
          before
          +:+ (if decide (fileBelow below = Some file) then "↓"
               else thirdPartyInfoStr (default emptyInfo (frameInfo frame)) +:+ file)
          +:+ after
      | None => frameText frame
      end
      :: compressed below
  end.

(** ** Vocabulary for the further properties of the query handler *)

(** The number of elements of the tree below and including an element. *)
Fixpoint elementSize (e : Element) : nat :=
  match e with
  | mkElement _ shadowRoot children =>
      S (match shadowRoot with
         | Some nodeShadow => foldr (λ c n, elementSize c + n)%nat 0%nat nodeShadow
         | None => 0%nat
         end
         + foldr (λ c n, elementSize c + n)%nat 0%nat children)
  end.

(** ** Vocabulary for the further properties of [unwrapHandleEx] *)

(** The handles left in an unwrapped value. *)
Fixpoint wrappedHandles (unwrapped : Unwrapped) : list JSHandle :=
  match unwrapped with
  | unwrapped_handle handle => [handle]
  | unwrapped_null | unwrapped_primitive _ => []
  | unwrapped_object properties =>
      flat_map (λ property, wrappedHandles property.2) properties
  | unwrapped_array items => flat_map wrappedHandles items
  end.

(** A handle that [unwrapHandleEx] returns as it is under a policy: a
    function, a symbol, an object or proxy whose class the policy refuses,
    or an object of another subtype than [null] and [array]. *)
Definition keptWrapped (shouldUnwrap : string → bool) (handle : JSHandle) : Prop :=
  let remoteObject := remoteObject handle in
  remoteType remoteObject ∈ ["function"; "symbol"]
  ∨ (remoteType remoteObject = "object"
     ∧ ((subtype remoteObject ∈ [None; Some "proxy"]
         ∧ shouldUnwrap (className remoteObject) = false)
        ∨ subtype remoteObject ∉ [None; Some "proxy"; Some "null"; Some "array"])).

(** The reasons of the rejected protocol calls of a handle and of the
    handles below it. *)
Fixpoint protocolErrors (handle : JSHandle) : list Reason :=
  match handle with
  | mkHandle _ getProperties jsonValue =>
      match getProperties with
      | Fulfilled properties => flat_map (λ property, protocolErrors property.2) properties
      | Rejected reason => [reason]
      end
      ++ match jsonValue with
         | Fulfilled _ => []
         | Rejected reason => [reason]
         end
  end.

(** ** Vocabulary for the properties of [getFrameStack] and [attributePairs] *)

(** The parent of a frame, its parent, and so on. *)
Fixpoint ancestors (frame : Frame) : list Frame :=
  match frame with
  | mkFrame _ (Some parent) => parent :: ancestors parent
  | mkFrame _ None => []
  end.

(** The pair of a name and a value, both defined. *)
Definition pairOf (pair : string * string) : AttributePair.t :=
  {| AttributePair.name := Some pair.1; AttributePair.value := Some pair.2 |}.

(** The attribute array of a list of names and values. *)
Definition interleave (pairs : list (string * string)) : list string :=
  flat_map (λ '(name, value), [name; value]) pairs.

(** ** Vocabulary for the properties of [isNavigationError] *)

(** The code units are those of the text, up to the case of the letters
    [a] to [z]. *)
Definition sameIgnoringCase (units : list CodeUnit) (text : string) : Prop :=
  canonicalize <$> units = canonicalize <$> codeUnits text.

(** The message starts with the text, which ends there or is followed by
    a code unit that is not a word character. *)
Definition startsWithPhrase (message : list CodeUnit) (text : string) : Prop :=
  ∃ phrase rest,
    message = phrase ++ rest ∧ sameIgnoringCase phrase text ∧ wordAt rest = false.

(** The message starts with [Protocol error] and names a closed session
    or target later on the same line; both phrases are delimited by a code
    unit that is not a word character. *)
Definition protocolErrorClosed (message : list CodeUnit) : Prop :=
  ∃ phrase between keyword rest,
    message = phrase ++ between ++ keyword ++ rest
    ∧ sameIgnoringCase phrase "Protocol error"
    ∧ wordAt between = false ∧ wordAt (reverse between) = false ∧ between ≠ []
    ∧ Forall (λ c, isLineTerminator c = false) between
    ∧ (sameIgnoringCase keyword "Session closed"
       ∨ sameIgnoringCase keyword "Target closed").

(** * Concrete inputs *)

Module Examples.

(** A searcher over encoder names: it fails on the text [bad], finds
    nothing in the text [none] and finds a URI encoding elsewhere. *)
Definition searcher : ValueSearcher (Encoder := string) :=
  {| findValueIn := λ buffer,
       if decide (buffer = Buffer_from "bad") then Rejected "malformed input"
       else if decide (buffer = Buffer_from "none") then Fulfilled None
       else Fulfilled (Some ["uri"]) |}.

Definition mkRequest (url : string) (headers : option (list (string * string)))
    (postData : option string) (thirdParty tracker : option bool) : RequestData :=
  {| url := url; requestHeaders := headers; postData := postData;
     wallTime := Some 1500%Z; stack := Some ["at send (https://a.example/app.js:10:5)"];
     request_thirdParty := thirdParty; request_tracker := tracker |}.

(** Two requests: a header of the first one makes the search fail. *)
Definition failingRequests : list RequestData :=
  [mkRequest "https://a.example/x?pw=s3cr3t" (Some [("cookie", "bad")]) None None None;
   mkRequest "https://tracker.example/beacon?v=s3cr3t" None (Some "v=s3cr3t") None None].

Definition okRequests : list RequestData :=
  [mkRequest "https://a.example/x?pw=s3cr3t" (Some [("cookie", "none"); ("x-id", "s3cr3t")]) None None None;
   mkRequest "https://tracker.example/beacon?v=s3cr3t" None (Some "v=s3cr3t") None None].

Definition okTargets : list string :=
  ["https://a.example/x?pw=s3cr3t"; "https://b.example/landing"].

(** The parameters of [getSummary] for integer milliseconds:
    [secondsToFixed1] rounds to a tenth of a second. *)
Definition formatDuration (ms : number) : string := pretty ms +:+ "ms".

Definition secondsToFixed1 (ms : number) : string :=
  let tenths := ((ms + 50) / 100)%Z in
  pretty (tenths / 10)%Z +:+ "." +:+ pretty (tenths mod 10)%Z.

Definition selectorStr (selectorChain : SelectorChain) : string :=
  String.concat ">>>" selectorChain.

(** [s] up to the first occurrence of [c], and the rest from [c] on. *)
Fixpoint splitAt (c : ascii) (s : string) : string * string :=
  match s with
  | EmptyString => ("", "")
  | String a rest =>
      if Ascii.eqb a c then ("", s)
      else let '(before, after) := splitAt c rest in (String a before, after)
  end.

(** A frame pattern: the file is the text between the opening parenthesis
    and the colon of the line number. *)
Definition stackFrameFileRegex : RegExp := λ frame,
  let '(before, rest) := splitAt "("%char frame in
  match rest with
  | String _ rest =>
      let '(file, after) := splitAt ":"%char rest in
      [Text (before +:+ "("); Match file; Text after]
  | EmptyString => [Text frame]
  end.

Definition fill : FillOptions := {| email := "user@example.org"; password := "s3cr3t" |}.

Definition mkOutput (collectorData : CollectorData)
    (leakedValues : option (list LeakedValue)) : OutputFile :=
  {| crawlResult := {| initialUrl := "https://a.example/"; finalUrl := "https://a.example/";
                       testStarted := 1000%Z; testFinished := 9000%Z;
                       data := collectorData |};
     leakedValues := leakedValues |}.

Definition urlLeak (requestIndex : nat) : LeakedValue :=
  {| findEntry := urlEntry requestIndex []; type := "password" |}.

(** The first request has no classification, the second one is classified
    as first party. *)
Definition mixedRequests : list RequestData :=
  [mkRequest "https://a.example/x?pw=s3cr3t" None None None None;
   mkRequest "https://b.example/y?pw=s3cr3t" None None (Some false) (Some false)].

Definition mixedLeaks : list AnnotatedLeak :=
  [{| leak := urlLeak 0; request := mixedRequests !! 0%nat; visitedTarget := None |};
   {| leak := urlLeak 1; request := mixedRequests !! 1%nat; visitedTarget := None |}].

(** The crawl of these requests, with the password found in the URL of
    both. *)
Definition mixedOutput : OutputFile :=
  mkOutput {| fields := None; requests := Some mixedRequests; apis := None |}
    (Some [urlLeak 0; urlLeak 1]).

(** Both requests are classified, the second one as a tracker. *)
Definition classifiedRequests : list RequestData :=
  [mkRequest "https://a.example/x?pw=s3cr3t" None None (Some false) None;
   mkRequest "https://tracker.example/beacon?v=s3cr3t" None None (Some true) (Some true)].

Definition classifiedLeaks : list AnnotatedLeak :=
  [{| leak := urlLeak 0; request := classifiedRequests !! 0%nat; visitedTarget := None |};
   {| leak := urlLeak 1; request := classifiedRequests !! 1%nat; visitedTarget := None |}].

(** The request collector has no data, yet a leak refers to a request. *)
Definition danglingOutput : OutputFile :=
  mkOutput {| fields := None; requests := None; apis := None |} (Some [urlLeak 0]).

(** No collector has data. *)
Definition emptyOutput : OutputFile :=
  mkOutput {| fields := None; requests := None; apis := None |} None.

Definition mkCall (selectorChain : option SelectorChain) (time : number) : SavedCallEx.t :=
  {| SavedCallEx.description := "HTMLInputElement.prototype.value";
     SavedCallEx.custom := {| SavedCallEx.selectorChain := selectorChain;
                              SavedCallEx.type := "password";
                              SavedCallEx.value := "s3cr3t";
                              SavedCallEx.time := time |};
     SavedCallEx.stack := ["at read (https://a.example/app.js:3:7)"];
     SavedCallEx.stackInfo := [None] |}.

(** Two reads of the password that differ in the selector chain only: none,
    and one that is rendered as the empty string. *)
Definition readWithoutChain : SavedCallEx.t := mkCall None 1200%Z.
Definition readWithEmptyChain : SavedCallEx.t := mkCall (Some []) 1300%Z.

Definition thirdPartyFrame : option FrameInfo :=
  Some {| frame_thirdParty := Some true; frame_tracker := None |}.

(** Three frames of [a.js] followed by one frame of [b.js]. *)
Definition repeatedCall : FieldValueCall :=
  {| selectorChain := None; type_ := "password"; value := "s3cr3t";
     stack_ := ["at f (a.js:1:2)"; "at g (a.js:3:4)"; "at h (a.js:5:6)"; "at k (b.js:7:8)"];
     stackInfo := [thirdPartyFrame; thirdPartyFrame; thirdPartyFrame; None] |}.

(** The same frames with the frame of [b.js] first. *)
Definition repeatedCallRev : FieldValueCall :=
  {| selectorChain := None; type_ := "password"; value := "s3cr3t";
     stack_ := ["at k (b.js:7:8)"; "at f (a.js:1:2)"; "at g (a.js:3:4)"; "at h (a.js:5:6)"];
     stackInfo := [None; thirdPartyFrame; thirdPartyFrame; thirdPartyFrame] |}.

(** A selector [#n] matches the element of identity [n]. *)
Definition matchesId (e : Element) (selector : string) : bool :=
  bool_decide (selector = "#" +:+ pretty (uid e)).

(** A host element with a light child and an open shadow root; the shadow
    tree has an element with one child. *)
Definition shadowChild : Element := mkElement 3 None [].
Definition shadowTree : list Element := [mkElement 2 None [shadowChild]].
Definition host : Element := mkElement 1 (Some shadowTree) [mkElement 4 None []].
Definition page : Node := FragmentNode [host; mkElement 5 None []].

(** A handle to an object of class [className] without properties. *)
Definition emptyObject (className : string) : JSHandle :=
  mkHandle {| remoteType := "object"; subtype := None; className := className |}
    (Fulfilled []) (Rejected "Object reference chain is too long").

End Examples.

(** * Concrete inputs for the further properties *)

Module Scenarios.

Definition visited (url : string) : VisitedTarget.t :=
  {| VisitedTarget.url := url; VisitedTarget.time := 2000%Z;
     VisitedTarget.target_thirdParty := None; VisitedTarget.target_tracker := None |}.

Definition crawledFields : FieldsData.t :=
  {| FieldsData.passwordLeaks := [];
     FieldsData.visitedTargets := visited <$> Examples.okTargets;
     FieldsData.fields := []; FieldsData.events := [];
     FieldsData.links := None; FieldsData.errors := [] |}.

(** The leaks of a crawl are what [findValue] finds in its requests and
    visited targets. *)
Definition crawledEntries : list FindEntry :=
  orderedFindings id Examples.searcher Examples.okRequests Examples.okTargets.

Definition crawledLeaks : list LeakedValue :=
  (λ entry, {| findEntry := entry; type := "password" |}) <$> crawledEntries.

Definition crawled : OutputFile :=
  Examples.mkOutput
    {| fields := Some crawledFields; requests := Some Examples.okRequests; apis := None |}
    (Some crawledLeaks).

(** A stack in which the pattern finds no file in the second frame; the
    frames around it are of the file [a.js]. *)
Definition parsedFrames : list ParsedFrame :=
  [{| frameText := "at f (a.js:1:2)"; frameInfo := Examples.thirdPartyFrame;
      fileMatch := Some ("at f (", "a.js", ":1:2)") |};
   {| frameText := "<anonymous>"; frameInfo := None; fileMatch := None |};
   {| frameText := "at g (a.js:3:4)"; frameInfo := Examples.thirdPartyFrame;
      fileMatch := Some ("at g (", "a.js", ":3:4)") |};
   {| frameText := "at k (b.js:7:8)"; frameInfo := None;
      fileMatch := Some ("at k (", "b.js", ":7:8)") |}].

Definition parsedCall : FieldValueCall :=
  {| selectorChain := None; type_ := "password"; value := "s3cr3t";
     stack_ := frameText <$> parsedFrames;
     stackInfo := frameInfo <$> parsedFrames |}.

(** A document without any shadow root. *)
Definition lightPage : Node :=
  FragmentNode [mkElement 1 None [mkElement 2 None []; mkElement 3 None []];
                mkElement 4 None []].

(** An object whose property [handler] is a function and whose property
    [node] is a DOM node, for which [getProperties] fails. *)
Definition functionHandle : JSHandle :=
  mkHandle {| remoteType := "function"; subtype := None; className := "Function" |}
    (Fulfilled []) (Rejected "Could not serialize referenced object").

Definition nodeHandle : JSHandle :=
  mkHandle {| remoteType := "object"; subtype := Some "node"; className := "HTMLDivElement" |}
    (Rejected "Target closed") (Rejected "Could not serialize referenced object").

Definition listenerObject : JSHandle :=
  mkHandle {| remoteType := "object"; subtype := None; className := "Object" |}
    (Fulfilled [("handler", functionHandle); ("node", nodeHandle)])
    (Rejected "Could not serialize referenced object").

(** An array whose element is an object for which [getProperties] fails. *)
Definition brokenObject : JSHandle :=
  mkHandle {| remoteType := "object"; subtype := None; className := "Object" |}
    (Rejected "Target closed") (Fulfilled prim_undefined).

Definition brokenArray : JSHandle :=
  mkHandle {| remoteType := "object"; subtype := Some "array"; className := "Array" |}
    (Fulfilled [("0", brokenObject)]) (Fulfilled prim_undefined).

(** A frame nested two levels below the main frame. *)
Definition mainFrame : Frame := mkFrame 0 None.
Definition innerFrame : Frame := mkFrame 2 (Some (mkFrame 1 (Some mainFrame))).

(** A stream of three chunks, the last of which announces the end; the
    session would answer a fourth read. *)
Definition textChunk (data : string) (eof : bool) : IO.ReadResponse :=
  {| IO.base64Encoded := None; IO.data := data; IO.eof := eof |}.

Definition streamBody : list IO.ReadResponse :=
  [textChunk "<html>" false; textChunk "<body>" false].

Definition streamReads : list (Settled IO.ReadResponse) :=
  (Fulfilled <$> streamBody)
  ++ Fulfilled (textChunk "</html>" true) :: [Rejected "Invalid stream handle"].

(** A crawl with two classified requests, the second one to a tracker,
    and the password found in the URL of both. *)
Definition classifiedOutput : OutputFile :=
  Examples.mkOutput
    {| fields := None; requests := Some Examples.classifiedRequests; apis := None |}
    (Some [Examples.urlLeak 0; Examples.urlLeak 1]).

Definition classifiedReport : string :=
  match getSummary Examples.formatDuration Examples.secondsToFixed1 Examples.selectorStr
          Examples.stackFrameFileRegex classifiedOutput Examples.fill with
  | inr report => report
  | inl _ => ""
  end.

End Scenarios.

(** * Properties *)

(** ** Promises *)

Section PromiseFacts.

Context {A : Type}.
Implicit Types (ps : list (Settled A)) (sched : nat → nat).

Lemma earliest_Some sched i ps t e :
  is_Some (earliest sched i ps (Some (t, e))).
Proof.
  revert i t e. induction ps as [|[a|e'] ps IH]; intros i t e; simpl; eauto.
  destruct (Nat.ltb (sched i) t); apply IH.
Qed.

Lemma earliest_None sched i ps :
  earliest sched i ps None = None ↔ Forall (λ p, isRejected p = false) ps.
Proof.
  revert i. induction ps as [|[a|e] ps IH]; intros i; simpl.
  - split; [constructor | done].
  - rewrite IH. split; [by constructor | by inversion 1].
  - split.
    + intros H. destruct (earliest_Some sched (S i) ps (sched i) e) as [x Hx].
      congruence.
    + inversion 1; discriminate.
Qed.

(** The reason [Promise.all] rejects with is the reason of a member. *)
Lemma earliest_reason sched i ps best t e :
  earliest sched i ps best = Some (t, e) →
  best = Some (t, e) ∨ Rejected e ∈ ps.
Proof.
  revert i best. induction ps as [|[a|e'] ps IH]; intros i best; simpl.
  - auto.
  - intros H. destruct (IH _ _ H); [auto | right; by constructor].
  - intros H. destruct (IH _ _ H) as [Hb | Hin]; [| right; by constructor].
    destruct best as [[t' e'']|].
    + destruct (Nat.ltb (sched i) t'); [| auto].
      simplify_eq. right. constructor.
    + simplify_eq. right. constructor.
Qed.

Lemma all_Fulfilled sched ps vs :
  all sched ps = Fulfilled vs ↔
  Forall (λ p, isRejected p = false) ps ∧ vs = values ps.
Proof.
  unfold all. destruct (earliest sched 0 ps None) as [[t e]|] eqn:E.
  - split; [done |]. intros [H _]. apply earliest_None with (sched:=sched) (i:=0) in H.
    congruence.
  - apply earliest_None in E. split.
    + intros [= <-]. done.
    + intros [_ ->]. done.
Qed.

Lemma all_Rejected sched ps :
  Exists (λ p, isRejected p = true) ps →
  ∃ e, all sched ps = Rejected e ∧ Rejected e ∈ ps.
Proof.
  intros Hex. unfold all.
  destruct (earliest sched 0 ps None) as [[t e]|] eqn:E.
  - exists e. split; [done |].
    destruct (earliest_reason _ _ _ _ _ _ E); [done | assumption].
  - apply earliest_None in E. apply Exists_exists in Hex as (p & Hp & Hr).
    rewrite Forall_forall in E. specialize (E p Hp). congruence.
Qed.

Lemma values_app ps qs : values (ps ++ qs) = values ps ++ values qs.
Proof.
  induction ps as [|[a|e] ps IH]; simpl; [done | by f_equal | done].
Qed.

End PromiseFacts.

(** ** [findValue] *)

Section FindValueFacts.

Context {Encoder : Type} (String_ : Encoder → string).
Context (searcher : ValueSearcher (Encoder := Encoder)).

Lemma notFalsy_app {A} (xs ys : list (option A)) :
  notFalsy (xs ++ ys) = notFalsy xs ++ notFalsy ys.
Proof. apply omap_app. Qed.

Lemma search_finding text mk :
  notFalsy (values [then_ (findValueIn searcher (Buffer_from text))
                      (λ encoders, andEntry String_ encoders mk)])
  = finding String_ searcher text mk.
Proof.
  unfold finding. by destruct (findValueIn searcher (Buffer_from text)) as [[?|]|].
Qed.

Lemma headerSearches_findings requestIndex headers :
  notFalsy (values ((λ '(name, value),
                       then_ (findValueIn searcher (Buffer_from value))
                         (λ encoders, andEntry String_ encoders (headerEntry requestIndex name)))
                    <$> headers))
  = flat_map (λ '(name, value), finding String_ searcher value (headerEntry requestIndex name))
      headers.
Proof.
  induction headers as [|[name value] headers IH]; [done |].
  rewrite fmap_cons. cbn [flat_map]. rewrite <- IH, <- search_finding.
  change (?x :: ?l) with ([x] ++ l) at 1.
  by rewrite values_app, notFalsy_app.
Qed.

Lemma requestSearches_findings requestIndex request :
  notFalsy (values (requestSearches String_ searcher requestIndex request))
  = requestFindings String_ searcher requestIndex request.
Proof.
  unfold requestSearches, requestFindings.
  rewrite !values_app, !notFalsy_app, search_finding, headerSearches_findings.
  do 2 f_equal. destruct (postData request) as [[|c data]|]; [done | | done].
  apply search_finding.
Qed.

Lemma requestSearches_all k requests :
  notFalsy (values (mjoin (imap (λ i, requestSearches String_ searcher (k + i)) requests)))
  = allRequestFindings String_ searcher k requests.
Proof.
  revert k. induction requests as [|request requests IH]; intros k; [done |].
  rewrite imap_cons. cbn [mjoin list_join allRequestFindings].
  rewrite values_app, notFalsy_app, Nat.add_0_r, requestSearches_findings.
  f_equal. rewrite <- IH. do 3 f_equal. apply imap_ext. intros i x _. simpl.
  f_equal. lia.
Qed.

Lemma visitedSearches_all (requestUrls : list string) k visitedTargets :
  notFalsy (values
    ((λ '(url, visitedTargetIndex),
        then_ (findValueIn searcher (Buffer_from url))
          (λ encoders, andEntry String_ encoders (visitedEntry visitedTargetIndex)))
     <$> filter (λ '(url, _), url ∉ (list_to_set requestUrls : gset string))
           (imap (λ i url, (url, k + i)) visitedTargets)))
  = visitedFindings String_ searcher requestUrls k visitedTargets.
Proof.
  revert k. induction visitedTargets as [|target visitedTargets IH]; intros k; [done |].
  rewrite imap_cons, filter_cons. cbn [visitedFindings].
  assert (Hnext : imap ((λ i url, (url, k + i)) ∘ S) visitedTargets
                  = imap (λ i url, (url, S k + i)) visitedTargets).
  { apply imap_ext. intros i x _. simpl. f_equal. lia. }
  rewrite Hnext, <- IH. clear Hnext IH.
  destruct (decide (target ∈ requestUrls)) as [Hin | Hin]; case_decide as Hset;
    rewrite elem_of_list_to_set in Hset; try done.
  rewrite fmap_cons, Nat.add_0_r, <- search_finding.
  change (?x :: ?l) with ([x] ++ l) at 1.
  by rewrite values_app, notFalsy_app.
Qed.

(** A fulfilled [findValue] gives the findings in structural order. *)
Lemma findValue_Fulfilled sched requests visitedTargets entries :
  findValue String_ sched searcher requests visitedTargets = Fulfilled entries →
  entries = orderedFindings String_ searcher requests visitedTargets.
Proof.
  unfold findValue, await.
  destruct (all sched _) as [results|] eqn:Hall; [| done].
  intros [= <-]. apply all_Fulfilled in Hall as [_ ->].
  rewrite values_app, notFalsy_app. unfold orderedFindings. f_equal.
  - apply (requestSearches_all 0).
  - apply (visitedSearches_all _ 0).
Qed.

End FindValueFacts.

Lemma elem_of_flat_map {A B} (f : A → list B) (l : list A) (y : B) :
  y ∈ flat_map f l ↔ ∃ x, x ∈ l ∧ y ∈ f x.
Proof.
  induction l as [|x l IH]; simpl.
  - split; [by intros ?%elem_of_nil | by intros (? & ?%elem_of_nil & _)].
  - rewrite elem_of_app, IH. split.
    + intros [H | (x' & H1 & H2)]; [exists x | exists x']; split; auto; by constructor.
    + intros (x' & [-> | H1]%elem_of_cons & H2); eauto.
Qed.

Section FindValueLocations.

Context {Encoder : Type} (String_ : Encoder → string).
Context (searcher : ValueSearcher (Encoder := Encoder)).

(** The array given to [Promise.all]. *)
Let searches (requests : list RequestData) (visitedTargets : list string) :=
  mjoin (imap (requestSearches String_ searcher) requests)
  ++ visitedSearches String_ searcher (list_to_set (url <$> requests)) visitedTargets.

(** Every searched location has a member of the array that rejects when
    its search does. *)
Lemma searches_rejected requests visitedTargets buffer :
  buffer ∈ searchedBuffers requests visitedTargets →
  isRejected (findValueIn searcher buffer) = true →
  Exists (λ p, isRejected p = true) (searches requests visitedTargets).
Proof.
  intros Hin Hrej. apply Exists_exists.
  destruct (findValueIn searcher buffer) as [|reason] eqn:Hsearch; [done |].
  exists (Rejected reason). split; [| done].
  unfold searchedBuffers in Hin. unfold searches.
  apply elem_of_app in Hin as [Hin | Hin]; apply elem_of_app; [left | right].
  - apply elem_of_flat_map in Hin as (request & Hreq & Hin).
    apply list_elem_of_lookup in Hreq as [i Hi].
    apply list_elem_of_join. exists (requestSearches String_ searcher i request).
    split; [| by apply (elem_of_lookup_imap_2 (requestSearches String_ searcher))].
    unfold requestBuffers in Hin. unfold requestSearches.
    rewrite !elem_of_app in Hin. rewrite !elem_of_app.
    destruct Hin as [Hin | [Hin | Hin]].
    + left. apply list_elem_of_singleton in Hin as ->.
      rewrite Hsearch. by apply list_elem_of_singleton.
    + right; left. apply list_elem_of_fmap in Hin as ([name value] & -> & Hin).
      apply list_elem_of_fmap. exists (name, value). by rewrite Hsearch.
    + right; right. destruct (postData request) as [[|c data]|]; [by inv Hin | | by inv Hin].
      apply list_elem_of_singleton in Hin as ->.
      rewrite Hsearch. by apply list_elem_of_singleton.
  - apply list_elem_of_fmap in Hin as (target & -> & Hin).
    apply list_elem_of_filter in Hin as [Hnot Hin].
    apply list_elem_of_lookup in Hin as [i Hi].
    unfold visitedSearches. apply list_elem_of_fmap. exists (target, i).
    rewrite Hsearch. split; [done |].
    apply list_elem_of_filter. split; [by rewrite elem_of_list_to_set |].
    by apply (elem_of_lookup_imap_2 (λ i url, (url, i))).
Qed.

(** Every rejected member of the array is the search of a location. *)
Lemma searches_reason requests visitedTargets reason :
  Rejected reason ∈ searches requests visitedTargets →
  ∃ buffer, buffer ∈ searchedBuffers requests visitedTargets
            ∧ findValueIn searcher buffer = Rejected reason.
Proof.
  unfold searches, searchedBuffers. intros Hin.
  assert (Hthen : ∀ buffer (f : option (list Encoder) → option FindEntry),
            Rejected reason = then_ (findValueIn searcher buffer) f →
            findValueIn searcher buffer = Rejected reason).
  { intros buffer f. destruct (findValueIn searcher buffer); simpl; congruence. }
  apply elem_of_app in Hin as [Hin | Hin].
  - apply list_elem_of_join in Hin as (l & Hin & Hl).
    apply elem_of_lookup_imap in Hl as (i & request & -> & Hi).
    unfold requestSearches in Hin. rewrite !elem_of_app in Hin.
    assert (∃ buffer, buffer ∈ requestBuffers request
                      ∧ findValueIn searcher buffer = Rejected reason)
      as (buffer & Hbuf & Hsearch).
    { unfold requestBuffers. setoid_rewrite elem_of_app. setoid_rewrite elem_of_app.
      destruct Hin as [Hin | [Hin | Hin]].
      - apply list_elem_of_singleton in Hin. apply Hthen in Hin.
        eexists; split; [left; by apply list_elem_of_singleton | done].
      - apply list_elem_of_fmap in Hin as ([name value] & Hin & Hh).
        apply Hthen in Hin. exists (Buffer_from value). split; [| done].
        right; left. apply list_elem_of_fmap. by exists (name, value).
      - destruct (postData request) as [[|c data]|];
          apply list_elem_of_singleton in Hin; try discriminate.
        apply Hthen in Hin. eexists; split; [| done].
        right; right. by apply list_elem_of_singleton. }
    exists buffer. split; [| done]. apply elem_of_app; left.
    apply elem_of_flat_map. exists request. split; [| done].
    apply list_elem_of_lookup. eauto.
  - unfold visitedSearches in Hin.
    apply list_elem_of_fmap in Hin as ([target i] & Hin & Hf).
    apply Hthen in Hin. exists (Buffer_from target). split; [| done].
    apply elem_of_app; right. apply list_elem_of_fmap. exists target. split; [done |].
    apply list_elem_of_filter in Hf as [Hnot Hf].
    apply list_elem_of_filter. split; [by rewrite elem_of_list_to_set in Hnot |].
    apply elem_of_lookup_imap in Hf as (j & y & [= -> ->] & Hj).
    apply list_elem_of_lookup. eauto.
Qed.

(** C1 (as amended): a search that rejects makes the promise returned by
    [findValue] reject, with the reason of a search of one of the
    locations; no list of findings is returned for the other locations. *)
Theorem findValue_rejection_aborts sched requests visitedTargets buffer :
  buffer ∈ searchedBuffers requests visitedTargets →
  isRejected (findValueIn searcher buffer) = true →
  ∃ reason failed,
    failed ∈ searchedBuffers requests visitedTargets
    ∧ findValueIn searcher failed = Rejected reason
    ∧ findValue String_ sched searcher requests visitedTargets = Rejected reason.
Proof.
  intros Hin Hrej.
  destruct (all_Rejected sched _ (searches_rejected _ _ _ Hin Hrej)) as (reason & Hall & Hmem).
  destruct (searches_reason _ _ _ Hmem) as (failed & Hfailed & Hsearch).
  exists reason, failed. split_and!; [done | done |].
  unfold findValue. fold (searches requests visitedTargets). by rewrite Hall.
Qed.

End FindValueLocations.

(** C1, counterexample: the search of one header rejects, the other
    locations have findings, and [findValue] returns no list at all,
    whatever the order in which the searches settle. *)
Lemma findValue_rejection_counterexample :
  Buffer_from "bad" ∈ searchedBuffers Examples.failingRequests []
  ∧ isRejected (findValueIn Examples.searcher (Buffer_from "bad")) = true
  ∧ orderedFindings id Examples.searcher Examples.failingRequests [] ≠ []
  ∧ ∀ sched, ¬ ∃ entries,
      findValue id sched Examples.searcher Examples.failingRequests [] = Fulfilled entries.
Proof.
  split_and!.
  - apply (bool_decide_unpack _). by vm_compute.
  - by vm_compute.
  - by vm_compute.
  - intros sched [entries H]. vm_compute in H. discriminate.
Qed.

Lemma findValue_rejection_aborts_witness :
  ∃ reason failed,
    failed ∈ searchedBuffers Examples.failingRequests []
    ∧ findValueIn Examples.searcher failed = Rejected reason
    ∧ findValue id (λ i, i) Examples.searcher Examples.failingRequests [] = Rejected reason.
Proof.
  apply (findValue_rejection_aborts id Examples.searcher (λ i, i)
           Examples.failingRequests [] (Buffer_from "bad")).
  - apply (bool_decide_unpack _). vm_compute. exact I.
  - vm_compute. reflexivity.
Defined.

Section FindValueEntries.

Context {Encoder : Type} (String_ : Encoder → string).
Context (searcher : ValueSearcher (Encoder := Encoder)).

Lemma finding_entry text mk entry :
  entry ∈ finding String_ searcher text mk → ∃ encodings, entry = mk encodings.
Proof.
  unfold finding. destruct (findValueIn searcher (Buffer_from text)) as [[encoders|]|];
    [| by intros ?%elem_of_nil..].
  intros ->%list_elem_of_singleton. eauto.
Qed.

Lemma requestFindings_entry index request entry :
  entry ∈ requestFindings String_ searcher index request →
  requestIndex entry = Some index ∧ visitedTargetIndex entry = None.
Proof.
  unfold requestFindings. rewrite !elem_of_app, elem_of_flat_map.
  intros [H | [([name value] & _ & H) | H]].
  - by apply finding_entry in H as [encodings ->].
  - by apply finding_entry in H as [encodings ->].
  - destruct (postData request) as [[|c data]|]; [by apply elem_of_nil in H | | by apply elem_of_nil in H].
    by apply finding_entry in H as [encodings ->].
Qed.

Lemma allRequestFindings_entry k requests entry :
  entry ∈ allRequestFindings String_ searcher k requests →
  is_Some (requestIndex entry) ∧ visitedTargetIndex entry = None.
Proof.
  revert k. induction requests as [|request requests IH]; intros k; simpl.
  - by intros ?%elem_of_nil.
  - rewrite elem_of_app. intros [H | H]; [| by eapply IH].
    apply requestFindings_entry in H as [-> ->]. eauto.
Qed.

Lemma visitedFindings_entry requestUrls k visitedTargets entry :
  entry ∈ visitedFindings String_ searcher requestUrls k visitedTargets →
  requestIndex entry = None
  ∧ ∃ j target, visitedTargetIndex entry = Some (k + j)
                ∧ visitedTargets !! j = Some target ∧ target ∉ requestUrls.
Proof.
  revert k. induction visitedTargets as [|target visitedTargets IH]; intros k; simpl.
  - by intros ?%elem_of_nil.
  - rewrite elem_of_app. intros [H | H].
    + case_decide as Hurl; [by apply elem_of_nil in H |].
      apply finding_entry in H as [encodings ->]. split; [done |].
      exists 0, target. by rewrite Nat.add_0_r.
    + apply IH in H as (Hreq & j & target' & Hidx & Hj & Hurl). split; [done |].
      exists (S j), target'. split_and!; [| done | done].
      rewrite Hidx. f_equal. lia.
Qed.

(** C3: every entry of the list returned by [findValue] has exactly one of
    [requestIndex] and [visitedTargetIndex] set, and no entry carries the
    index of a visited target whose URL is the URL of a request. *)
Theorem findValue_index_exclusive sched requests visitedTargets entries :
  findValue String_ sched searcher requests visitedTargets = Fulfilled entries →
  (∀ entry, entry ∈ entries →
     (is_Some (requestIndex entry) ∧ visitedTargetIndex entry = None)
     ∨ (requestIndex entry = None ∧ is_Some (visitedTargetIndex entry)))
  ∧ (∀ i target request,
       visitedTargets !! i = Some target → request ∈ requests → url request = target →
       ∀ entry, entry ∈ entries → visitedTargetIndex entry ≠ Some i).
Proof.
  intros ->%findValue_Fulfilled. unfold orderedFindings. split.
  - intros entry [H | H]%elem_of_app.
    + left. by eapply allRequestFindings_entry.
    + right. apply visitedFindings_entry in H as (-> & j & target & -> & _). eauto.
  - intros i target request Hi Hreq Hurl entry [H | H]%elem_of_app.
    + apply allRequestFindings_entry in H as [_ ->]. done.
    + apply visitedFindings_entry in H as (_ & j & target' & -> & Hj & Hnot).
      simpl. intros [= <-]. rewrite Hi in Hj. injection Hj as <-.
      apply Hnot. apply list_elem_of_fmap. eauto.
Qed.

(** C5: whatever the order in which the searches settle, the list
    [findValue] resolves to is the list of findings in structural order:
    request by request, for each request its URL, then its headers in
    enumeration order, then its body if present, and then the visited
    targets by index, the locations without a finding left out. *)
Theorem findValue_structural_order sched requests visitedTargets :
  Forall (λ buffer, isRejected (findValueIn searcher buffer) = false)
    (searchedBuffers requests visitedTargets) →
  findValue String_ sched searcher requests visitedTargets
  = Fulfilled (orderedFindings String_ searcher requests visitedTargets).
Proof.
  intros Hok. unfold findValue.
  set (searches := mjoin (imap (requestSearches String_ searcher) requests) ++ _).
  assert (Hall : all sched searches = Fulfilled (values searches)).
  { apply all_Fulfilled. split; [| done]. apply Forall_forall. intros [found | reason] Hin; [done |].
    apply (searches_reason String_) in Hin as (buffer & Hbuffer & Hsearch).
    rewrite Forall_forall in Hok. specialize (Hok buffer Hbuffer). by rewrite Hsearch in Hok. }
  rewrite Hall. cbn [await]. f_equal.
  apply (findValue_Fulfilled String_ searcher sched).
  unfold findValue. fold searches. by rewrite Hall.
Qed.

End FindValueEntries.

Lemma findValue_index_exclusive_witness :
  (∀ entry, entry ∈ orderedFindings id Examples.searcher Examples.okRequests Examples.okTargets →
     (is_Some (requestIndex entry) ∧ visitedTargetIndex entry = None)
     ∨ (requestIndex entry = None ∧ is_Some (visitedTargetIndex entry)))
  ∧ (∀ i target request,
       Examples.okTargets !! i = Some target → request ∈ Examples.okRequests →
       url request = target →
       ∀ entry, entry ∈ orderedFindings id Examples.searcher Examples.okRequests Examples.okTargets →
                visitedTargetIndex entry ≠ Some i).
Proof.
  apply (findValue_index_exclusive id Examples.searcher (λ i, i)
           Examples.okRequests Examples.okTargets).
  vm_compute. reflexivity.
Defined.

Lemma findValue_structural_order_witness :
  findValue id (λ i, 10 - i) Examples.searcher Examples.okRequests Examples.okTargets
  = Fulfilled (orderedFindings id Examples.searcher Examples.okRequests Examples.okTargets).
Proof.
  apply (findValue_structural_order id Examples.searcher (λ i, 10 - i)
           Examples.okRequests Examples.okTargets).
  apply (bool_decide_unpack _). vm_compute. exact I.
Defined.

(** ** The report writer *)

Lemma bind_pure_l {A B} (a : A) (f : A → Report B) : bind (pure a) f = f a.
Proof. unfold bind, pure, mret, Report_ret. by destruct (f a) as [|[]]. Qed.

Lemma bind_inr {A B} (m : Report A) (f : A → Report B) a out b out' :
  m = inr (a, out) → f a = inr (b, out') → bind m f = inr (b, out ++ out').
Proof. intros -> H. unfold bind. by rewrite H. Qed.

Lemma deref_Some {A} (x : option A) a : x = Some a → deref x = pure a.
Proof. by intros ->. Qed.

(** ** Filtering of the leaks in [getSummary] *)

Lemma source_resolved leak location' :
  location leak = Some location' → source leak = pure location'.
Proof. apply deref_Some. Qed.

Lemma isImportant_resolved leak :
  is_Some (location leak) → isImportant leak = pure (important leak).
Proof.
  intros [location' Hloc]. unfold isImportant, important.
  by rewrite (source_resolved _ _ Hloc), bind_pure_l, Hloc.
Qed.

Lemma filterR_isImportant annotatedLeaks :
  Forall (λ leak, is_Some (location leak)) annotatedLeaks →
  filterR isImportant annotatedLeaks = pure (filter (λ leak, important leak) annotatedLeaks).
Proof.
  induction 1 as [|leak annotatedLeaks Hleak _ IH]; [done |].
  cbn [filterR]. rewrite (isImportant_resolved _ Hleak), bind_pure_l, IH, bind_pure_l.
  rewrite filter_cons. by destruct (important leak).
Qed.

Lemma hasDomainInfo_resolved annotatedLeaks :
  Forall (λ leak, is_Some (location leak)) annotatedLeaks →
  hasDomainInfo annotatedLeaks = pure (firstClassified annotatedLeaks).
Proof.
  destruct 1 as [|first annotatedLeaks [location' Hloc] _]; [done |].
  unfold hasDomainInfo, firstClassified, classified. cbn [lookup list_lookup].
  by rewrite (source_resolved _ _ Hloc), bind_pure_l, Hloc.
Qed.

(** C2, counterexample: the second leak points to a classified request,
    yet no filtering is applied, because the first one points to a request
    without classification; the filter would have kept no leak, and
    [getSummary] writes the lines of both. *)
Lemma importantLeaks_counterexample :
  mapR (annotate {| fields := None; requests := Some Examples.mixedRequests; apis := None |})
    [Examples.urlLeak 0; Examples.urlLeak 1] = pure Examples.mixedLeaks
  ∧ (∃ leak, leak ∈ Examples.mixedLeaks ∧ classified leak = true)
  ∧ hasDomainInfo Examples.mixedLeaks = pure false
  ∧ importantLeaks false Examples.mixedLeaks = pure Examples.mixedLeaks
  ∧ filter (λ leak, important leak) Examples.mixedLeaks = []
  ∧ writeLeaks Examples.secondsToFixed1 Examples.mixedOutput
      (data (crawlResult Examples.mixedOutput))
    = inr ((), leaksSection Examples.secondsToFixed1 Examples.mixedOutput false
                 [Examples.urlLeak 0; Examples.urlLeak 1] Examples.mixedLeaks).
Proof.
  split_and!; try by vm_compute.
  eexists. split; [apply list_elem_of_lookup; by exists 1 | by vm_compute].
Qed.

(** The variable [hasDomainInfo] is true exactly when the first resolved
    leak location carries a defined [thirdParty]; [importantLeaks] then holds
    the leaks whose location has [thirdParty === true] or [tracker === true],
    and otherwise all of them. *)
Lemma importantLeaks_by_first_leak annotatedLeaks :
  Forall (λ leak, is_Some (location leak)) annotatedLeaks →
  hasDomainInfo annotatedLeaks = pure (firstClassified annotatedLeaks)
  ∧ importantLeaks (firstClassified annotatedLeaks) annotatedLeaks
    = pure (if firstClassified annotatedLeaks
            then filter (λ leak, important leak) annotatedLeaks
            else annotatedLeaks).
Proof.
  intros Hres. split; [by apply hasDomainInfo_resolved |].
  unfold importantLeaks. destruct (firstClassified annotatedLeaks); [| done].
  by apply filterR_isImportant.
Qed.

(** ** [groupBy] *)

Section GroupBy.

Context {A : Type}.
Implicit Types (acc : list (string * list A)) (key k : string) (g : list A).

Lemma groupInsert_elem key item acc k g :
  NoDup acc.*1 →
  (k, g) ∈ groupInsert key item acc ↔
    (k ≠ key ∧ (k, g) ∈ acc)
    ∨ (k = key ∧ ((∃ g0, (key, g0) ∈ acc ∧ g = g0 ++ [item])
                  ∨ ((key ∉ acc.*1) ∧ g = [item]))).
Proof.
  induction acc as [|[k0 g0] acc IH]; intros Hnd.
  - simpl. rewrite list_elem_of_singleton. split.
    + intros [= -> ->]. right. split; [done |]. right. split; [apply not_elem_of_nil | done].
    + intros [[_ []%elem_of_nil] | [-> [(g0 & []%elem_of_nil & _) | [_ ->]]]]. done.
  - apply NoDup_cons in Hnd as [Hk0 Hnd]. specialize (IH Hnd).
    assert (Hkeys : ∀ k' g', (k', g') ∈ acc → k' ∈ acc.*1).
    { intros k' g' H. apply list_elem_of_fmap. by exists (k', g'). }
    cbn [groupInsert]. destruct (decide (k0 = key)) as [-> | Hne].
    + rewrite elem_of_cons. split.
      * intros [[= -> ->] | Hin].
        -- right. split; [done |]. left. exists g0. split; [by left | done].
        -- left. split; [| by right]. intros ->. apply Hk0. by eapply Hkeys.
      * intros [[Hne Hin] | [-> [(g1 & Hin & ->) | [Hnot _]]]].
        -- apply elem_of_cons in Hin as [[= ? ?] | Hin]; [done | by right].
        -- apply elem_of_cons in Hin as [[= ->] | Hin]; [by left |].
           exfalso. apply Hk0. by eapply Hkeys.
        -- exfalso. apply Hnot. cbn. by left.
    + rewrite elem_of_cons, IH. cbn [fmap list_fmap fst]. split.
      * intros [[= -> ->] | [[Hk Hin] | [-> [(g1 & Hin & ->) | [Hnot ->]]]]].
        -- left. split; [done | by left].
        -- left. split; [done | by right].
        -- right. split; [done |]. left. exists g1. split; [by right | done].
        -- right. split; [done |]. right. split; [| done].
           rewrite elem_of_cons. intros [-> | H]; done.
      * intros [[Hk Hin] | [-> [(g1 & Hin & ->) | [Hnot ->]]]].
        -- apply elem_of_cons in Hin as [[= -> ->] | Hin]; [by left |].
           right. left. done.
        -- apply elem_of_cons in Hin as [[= ? ?] | Hin]; [done |].
           right. right. split; [done |]. left. eauto.
        -- right. right. split; [done |]. right. split; [| done].
           intros H. apply Hnot. rewrite elem_of_cons. by right.
Qed.

Lemma groupInsert_NoDup key item acc :
  NoDup acc.*1 → NoDup (groupInsert key item acc).*1.
Proof.
  induction acc as [|[k0 g0] acc IH]; intros Hnd.
  - simpl. apply NoDup_singleton.
  - apply NoDup_cons in Hnd as [Hk0 Hnd]. cbn [groupInsert].
    destruct (decide (k0 = key)) as [-> | Hne]; cbn; apply NoDup_cons.
    + done.
    + split; [| by apply IH].
      intros ([k' g'] & Hk & Hin)%list_elem_of_fmap. simpl in Hk. subst k'.
      apply groupInsert_elem in Hin as [[_ Hin] | [? _]]; [| done | done].
      apply Hk0. apply list_elem_of_fmap. by exists (k0, g').
Qed.

Context (groupFn : A → string).

Lemma groupBy_snoc items item :
  groupBy groupFn (items ++ [item])
  = groupInsert (groupFn item) item (groupBy groupFn items).
Proof. unfold groupBy. by rewrite foldl_snoc. Qed.

(** The groups are the non-empty classes of the key function, each with
    its members in the order of the list, and no key occurs twice. *)
Lemma groupBy_groups items :
  NoDup (groupBy groupFn items).*1
  ∧ ∀ k g, (k, g) ∈ groupBy groupFn items ↔
           g = filter (λ x, groupFn x = k) items ∧ g ≠ [].
Proof.
  induction items as [|item items [Hnd IH]] using rev_ind.
  - split; [constructor |]. intros k g. split; [by intros ?%elem_of_nil | by intros [-> ?]].
  - rewrite groupBy_snoc. split; [by apply groupInsert_NoDup |].
    intros k g. rewrite (groupInsert_elem _ _ _ _ _ Hnd), filter_app, filter_cons, filter_nil.
    destruct (decide (groupFn item = k)) as [<- | Hne].
    + split.
      * intros [[? _] | [_ [(g0 & Hin & ->) | [Hnot ->]]]]; [done | |].
        -- apply IH in Hin as [<- _]. split; [done |]. by intros [? ?]%app_eq_nil.
        -- split; [| done]. destruct (filter _ items) as [|y ys] eqn:Hf; [done |].
           exfalso. apply Hnot. apply list_elem_of_fmap.
           exists (groupFn item, y :: ys). split; [done |]. apply IH. by rewrite Hf.
      * intros [-> _]. right. split; [done |].
        destruct (filter (λ x, groupFn x = groupFn item) items) as [|y ys] eqn:Hf.
        -- right. split; [| done].
           intros ([k' g'] & Hk & Hin)%list_elem_of_fmap. simpl in Hk. subst k'.
           apply IH in Hin as [-> Hne]. by rewrite Hf in Hne.
        -- left. exists (y :: ys). split; [| done]. apply IH. by rewrite Hf.
    + rewrite app_nil_r. split.
      * intros [[_ Hin] | [-> _]]; [by apply IH | done].
      * intros H. left. split; [congruence | by apply IH].
Qed.

Lemma groupBy_nonempty items :
  Forall (λ '(_, g), g ≠ []) (groupBy groupFn items).
Proof.
  apply Forall_forall. intros [k g] Hin.
  by apply (proj2 (groupBy_groups items)) in Hin as [_ ?].
Qed.

(** Two members with the same key are in one group. *)
Lemma groupBy_same_key items x y :
  x ∈ items → y ∈ items → groupFn x = groupFn y →
  ∃ g, (groupFn x, g) ∈ groupBy groupFn items ∧ x ∈ g ∧ y ∈ g
       ∧ ∀ k' g', (k', g') ∈ groupBy groupFn items → x ∈ g' ∨ y ∈ g' → (k', g') = (groupFn x, g).
Proof.
  intros Hx Hy Hkey. destruct (groupBy_groups items) as [_ Hgroups].
  exists (filter (λ z, groupFn z = groupFn x) items).
  assert (Hxin : x ∈ filter (λ z, groupFn z = groupFn x) items)
    by (by apply list_elem_of_filter).
  split_and!.
  - apply Hgroups. split; [done |]. intros Hnil. rewrite Hnil in Hxin. by apply elem_of_nil in Hxin.
  - done.
  - by apply list_elem_of_filter.
  - intros k' g' [-> _]%Hgroups [[Hk _]%list_elem_of_filter | [Hk _]%list_elem_of_filter].
    + by rewrite Hk.
    + by rewrite <- Hk, Hkey.
Qed.

End GroupBy.

(** ** Grouping of the field value reads *)

(** C6, counterexample: two reads that differ only in that one has no
    selector chain and the other has a chain rendered as the empty string
    end up in a single group, printed once with both timestamps. *)
Lemma fieldValueCalls_absent_selector_counterexample :
  Examples.selectorStr [] = ""
  ∧ ∃ call,
      fieldValueCalls Examples.selectorStr Examples.fill
        [Examples.readWithoutChain; Examples.readWithEmptyChain]
      = pure [(call, [1200%Z; 1300%Z])].
Proof. split; [done |]. eexists. by vm_compute. Qed.

(** C6 (as amended): an absent [selectorChain] is keyed as the empty
    string, so two reads of a tracked value that agree on field type, value
    and stack, one without a chain and one whose chain is rendered as the
    empty string, have the same key and are members of one and the same
    group. *)
Theorem fieldValueGroups_absent_selector selectorStr fill savedCalls call1 call2 chain :
  call1 ∈ fieldValueReads fill savedCalls →
  call2 ∈ fieldValueReads fill savedCalls →
  SavedCallEx.selectorChain (SavedCallEx.custom call1) = None →
  SavedCallEx.selectorChain (SavedCallEx.custom call2) = Some chain →
  selectorStr chain = "" →
  SavedCallEx.type (SavedCallEx.custom call1) = SavedCallEx.type (SavedCallEx.custom call2) →
  SavedCallEx.value (SavedCallEx.custom call1) = SavedCallEx.value (SavedCallEx.custom call2) →
  SavedCallEx.stack call1 = SavedCallEx.stack call2 →
  groupKey selectorStr call1 = groupKey selectorStr call2
  ∧ ∃ group,
      (groupKey selectorStr call1, group) ∈ fieldValueGroups selectorStr fill savedCalls
      ∧ call1 ∈ group ∧ call2 ∈ group
      ∧ ∀ key' group', (key', group') ∈ fieldValueGroups selectorStr fill savedCalls →
                       call1 ∈ group' ∨ call2 ∈ group' →
                       (key', group') = (groupKey selectorStr call1, group).
Proof.
  intros H1 H2 Hnone Hsome Hstr Htype Hvalue Hstack.
  assert (Hkey : groupKey selectorStr call1 = groupKey selectorStr call2).
  { unfold groupKey. by rewrite Hnone, Hsome, Hstr, Htype, Hvalue, Hstack. }
  split; [done |]. by apply groupBy_same_key.
Qed.

Lemma fieldValueGroups_absent_selector_witness :
  groupKey Examples.selectorStr Examples.readWithoutChain
  = groupKey Examples.selectorStr Examples.readWithEmptyChain
  ∧ ∃ group,
      (groupKey Examples.selectorStr Examples.readWithoutChain, group)
        ∈ fieldValueGroups Examples.selectorStr Examples.fill
            [Examples.readWithoutChain; Examples.readWithEmptyChain]
      ∧ Examples.readWithoutChain ∈ group ∧ Examples.readWithEmptyChain ∈ group
      ∧ ∀ key' group',
          (key', group') ∈ fieldValueGroups Examples.selectorStr Examples.fill
                             [Examples.readWithoutChain; Examples.readWithEmptyChain] →
          Examples.readWithoutChain ∈ group' ∨ Examples.readWithEmptyChain ∈ group' →
          (key', group') = (groupKey Examples.selectorStr Examples.readWithoutChain, group).
Proof.
  apply (fieldValueGroups_absent_selector Examples.selectorStr Examples.fill
           [Examples.readWithoutChain; Examples.readWithEmptyChain]
           Examples.readWithoutChain Examples.readWithEmptyChain []).
  - vm_compute. by left.
  - vm_compute. right. by left.
  - reflexivity.
  - reflexivity.
  - reflexivity.
  - reflexivity.
  - reflexivity.
  - reflexivity.
Defined.

(** ** Compression of the frame stack *)

Lemma append_empty_r (s : string) : s +:+ "" = s.
Proof.
  induction s as [|c s IH]; [done |].
  change (String c (s +:+ "") = String c s). by rewrite IH.
Qed.

(** One step of the loop on a frame in which the pattern matches once. *)
Lemma String_replace_one_match (regex : RegExp) frame before file after
    (callback : string → option string → string * option string) prevFile :
  regex frame = [Text before; Match file; Text after] →
  String_replace frame regex callback prevFile
  = (before +:+ (callback file prevFile).1 +:+ after, (callback file prevFile).2).
Proof.
  intros Hmatch. unfold String_replace. rewrite Hmatch. cbn [replaceChunks].
  destruct (callback file prevFile) as [ret st]. cbn [fst snd].
  by rewrite append_empty_r.
Qed.

(** The loop runs from the last frame of the stack to the first one. *)
Lemma displayLoop_cons (regex : RegExp) entry entries :
  displayLoop regex (entry :: entries) = displayStep regex (displayLoop regex entries) entry.
Proof. unfold displayLoop. by rewrite reverse_cons, foldl_snoc. Qed.

(** A frame in which the pattern matches once shows the repeat marker when
    its file is the one of the frame processed before it, and its file with
    the classification prefix otherwise. *)
Lemma displayStep_one_match (regex : RegExp) displayed prevFile frame frameInfo
    before file after :
  regex frame = [Text before; Match file; Text after] →
  displayStep regex (displayed, prevFile) (frame, frameInfo)
  = (displayed
     ++ [before
         +:+ (if decide (prevFile = Some file) then "↓"
              else thirdPartyInfoStr (default emptyInfo frameInfo) +:+ file)
         +:+ after],
     Some file).
Proof.
  intros Hmatch. unfold displayStep.
  rewrite (String_replace_one_match _ _ _ _ _ _ _ Hmatch). cbn [fst snd].
  by destruct (decide (prevFile = Some file)).
Qed.

(** C7, counterexample: for three frames of [a.js] followed by a frame of
    [b.js] the display has the two repeat markers first; it is neither the
    pattern of the claim nor its mirror image. *)
Lemma displayFrames_counterexample :
  displayFrames Examples.stackFrameFileRegex Examples.repeatedCall
  = ["at f (↓:1:2)"; "at g (↓:3:4)"; "at h (third party a.js:5:6)"; "at k (b.js:7:8)"]
  ∧ displayFrames Examples.stackFrameFileRegex Examples.repeatedCall
    ≠ ["at f (third party a.js:1:2)"; "at g (↓:3:4)"; "at h (↓:5:6)"; "at k (b.js:7:8)"]
  ∧ displayFrames Examples.stackFrameFileRegex Examples.repeatedCall
    ≠ reverse ["at f (third party a.js:1:2)"; "at g (↓:3:4)"; "at h (↓:5:6)"; "at k (b.js:7:8)"].
Proof. split_and!; by vm_compute. Qed.

(** With the frame of [b.js] first in the stack, the label of [b.js] comes
    first and the label of [a.js] last. *)
Lemma displayFrames_opposite_order :
  displayFrames Examples.stackFrameFileRegex Examples.repeatedCallRev
  = ["at k (b.js:7:8)"; "at f (↓:1:2)"; "at g (↓:3:4)"; "at h (third party a.js:5:6)"].
Proof. by vm_compute. Qed.

(** C7 (as amended): the display keeps the order of the stack and, in a run
    of consecutive frames of one file, the last frame of the run shows the
    file with the classification prefix of that frame and the frames before
    it show the repeat marker.  For three frames of [a.js] followed by a
    frame of [b.js] this gives two repeat markers, then [a.js], then [b.js];
    for the frame of [b.js] followed by the three frames of [a.js] it gives
    [b.js], two repeat markers, then [a.js].  Either way exactly two lines
    are labelled with a file. *)
Theorem displayFrames_repeated_file (regex : RegExp)
    frame1 frame2 frame3 frame4 info1 info2 info3 info4
    before1 before2 before3 before4 after1 after2 after3 after4 fileA fileB :
  fileA ≠ fileB →
  regex frame1 = [Text before1; Match fileA; Text after1] →
  regex frame2 = [Text before2; Match fileA; Text after2] →
  regex frame3 = [Text before3; Match fileA; Text after3] →
  regex frame4 = [Text before4; Match fileB; Text after4] →
  (∀ call,
     stack_ call = [frame1; frame2; frame3; frame4] →
     stackInfo call = [info1; info2; info3; info4] →
     displayFrames regex call
     = [before1 +:+ "↓" +:+ after1;
        before2 +:+ "↓" +:+ after2;
        before3 +:+ (thirdPartyInfoStr (default emptyInfo info3) +:+ fileA) +:+ after3;
        before4 +:+ (thirdPartyInfoStr (default emptyInfo info4) +:+ fileB) +:+ after4])
  ∧ (∀ call,
       stack_ call = [frame4; frame1; frame2; frame3] →
       stackInfo call = [info4; info1; info2; info3] →
       displayFrames regex call
       = [before4 +:+ (thirdPartyInfoStr (default emptyInfo info4) +:+ fileB) +:+ after4;
          before1 +:+ "↓" +:+ after1;
          before2 +:+ "↓" +:+ after2;
          before3 +:+ (thirdPartyInfoStr (default emptyInfo info3) +:+ fileA) +:+ after3]).
Proof.
  intros Hne H1 H2 H3 H4.
  split; intros call Hstack Hinfo; unfold displayFrames;
    rewrite Hstack, Hinfo; cbn [zip zip_with]; rewrite !displayLoop_cons;
    change (displayLoop regex []) with ([] : list string, None : option string).
  - rewrite (displayStep_one_match _ _ _ _ _ _ _ _ H4).
    rewrite (displayStep_one_match _ _ _ _ _ _ _ _ H3).
    rewrite (displayStep_one_match _ _ _ _ _ _ _ _ H2).
    rewrite (displayStep_one_match _ _ _ _ _ _ _ _ H1).
    rewrite decide_False by done.
    rewrite decide_False by (intros [= ?]; congruence).
    by rewrite !decide_True.
  - rewrite (displayStep_one_match _ _ _ _ _ _ _ _ H3).
    rewrite (displayStep_one_match _ _ _ _ _ _ _ _ H2).
    rewrite (displayStep_one_match _ _ _ _ _ _ _ _ H1).
    rewrite (displayStep_one_match _ _ _ _ _ _ _ _ H4).
    rewrite decide_False by done.
    rewrite !decide_True by done.
    by rewrite decide_False by (intros [= ?]; congruence).
Qed.

Lemma displayFrames_repeated_file_witness :
  displayFrames Examples.stackFrameFileRegex Examples.repeatedCall
  = ["at f (" +:+ "↓" +:+ ":1:2)";
     "at g (" +:+ "↓" +:+ ":3:4)";
     "at h (" +:+ (thirdPartyInfoStr (default emptyInfo Examples.thirdPartyFrame) +:+ "a.js")
       +:+ ":5:6)";
     "at k (" +:+ (thirdPartyInfoStr (default emptyInfo None) +:+ "b.js") +:+ ":7:8)"].
Proof.
  apply (proj1 (displayFrames_repeated_file Examples.stackFrameFileRegex
                  "at f (a.js:1:2)" "at g (a.js:3:4)" "at h (a.js:5:6)" "at k (b.js:7:8)"
                  Examples.thirdPartyFrame Examples.thirdPartyFrame Examples.thirdPartyFrame None
                  "at f (" "at g (" "at h (" "at k (" ":1:2)" ":3:4)" ":5:6)" ":7:8)"
                  "a.js" "b.js"
                  ltac:(vm_compute; discriminate)
                  ltac:(vm_compute; reflexivity) ltac:(vm_compute; reflexivity)
                  ltac:(vm_compute; reflexivity) ltac:(vm_compute; reflexivity))
           Examples.repeatedCall).
  - reflexivity.
  - reflexivity.
Defined.

(** ** Completion of [getSummary] *)

Lemma seq_returns (m k : Report unit) out out' :
  m = inr ((), out) → k = inr ((), out') → (m ;; k) = inr ((), out ++ out').
Proof. intros -> ->. reflexivity. Qed.

Lemma seq_returns_ex (m k : Report unit) :
  (∃ out, m = inr ((), out)) → (∃ out, k = inr ((), out)) →
  ∃ out, (m ;; k) = inr ((), out).
Proof. intros [out Hm] [out' Hk]. eexists. by apply seq_returns. Qed.

Lemma pure_returns : ∃ out, pure () = inr ((), out).
Proof. by eexists. Qed.

Lemma write_returns str : ∃ out, write str = inr ((), out).
Proof. by eexists. Qed.

Lemma writeln_returns str : ∃ out, writeln str = inr ((), out).
Proof. destruct str; by eexists. Qed.

(** A line that is not empty is pushed, followed by a line feed. *)
Lemma writeln_line str : str ≠ "" → writeln str = inr ((), [str; LF]).
Proof. by destruct str. Qed.

Lemma forOf_returns {A} (xs : list A) (body : A → Report unit) :
  (∀ x, x ∈ xs → ∃ out, body x = inr ((), out)) →
  ∃ out, forOf xs body = inr ((), out).
Proof.
  induction xs as [|x xs IH]; intros Hbody; [by eexists |].
  cbn [forOf]. apply seq_returns_ex.
  - apply Hbody. by left.
  - apply IH. intros y Hy. apply Hbody. by right.
Qed.

Lemma mapR_returns {A B} (f : A → Report B) (P : B → Prop) (xs : list A) :
  (∀ x, x ∈ xs → ∃ y, f x = pure y ∧ P y) →
  ∃ ys, mapR f xs = pure ys ∧ Forall P ys.
Proof.
  induction xs as [|x xs IH]; intros Hf; [by exists [] |].
  destruct (Hf x) as (y & Hy & HP); [by left |].
  destruct IH as (ys & Hys & HPs); [intros z Hz; apply Hf; by right |].
  exists (y :: ys). split; [| by constructor].
  cbn [mapR]. by rewrite Hy, bind_pure_l, Hys, bind_pure_l.
Qed.

Lemma forallb_elem_of {A} (f : A → bool) (xs : list A) x :
  forallb f xs = true → x ∈ xs → f x = true.
Proof. rewrite forallb_forall. intros H Hx. by apply H, list_elem_of_In. Qed.

Create HintDb returns.
#[local] Hint Resolve pure_returns write_returns writeln_returns : returns.

(** Splits a sequence of statements into its statements. *)
Ltac returns :=
  repeat first
    [ apply forOf_returns;
      let x := fresh "x" in let Hin := fresh "Hin" in intros x Hin
    | apply seq_returns_ex
    | solve [auto with returns] ].

Section Completion.

Context (formatDuration secondsToFixed1 : number → string)
        (selectorStr : SelectorChain → string) (stackFrameFileRegex : RegExp).
Context (output : OutputFile) (fieldsCollectorOptions : FillOptions).

Lemma writeHeader_returns :
  ∃ out, writeHeader formatDuration output = inr ((), out).
Proof. unfold writeHeader. returns. case_decide; returns. Qed.

Lemma writePasswordLeaks_returns fieldsData :
  (∀ fd, fieldsData = Some fd →
         forallb hasFrameStack (FieldsData.passwordLeaks fd) = true) →
  ∃ out, writePasswordLeaks secondsToFixed1 selectorStr output fieldsData = inr ((), out)
         ∧ (fieldsData = None →
            out = ["❌️ No fields collector data, it probably crashed" +:+ LF; LF]).
Proof.
  intros Hstacks. destruct fieldsData as [fd|]; [| by eexists].
  specialize (Hstacks fd eq_refl).
  cut (∃ out, writePasswordLeaks secondsToFixed1 selectorStr output (Some fd) = inr ((), out)).
  { intros [out H]. by exists out. }
  unfold writePasswordLeaks.
  destruct (FieldsData.passwordLeaks fd) as [|leak leaks]; [returns |].
  returns.
  apply (forallb_elem_of _ _ _ Hstacks) in Hin.
  apply bool_decide_eq_true in Hin as [frames Hframes].
  rewrite Hframes. cbn [deref]. rewrite bind_pure_l. returns.
Qed.

Lemma annotate_resolves collectorData leak :
  resolves collectorData leak = true →
  ∃ annotated, annotate collectorData leak = pure annotated ∧ is_Some (location annotated).
Proof.
  unfold resolves, annotate, location.
  intros [[H1 H2]%andb_prop_elim H3]%Is_true_true%andb_prop_elim.
  apply bool_decide_unpack in H1, H2, H3.
  destruct (requestIndex leak) as [i|], (visitedTargetIndex leak) as [j|];
    destruct (requests collectorData) as [rs|], (fields collectorData) as [fd|]; cbn in *.
  all: try (destruct H1; by eauto).
  all: try (destruct H2; by eauto).
  all: rewrite ?bind_pure_l; cbn.
  all: eexists; split; [reflexivity |]; cbn.
  all: destruct H3 as [[x Hx] | [x Hx]]; try discriminate; rewrite ?Hx; cbn.
  all: try (destruct (rs !! i); cbn); eauto.
Qed.

Lemma writeLeak_returns leak :
  is_Some (location leak) →
  ∃ out, writeLeak secondsToFixed1 output leak = inr ((), out).
Proof.
  unfold location, writeLeak. intros Hloc.
  destruct (visitedTarget leak) as [target|], (request leak) as [request|];
    cbn [deref fmap option_fmap option_map nullish] in *.
  - rewrite ?bind_pure_l. returns. destruct (nonEmpty _); returns.
  - rewrite ?bind_pure_l. returns.
  - rewrite ?bind_pure_l. returns. destruct (nonEmpty _); returns.
  - by destruct Hloc.
Qed.

Lemma writeLeaks_returns :
  (∀ leaks, leakedValues output = Some leaks →
            forallb (resolves (data (crawlResult output))) leaks = true) →
  ∃ out, writeLeaks secondsToFixed1 output (data (crawlResult output)) = inr ((), out)
         ∧ (leakedValues output = None →
            out = ["⚠️ No leaked value data found" +:+ LF; LF]).
Proof.
  intros Hres. unfold writeLeaks. destruct (leakedValues output) as [leaks|]; [| by eexists].
  specialize (Hres leaks eq_refl).
  destruct (mapR_returns (annotate (data (crawlResult output)))
              (λ annotated, is_Some (location annotated)) leaks)
    as (annotatedLeaks & -> & Hloc).
  { intros leak Hleak. by eapply annotate_resolves, forallb_elem_of. }
  rewrite bind_pure_l.
  rewrite (hasDomainInfo_resolved _ Hloc), bind_pure_l.
  unfold importantLeaks at 1.
  assert (Himportant :
    (if firstClassified annotatedLeaks
     then filterR isImportant annotatedLeaks else pure annotatedLeaks)
    = pure (if firstClassified annotatedLeaks
            then filter (λ leak, important leak) annotatedLeaks else annotatedLeaks)).
  { destruct (firstClassified annotatedLeaks); [by apply filterR_isImportant | done]. }
  rewrite Himportant, bind_pure_l. clear Himportant.
  set (rendered := if firstClassified annotatedLeaks then _ else _).
  assert (Hrendered : Forall (λ leak, is_Some (location leak)) rendered).
  { subst rendered. destruct (firstClassified annotatedLeaks); [| done].
    apply Forall_forall. intros leak [_ Hleak]%list_elem_of_filter.
    rewrite Forall_forall in Hloc. auto. }
  cut (∃ out, match rendered with
              | [] => writeln (template ["✔️ No leaks ";
                                         match leaks with _ :: _ => "to third parties " | [] => "" end;
                                         "detected"; LF])
              | _ :: _ =>
                  writeln (template ["ℹ️ 🖅 Values were sent in web requests";
                                     if firstClassified annotatedLeaks
                                     then " to third parties" else ""; ":"]) ;;
                  forOf rendered (writeLeak secondsToFixed1 output) ;;
                  writeln ""
              end = inr ((), out)).
  { intros [out H]. exists out. split; [| done]. by destruct rendered. }
  clearbody rendered. destruct rendered as [|leak rest] eqn:E; [returns |].
  rewrite <- E in *. returns.
  apply writeLeak_returns. rewrite Forall_forall in Hrendered. auto.
Qed.

End Completion.

(** ** Joining the pushed strings *)

Lemma append_assoc (s1 s2 s3 : string) : (s1 +:+ s2) +:+ s3 = s1 +:+ s2 +:+ s3.
Proof.
  induction s1 as [|c s1 IH]; [done |].
  change (String c ((s1 +:+ s2) +:+ s3) = String c (s1 +:+ s2 +:+ s3)). by rewrite IH.
Qed.

Lemma concat_empty_cons (x : string) (l : list string) :
  String.concat "" (x :: l) = x +:+ String.concat "" l.
Proof. destruct l; [by rewrite append_empty_r | done]. Qed.

Lemma concat_empty_app (l1 l2 : list string) :
  String.concat "" (l1 ++ l2) = String.concat "" l1 +:+ String.concat "" l2.
Proof.
  induction l1 as [|x l1 IH]; [done |].
  rewrite <- app_comm_cons, !concat_empty_cons, IH. by rewrite append_assoc.
Qed.

(** The strings pushed in a row occur in the joined report. *)
Lemma contains_pushed (l1 l2 l3 : list string) :
  contains (String.concat "" (l1 ++ l2 ++ l3)) (String.concat "" l2).
Proof.
  exists (String.concat "" l1), (String.concat "" l3). by rewrite !concat_empty_app.
Qed.

Section Summary.

Context (formatDuration secondsToFixed1 : number → string)
        (selectorStr : SelectorChain → string) (stackFrameFileRegex : RegExp).
Context (output : OutputFile) (fieldsCollectorOptions : FillOptions).

Lemma fieldValueCalls_returns savedCalls :
  ∃ calls, fieldValueCalls selectorStr fieldsCollectorOptions savedCalls = pure calls.
Proof.
  unfold fieldValueCalls, fieldValueGroups.
  destruct (mapR_returns
              (λ '(_, calls),
                 let* first := deref (calls !! 0) in
                 let custom := SavedCallEx.custom first in
                 pure ({| selectorChain := SavedCallEx.selectorChain custom;
                          type_ := SavedCallEx.type custom;
                          value := SavedCallEx.value custom;
                          stack_ := SavedCallEx.stack first;
                          stackInfo := SavedCallEx.stackInfo first |},
                       (λ call, SavedCallEx.time (SavedCallEx.custom call)) <$> calls))
              (λ _, True)
              (groupBy (groupKey selectorStr)
                 (fieldValueReads fieldsCollectorOptions savedCalls)))
    as (calls & Hcalls & _); [| by exists calls].
  intros [key group] Hin.
  pose proof (groupBy_nonempty (groupKey selectorStr)
                (fieldValueReads fieldsCollectorOptions savedCalls)) as Hne.
  rewrite Forall_forall in Hne. specialize (Hne _ Hin). cbn in Hne.
  destruct group as [|first group]; [done |].
  eexists. split; [| done]. cbn [lookup list_lookup deref]. by rewrite bind_pure_l.
Qed.

Lemma writeFieldValueCall_returns entry :
  ∃ out, writeFieldValueCall secondsToFixed1 selectorStr stackFrameFileRegex
           output fieldsCollectorOptions entry = inr ((), out).
Proof.
  destruct entry as [call times]. unfold writeFieldValueCall.
  returns. destruct (selectorChain call); returns.
Qed.

Lemma writeFieldValueCalls_returns collectorData :
  ∃ out, writeFieldValueCalls secondsToFixed1 selectorStr stackFrameFileRegex
           output fieldsCollectorOptions collectorData = inr ((), out).
Proof.
  unfold writeFieldValueCalls. destruct (apis collectorData) as [savedCalls|]; [| returns].
  destruct (fieldValueCalls_returns savedCalls) as [calls ->]. rewrite bind_pure_l.
  destruct calls as [|entry rest] eqn:E; [returns |]. rewrite <- E.
  returns. apply writeFieldValueCall_returns.
Qed.

Lemma writeStatistics_returns fieldsData :
  ∃ out, writeStatistics fieldsData = inr ((), out).
Proof.
  unfold writeStatistics. destruct fieldsData as [fd|]; [| returns].
  returns. destruct (FieldsData.errors fd) as [|error rest] eqn:E; [returns |].
  rewrite <- E. returns.
Qed.

(** On an input that meets the contract every section is written: the
    strings pushed are those of the header, of the password leaks, of the
    request warning, of the leaks, of the field value reads and of the
    statistics. *)
Lemma summarize_returns :
  wellFormed output = true →
  ∃ header passwordLeaks leaks calls statistics,
    summarize formatDuration secondsToFixed1 selectorStr stackFrameFileRegex
      output fieldsCollectorOptions
    = inr ((), header ++ passwordLeaks
               ++ match requests (data (crawlResult output)) with
                  | None => ["⚠️ No request collector data found"; LF]
                  | Some _ => []
                  end
               ++ leaks ++ calls ++ statistics)
    ∧ (fields (data (crawlResult output)) = None →
       passwordLeaks = ["❌️ No fields collector data, it probably crashed" +:+ LF; LF])
    ∧ (leakedValues output = None →
       leaks = ["⚠️ No leaked value data found" +:+ LF; LF]).
Proof.
  unfold wellFormed. intros [Hstacks Hleaks]%andb_true_iff.
  destruct writeHeader_returns with (formatDuration := formatDuration) (output := output)
    as [header Hheader].
  destruct (writePasswordLeaks_returns secondsToFixed1 selectorStr output
              (fields (data (crawlResult output)))) as (pw & Hpw & Hpw_warn).
  { intros fd Hfd. by rewrite Hfd in Hstacks. }
  destruct (writeLeaks_returns secondsToFixed1 output) as (leaks & Hwl & Hleaks_warn).
  { intros ls Hls. by rewrite Hls in Hleaks. }
  destruct (writeFieldValueCalls_returns (data (crawlResult output))) as [calls Hcalls].
  destruct (writeStatistics_returns (fields (data (crawlResult output)))) as [stats Hstats].
  exists header, pw, leaks, calls, stats. split_and!; [| done | done].
  unfold summarize. repeat apply seq_returns; try done.
  by destruct (requests (data (crawlResult output))).
Qed.

(** C4 (as amended): on an input in which every leak selects an existing
    request or visited target of a collection that is present, and every
    recorded password leak has a frame stack, [getSummary] returns the
    complete report and does not throw; that report has the warning line of
    each section whose data is absent. *)
Theorem getSummary_warns :
  wellFormed output = true →
  ∃ report,
    getSummary formatDuration secondsToFixed1 selectorStr stackFrameFileRegex
      output fieldsCollectorOptions = inr report
    ∧ (fields (data (crawlResult output)) = None →
       contains report ("❌️ No fields collector data, it probably crashed" +:+ LF +:+ LF))
    ∧ (requests (data (crawlResult output)) = None →
       contains report ("⚠️ No request collector data found" +:+ LF))
    ∧ (leakedValues output = None →
       contains report ("⚠️ No leaked value data found" +:+ LF +:+ LF)).
Proof.
  intros (header & pw & leaks & calls & stats & Hsum & Hpw_warn & Hleaks_warn)%summarize_returns.
  set (req := match requests (data (crawlResult output)) with
              | None => ["⚠️ No request collector data found"; LF]
              | Some _ => []
              end) in *.
  exists (String.concat "" (header ++ pw ++ req ++ leaks ++ calls ++ stats)).
  split; [unfold getSummary; by rewrite Hsum |]. split_and!.
  - intros Hnone. rewrite (Hpw_warn Hnone).
    apply (contains_pushed header
             ["❌️ No fields collector data, it probably crashed" +:+ LF; LF]
             (req ++ leaks ++ calls ++ stats)).
  - intros Hnone. subst req. rewrite Hnone. rewrite (app_assoc header pw).
    apply (contains_pushed (header ++ pw)
             ["⚠️ No request collector data found"; LF] (leaks ++ calls ++ stats)).
  - intros Hnone. rewrite (Hleaks_warn Hnone).
    rewrite (app_assoc header pw), (app_assoc _ req).
    apply (contains_pushed ((header ++ pw) ++ req)
             ["⚠️ No leaked value data found" +:+ LF; LF] (calls ++ stats)).
Qed.

End Summary.

(** C4, counterexample: the request collector has no data and a leak refers
    to a request; [getSummary] throws instead of returning a report. *)
Lemma getSummary_counterexample :
  requests (data (crawlResult Examples.danglingOutput)) = None
  ∧ getSummary Examples.formatDuration Examples.secondsToFixed1 Examples.selectorStr
      Examples.stackFrameFileRegex Examples.danglingOutput Examples.fill
    = inl TypeError.
Proof. split; by vm_compute. Qed.

Lemma getSummary_warns_witness :
  ∃ report,
    getSummary Examples.formatDuration Examples.secondsToFixed1 Examples.selectorStr
      Examples.stackFrameFileRegex Examples.emptyOutput Examples.fill = inr report
    ∧ (fields (data (crawlResult Examples.emptyOutput)) = None →
       contains report ("❌️ No fields collector data, it probably crashed" +:+ LF +:+ LF))
    ∧ (requests (data (crawlResult Examples.emptyOutput)) = None →
       contains report ("⚠️ No request collector data found" +:+ LF))
    ∧ (leakedValues Examples.emptyOutput = None →
       contains report ("⚠️ No leaked value data found" +:+ LF +:+ LF)).
Proof.
  apply (getSummary_warns Examples.formatDuration Examples.secondsToFixed1
           Examples.selectorStr Examples.stackFrameFileRegex
           Examples.emptyOutput Examples.fill).
  vm_compute. reflexivity.
Defined.

(** ** When [getSummary] throws *)

Lemma seq_throws (m k : Report unit) :
  (∃ out, m = inr ((), out)) → k = inl TypeError → (m ;; k) = inl TypeError.
Proof. by intros [out ->] ->. Qed.

Lemma bind_throws {A B} (m : Report A) (f : A → Report B) :
  m = inl TypeError → bind m f = inl TypeError.
Proof. by intros ->. Qed.

Lemma bind_inr_throws {A B} (a : A) out (f : A → Report B) :
  f a = inl TypeError → bind (inr (a, out)) f = inl TypeError.
Proof. unfold bind. by intros ->. Qed.

Lemma first_throws (m k : Report unit) : m = inl TypeError → (m ;; k) = inl TypeError.
Proof. by intros ->. Qed.

Lemma forOf_throws {A} (xs : list A) (body : A → Report unit) :
  Exists (λ x, body x = inl TypeError) xs → forOf xs body = inl TypeError.
Proof.
  induction xs as [|x xs IH]; intros Hex; [by apply Exists_nil in Hex |].
  cbn [forOf]. destruct (body x) as [[]|[[] out]] eqn:E; [done |].
  apply Exists_cons in Hex as [Hx | Hxs]; [congruence |].
  cbn. by rewrite (IH Hxs).
Qed.

Lemma filterR_throws {A} (f : A → Report bool) (xs : list A) :
  Exists (λ x, f x = inl TypeError) xs → filterR f xs = inl TypeError.
Proof.
  induction xs as [|x xs IH]; intros Hex; [by apply Exists_nil in Hex |].
  cbn [filterR]. destruct (f x) as [[]|[b out]] eqn:E; [done |].
  apply Exists_cons in Hex as [Hx | Hxs]; [congruence |].
  cbn. by rewrite (IH Hxs).
Qed.

Lemma mapR_inv {A B} (f : A → Report B) (xs : list A) ys out :
  mapR f xs = inr (ys, out) → Forall2 (λ x y, ∃ out', f x = inr (y, out')) xs ys.
Proof.
  revert ys out. induction xs as [|x xs IH]; intros ys out.
  - intros [= <- _]. constructor.
  - cbn [mapR]. destruct (f x) as [[]|[y o]] eqn:E; [done |]. cbn.
    destruct (mapR f xs) as [[]|[ys' o']] eqn:E'; [done |]. cbn.
    intros [= <- _]. constructor; [by eexists | by eapply IH].
Qed.

Lemma forallb_false_Exists {A} (f : A → bool) (xs : list A) :
  forallb f xs = false → Exists (λ x, f x = false) xs.
Proof.
  induction xs as [|x xs IH]; [done |]. cbn [forallb].
  destruct (f x) eqn:E; [intros H; right; by apply IH | intros _; by left].
Qed.

Section Throws.

Context (formatDuration secondsToFixed1 : number → string)
        (selectorStr : SelectorChain → string) (stackFrameFileRegex : RegExp).
Context (output : OutputFile) (fieldsCollectorOptions : FillOptions).

Lemma writePasswordLeaks_throws fieldsData :
  forallb hasFrameStack (FieldsData.passwordLeaks fieldsData) = false →
  writePasswordLeaks secondsToFixed1 selectorStr output (Some fieldsData) = inl TypeError.
Proof.
  intros Hex%forallb_false_Exists. unfold writePasswordLeaks.
  destruct (FieldsData.passwordLeaks fieldsData) as [|leak leaks] eqn:E;
    [by apply Exists_nil in Hex |].
  rewrite <- E in *. apply seq_throws; [returns |]. apply first_throws, forOf_throws.
  eapply Exists_impl; [exact Hex |]. intros l Hl. cbn beta in *.
  apply seq_throws; [returns |]. apply bind_throws.
  unfold hasFrameStack in Hl. rewrite bool_decide_eq_false in Hl.
  destruct (_ ?? _); [| done]. destruct Hl. eauto.
Qed.

Lemma annotate_located collectorData leak annotated out :
  annotate collectorData leak = inr (annotated, out) →
  is_Some (location annotated) →
  resolves collectorData leak = true.
Proof.
  unfold resolves, annotate, location.
  destruct (requestIndex leak) as [i|], (visitedTargetIndex leak) as [j|];
    destruct (requests collectorData) as [rs|], (fields collectorData) as [fd|];
    cbn; try done.
  all: intros [= <- _]; cbn.
  all: try destruct (rs !! i); try destruct (FieldsData.visitedTargets fd !! j).
  all: cbn; intros Hloc; try done.
  all: by destruct Hloc.
Qed.

Lemma annotate_unresolved collectorData leak annotated out :
  resolves collectorData leak = false →
  annotate collectorData leak = inr (annotated, out) →
  location annotated = None.
Proof.
  intros Hres Ha. destruct (location annotated) as [location'|] eqn:E; [| done].
  rewrite (annotate_located _ _ _ _ Ha) in Hres; [done | by rewrite E].
Qed.

Lemma writeLeak_throws leak :
  location leak = None → writeLeak secondsToFixed1 output leak = inl TypeError.
Proof.
  unfold location, writeLeak.
  by destruct (visitedTarget leak), (request leak).
Qed.

Lemma isImportant_throws leak : location leak = None → isImportant leak = inl TypeError.
Proof. unfold isImportant, source. by intros ->. Qed.

Lemma writeLeaks_throws leaks :
  leakedValues output = Some leaks →
  forallb (resolves (data (crawlResult output))) leaks = false →
  writeLeaks secondsToFixed1 output (data (crawlResult output)) = inl TypeError.
Proof.
  intros Hleaks Hex%forallb_false_Exists. unfold writeLeaks. rewrite Hleaks.
  destruct (mapR _ leaks) as [[]|[annotatedLeaks out]] eqn:Hmap; [done |].
  apply mapR_inv in Hmap.
  assert (Hnone : Exists (λ leak, location leak = None) annotatedLeaks).
  { clear Hleaks. induction Hmap as [|leak annotated leaks annotatedLeaks [o Ha] _ IH];
      [by apply Exists_nil in Hex |].
    apply Exists_cons in Hex as [Hleak | Hex]; [left | right; by apply IH].
    by eapply annotate_unresolved. }
  apply bind_inr_throws. unfold hasDomainInfo.
  destruct annotatedLeaks as [|first rest]; [by apply Exists_nil in Hnone |].
  cbn [lookup list_lookup]. unfold source.
  destruct (location first) as [location'|] eqn:Hfirst; [| done].
  cbn [deref]. rewrite bind_pure_l.
  destruct (bool_decide (thirdParty location' ≠ None));
    rewrite bind_pure_l; unfold importantLeaks.
  - rewrite (filterR_throws isImportant (first :: rest)); [done |].
    eapply Exists_impl; [exact Hnone |]. intros l Hl. by apply isImportant_throws.
  - rewrite bind_pure_l. apply seq_throws; [returns |].
    apply first_throws, forOf_throws.
    eapply Exists_impl; [exact Hnone |]. intros l Hl. by apply writeLeak_throws.
Qed.

End Throws.

(** X1: [getSummary] returns a report exactly on the inputs that meet its
    contract. *)
Lemma getSummary_returns_iff formatDuration secondsToFixed1 selectorStr stackFrameFileRegex
    output fieldsCollectorOptions :
  (∃ report, getSummary formatDuration secondsToFixed1 selectorStr stackFrameFileRegex
               output fieldsCollectorOptions = inr report)
  ↔ wellFormed output = true.
Proof.
  split.
  - intros [report Hreport]. destruct (wellFormed output) eqn:Hwf; [done |]. exfalso.
    revert Hreport. unfold getSummary, summarize.
    destruct writeHeader_returns with (formatDuration := formatDuration) (output := output)
      as [header Hheader].
    unfold wellFormed in Hwf. apply andb_false_iff in Hwf as [Hstacks | Hleaks].
    + destruct (fields (data (crawlResult output))) as [fd|] eqn:Hfields; [| done].
      rewrite (seq_throws (writeHeader formatDuration output)); [done | by eexists |].
      apply first_throws. by apply writePasswordLeaks_throws.
    + destruct (leakedValues output) as [leaks|] eqn:Hlv; [| done].
      rewrite (seq_throws (writeHeader formatDuration output)); [done | by eexists |].
      destruct (writePasswordLeaks secondsToFixed1 selectorStr output
                  (fields (data (crawlResult output)))) as [[]|[[] pw]]; [done |].
      apply seq_throws; [by eexists |].
      apply seq_throws; [destruct (requests _); returns |].
      apply first_throws. by eapply writeLeaks_throws.
  - intros Hwf.
    destruct (summarize_returns formatDuration secondsToFixed1 selectorStr
                stackFrameFileRegex output fieldsCollectorOptions Hwf)
      as (header & pw & leaks & calls & stats & Hsum & _).
    eexists. unfold getSummary. by rewrite Hsum.
Qed.

(** ** The shadow-piercing query *)

(** Induction on elements through the lists of children and of shadow
    children. *)
Lemma Element_nested_ind (P : Element → Prop) :
  (∀ uid shadowRoot children,
     match shadowRoot with Some nodeShadow => Forall P nodeShadow | None => True end →
     Forall P children →
     P (mkElement uid shadowRoot children)) →
  ∀ e, P e.
Proof.
  intros step. fix IH 1. intros [uid shadowRoot children]. apply step.
  - destruct shadowRoot as [nodeShadow|]; [| exact I].
    induction nodeShadow as [|c cs IHcs]; constructor; [apply IH | apply IHcs].
  - induction children as [|c cs IHcs]; constructor; [apply IH | apply IHcs].
Qed.

Lemma flat_map_ext_Forall {A B} (f g : A → list B) (l : list A) :
  Forall (λ x, f x = g x) l → flat_map f l = flat_map g l.
Proof. induction 1 as [|x l Hx _ IH]; simpl; [done | by rewrite Hx, IH]. Qed.

Lemma flat_map_flat_map {A B C} (f : A → list B) (g : B → list C) (l : list A) :
  flat_map g (flat_map f l) = flat_map (λ x, flat_map g (f x)) l.
Proof. induction l as [|x l IH]; simpl; [done | by rewrite flat_map_app, IH]. Qed.

Lemma mjoin_fmap_flat_map {A B} (f : A → list B) (l : list A) :
  mjoin (f <$> l) = flat_map f l.
Proof. induction l as [|x l IH]; [done |]. rewrite fmap_cons. cbn. by f_equal. Qed.

Lemma mapM_Some_fmap {A B} (f : A → option B) (g : A → B) (l : list A) :
  Forall (λ x, f x = Some (g x)) l → mapM f l = Some (g <$> l).
Proof.
  induction 1 as [|x l Hx _ IH]; [done |].
  cbn. rewrite Hx. cbn. rewrite IH. done.
Qed.

Section PierceFacts.

Context (matches : Element → string → bool) (selector : string).

(** What the loop of [examineChildren] yields for one visited element. *)
Let visit (child : Element) : list Element :=
  (if matches child selector then [child] else []) ++ pierceShadow matches selector child.

(** Visiting the tree walker's elements in turn gives the recursive order. *)
Lemma visit_inclusiveDescendants e :
  flat_map visit (inclusiveDescendants e) = pierce matches selector e.
Proof.
  induction e as [id shadow kids _ IH] using Element_nested_ind.
  cbn [inclusiveDescendants pierce flat_map]. unfold visit at 1, pierceShadow.
  cbn [shadowRoot]. rewrite <- !app_assoc. do 2 f_equal.
  rewrite flat_map_flat_map. by apply flat_map_ext_Forall.
Qed.

Lemma visit_createTreeWalker node :
  flat_map visit (createTreeWalker node)
  = flat_map (pierce matches selector) (childElements node).
Proof.
  unfold createTreeWalker. rewrite flat_map_flat_map.
  apply flat_map_ext_Forall, Forall_forall. intros e _. apply visit_inclusiveDescendants.
Qed.

End PierceFacts.

Section ShadowDepth.

Local Open Scope nat_scope.

Local Abbreviation maxDepth := (foldr (λ c d, max (shadowDepth c) d) 0).

Lemma maxDepth_elem (cs : list Element) c : c ∈ cs → shadowDepth c ≤ maxDepth cs.
Proof.
  induction 1 as [c cs | c c' cs _ IH]; cbn [foldr]; lia.
Qed.

Lemma shadowDepth_children e c : c ∈ children e → shadowDepth c ≤ shadowDepth e.
Proof.
  destruct e as [id shadow kids]. cbn [children shadowDepth].
  intros H%maxDepth_elem. lia.
Qed.

Lemma shadowDepth_shadowRoot e nodeShadow :
  shadowRoot e = Some nodeShadow →
  shadowDepthOf (FragmentNode nodeShadow) < shadowDepth e.
Proof.
  destruct e as [id shadow kids]. cbn [shadowRoot shadowDepth shadowDepthOf].
  intros ->. lia.
Qed.

Lemma shadowDepth_inclusiveDescendants e x :
  x ∈ inclusiveDescendants e → shadowDepth x ≤ shadowDepth e.
Proof.
  induction e as [id shadow kids _ IH] using Element_nested_ind.
  cbn [inclusiveDescendants]. intros [-> | Hx]%elem_of_cons; [done |].
  apply elem_of_flat_map in Hx as (c & Hc & Hx).
  rewrite Forall_forall in IH. specialize (IH c Hc Hx).
  pose proof (shadowDepth_children (mkElement id shadow kids) c Hc). lia.
Qed.

Lemma shadowDepth_createTreeWalker node x :
  x ∈ createTreeWalker node → shadowDepth x ≤ shadowDepthOf node.
Proof.
  unfold createTreeWalker. intros (c & Hc & Hx)%elem_of_flat_map.
  apply shadowDepth_inclusiveDescendants in Hx.
  destruct node as [e | cs]; cbn [childElements shadowDepthOf] in *.
  - pose proof (shadowDepth_children e c Hc). lia.
  - pose proof (maxDepth_elem cs c Hc). lia.
Qed.

End ShadowDepth.

Section ExamineChildren.

Local Open Scope nat_scope.

Context (matches : Element → string → bool) (selector : string).

(** With fuel above the nesting depth of the shadow roots the generator
    runs to its end, and it yields the elements in the recursive order. *)
Lemma examineChildren_fuel fuel node :
  shadowDepthOf node < fuel →
  examineChildren matches fuel selector node = Some (pierceAll matches selector node).
Proof.
  revert node. induction fuel as [|fuel IH]; intros node Hlt; [lia |].
  cbn [examineChildren].
  assert (Hshadow : ∀ e, shadowDepth e ≤ fuel →
            match shadowRoot e with
            | Some nodeShadow => examineChildren matches fuel selector (FragmentNode nodeShadow)
            | None => Some []
            end = Some (pierceShadow matches selector e)).
  { intros e He. unfold pierceShadow. destruct (shadowRoot e) as [nodeShadow|] eqn:E; [| done].
    rewrite IH; [done |]. apply shadowDepth_shadowRoot in E. lia. }
  assert (Hroot : match node with
                  | ElementNode e =>
                      match shadowRoot e with
                      | Some nodeShadow =>
                          examineChildren matches fuel selector (FragmentNode nodeShadow)
                      | None => Some []
                      end
                  | FragmentNode _ => Some []
                  end
                  = Some match node with
                         | ElementNode e => pierceShadow matches selector e
                         | FragmentNode _ => []
                         end).
  { destruct node as [e | cs]; [| done]. apply Hshadow. cbn in Hlt. lia. }
  rewrite Hroot. cbn [mbind option_bind].
  rewrite (mapM_Some_fmap _
             (λ child, (if matches child selector then [child] else [])
                       ++ pierceShadow matches selector child)).
  - cbn [mbind option_bind]. unfold pierceAll.
    by rewrite mjoin_fmap_flat_map, visit_createTreeWalker.
  - apply Forall_forall. intros child Hchild.
    rewrite Hshadow; [done |]. apply shadowDepth_createTreeWalker in Hchild. lia.
Qed.

Lemma queryAll_pierceAll node :
  queryAll matches node selector = pierceAll matches selector node.
Proof. unfold queryAll. rewrite examineChildren_fuel; [done | lia]. Qed.

End ExamineChildren.

Section Reachability.

Lemma reaches_step p x :
  reaches p x ↔
  ∃ c, (c ∈ children p ∨ ∃ nodeShadow, shadowRoot p = Some nodeShadow ∧ c ∈ nodeShadow)
       ∧ (x = c ∨ reaches c x).
Proof.
  split.
  - induction 1 as [p e Hc | p nodeShadow e Hs He | p m e _ (c & Hc & Hm) Hme _].
    + exists e. auto.
    + exists e. split; [right; eauto | by left].
    + exists c. split; [done |]. right. destruct Hm as [-> | Hm]; [done |].
      by eapply reaches_trans.
  - intros (c & [Hc | (nodeShadow & Hs & Hc)] & [-> | Hx]).
    + by apply reaches_child.
    + eapply reaches_trans; [by apply reaches_child | done].
    + by eapply reaches_shadow.
    + eapply reaches_trans; [by eapply reaches_shadow | done].
Qed.

Lemma reaches_inclusiveDescendants e x :
  x ∈ inclusiveDescendants e → x = e ∨ reaches e x.
Proof.
  induction e as [id shadow kids _ IH] using Element_nested_ind.
  cbn [inclusiveDescendants]. intros [-> | Hx]%elem_of_cons; [by left |]. right.
  apply elem_of_flat_map in Hx as (c & Hc & Hx).
  rewrite Forall_forall in IH. apply reaches_step. exists c. split; [by left | by apply IH].
Qed.

Lemma reachesFrom_createTreeWalker node x :
  x ∈ createTreeWalker node → reachesFrom node x.
Proof.
  unfold createTreeWalker. intros (c & Hc & Hx)%elem_of_flat_map.
  apply reaches_inclusiveDescendants in Hx.
  destruct node as [e | cs]; cbn [childElements reachesFrom] in *.
  - apply reaches_step. exists c. auto.
  - destruct Hx as [-> | Hx]; [by left | right; eauto].
Qed.

Context (matches : Element → string → bool) (selector : string).

Lemma elem_of_pierce e x :
  x ∈ pierce matches selector e ↔ (x = e ∨ reaches e x) ∧ matches x selector = true.
Proof.
  revert x. induction e as [id shadow kids IHs IHk] using Element_nested_ind. intros x.
  assert (Hsub : ∀ cs, Forall (λ c, ∀ x, x ∈ pierce matches selector c ↔
                                      (x = c ∨ reaches c x) ∧ matches x selector = true) cs →
            x ∈ flat_map (pierce matches selector) cs ↔
            ∃ c, c ∈ cs ∧ (x = c ∨ reaches c x) ∧ matches x selector = true).
  { intros cs Hcs. rewrite elem_of_flat_map. rewrite Forall_forall in Hcs.
    split; intros (c & Hc & H); exists c; (split; [done |]); by apply Hcs. }
  cbn [pierce]. rewrite !elem_of_app, (Hsub kids IHk).
  set (e := mkElement id shadow kids). rewrite (reaches_step e). split.
  - intros [Hx | [Hx | (c & Hc & Hx & Hm)]].
    + destruct (matches e selector) eqn:E; [| by apply elem_of_nil in Hx].
      apply list_elem_of_singleton in Hx as ->. auto.
    + destruct shadow as [nodeShadow|]; [| by apply elem_of_nil in Hx].
      apply (Hsub nodeShadow IHs) in Hx as (c & Hc & Hx & Hm).
      split; [| done]. right. exists c. split; [| done]. right. by exists nodeShadow.
    + split; [| done]. right. exists c. auto.
  - intros [[-> | (c & [Hc | (nodeShadow & Hs & Hc)] & Hx)] Hm].
    + left. rewrite Hm. by apply list_elem_of_singleton.
    + right; right. by exists c.
    + right; left. cbn in Hs. subst shadow. apply (Hsub nodeShadow IHs). by exists c.
Qed.

Lemma elem_of_pierceAll node x :
  x ∈ pierceAll matches selector node ↔ reachesFrom node x ∧ matches x selector = true.
Proof.
  assert (Hsub : ∀ cs, x ∈ flat_map (pierce matches selector) cs ↔
            ∃ c, c ∈ cs ∧ (x = c ∨ reaches c x) ∧ matches x selector = true).
  { intros cs. rewrite elem_of_flat_map. by setoid_rewrite elem_of_pierce. }
  unfold pierceAll. rewrite elem_of_app, Hsub.
  destruct node as [e | cs]; cbn [childElements reachesFrom].
  - unfold pierceShadow. rewrite reaches_step. split.
    + intros [Hx | (c & Hc & Hx & Hm)].
      * destruct (shadowRoot e) as [nodeShadow|]; [| by apply elem_of_nil in Hx].
        apply Hsub in Hx as (c & Hc & Hx & Hm). split; [| done]. exists c. eauto.
      * split; [| done]. exists c. auto.
    + intros [(c & [Hc | (nodeShadow & Hs & Hc)] & Hx) Hm].
      * right. by exists c.
      * left. rewrite Hs. apply Hsub. by exists c.
  - split.
    + intros [Hx | (c & Hc & [-> | Hx] & Hm)]; [by apply elem_of_nil in Hx | |].
      * split; [by left | done].
      * split; [right; eauto | done].
    + intros [[Hx | (c & Hc & Hx)] Hm]; right; [exists x | exists c]; auto.
Qed.

End Reachability.

Section PiercedShadow.

Context (matches : Element → string → bool) (selector : string).

Lemma flat_map_cons_Permutation {A} (f : A → list A) (l : list A) :
  flat_map (λ x, [x] ++ f x) l ≡ₚ l ++ flat_map f l.
Proof.
  induction l as [|x l IH]; [done |]. cbn [flat_map app].
  rewrite IH. apply Permutation_skip.
  by rewrite !(assoc_L (++)), (Permutation_app_comm (f x) l).
Qed.

(** The elements below a node are those the tree walker visits, those of
    the shadow tree of the node and those of the shadow trees of the visited
    elements. *)
Lemma everyElement_Permutation node :
  everyElement node
  ≡ₚ match node with
     | ElementNode e => pierceShadow (λ _ _, true) "" e
     | FragmentNode _ => []
     end
     ++ createTreeWalker node
     ++ flat_map (pierceShadow (λ _ _, true) "") (createTreeWalker node).
Proof.
  unfold everyElement, pierceAll. apply Permutation_app_head.
  rewrite <- (visit_createTreeWalker (λ _ _, true) "" node).
  apply flat_map_cons_Permutation.
Qed.

(** An element of the shadow tree of a visited element is not visited by
    the tree walker of the root. *)
Lemma shadow_not_walked node host nodeShadow d :
  uniqueIds node →
  host ∈ createTreeWalker node →
  shadowRoot host = Some nodeShadow →
  d ∈ createTreeWalker (FragmentNode nodeShadow) →
  d ∉ createTreeWalker node.
Proof.
  unfold uniqueIds. intros Hnd%NoDup_fmap_1 Hhost Hshadow Hd Hwalked.
  rewrite everyElement_Permutation in Hnd.
  apply NoDup_app in Hnd as (_ & _ & Hnd). apply NoDup_app in Hnd as (_ & Hdisj & _).
  apply (Hdisj d Hwalked). apply elem_of_flat_map. exists host. split; [done |].
  unfold pierceShadow. rewrite Hshadow.
  change nodeShadow with (childElements (FragmentNode nodeShadow)).
  rewrite <- (visit_createTreeWalker (λ _ _, true) "").
  apply elem_of_flat_map. exists d. split; [done |]. by left.
Qed.

(** C8: [queryAll] runs to its end whenever the generator is given fuel
    above the nesting depth of the shadow roots; it returns the matching
    elements in depth-first order, the shadow tree of the root first, and
    for each descendant the element itself, then its shadow tree, then its
    light children; its result has exactly the matching elements reachable
    through light children and open shadow roots; and a matching element of
    the shadow tree of a light descendant is returned although the tree
    walker of the root never visits it. *)
Theorem queryAll_pierces node :
  (∀ fuel, shadowDepthOf node < fuel →
           examineChildren matches fuel selector node
           = Some (queryAll matches node selector))
  ∧ queryAll matches node selector
    = match node with
      | ElementNode e => pierceShadow matches selector e
      | FragmentNode _ => []
      end ++ flat_map (pierce matches selector) (childElements node)
  ∧ (∀ e, e ∈ queryAll matches node selector
          ↔ reachesFrom node e ∧ matches e selector = true)
  ∧ (∀ host nodeShadow d,
       uniqueIds node →
       host ∈ createTreeWalker node →
       shadowRoot host = Some nodeShadow →
       d ∈ createTreeWalker (FragmentNode nodeShadow) →
       matches d selector = true →
       d ∈ queryAll matches node selector ∧ d ∉ createTreeWalker node).
Proof.
  split_and!.
  - intros fuel Hfuel. rewrite queryAll_pierceAll. by apply examineChildren_fuel.
  - by rewrite queryAll_pierceAll.
  - intros e. rewrite queryAll_pierceAll. apply elem_of_pierceAll.
  - intros host nodeShadow d Hids Hhost Hshadow Hd Hm.
    split; [| by eapply shadow_not_walked].
    rewrite queryAll_pierceAll. apply elem_of_pierceAll. split; [| done].
    apply reachesFrom_createTreeWalker in Hhost, Hd. cbn [reachesFrom] in Hd.
    assert (Hreach : reaches host d).
    { destruct Hd as [Hd | (c & Hc & Hd)].
      - by eapply reaches_shadow.
      - eapply reaches_trans; [by eapply reaches_shadow | done]. }
    destruct node as [root | cs]; cbn [reachesFrom] in *.
    + by eapply reaches_trans.
    + right. destruct Hhost as [Hhost | (c & Hc & Hhost)].
      * by exists host.
      * exists c. split; [done |]. by eapply reaches_trans.
Qed.

End PiercedShadow.

Lemma queryAll_pierces_witness :
  Examples.shadowChild ∈ queryAll Examples.matchesId Examples.page "#3"
  ∧ Examples.shadowChild ∉ createTreeWalker Examples.page.
Proof.
  apply (proj2 (proj2 (proj2 (queryAll_pierces Examples.matchesId "#3" Examples.page)))
           Examples.host Examples.shadowTree Examples.shadowChild).
  - unfold uniqueIds. apply (bool_decide_unpack _). vm_compute. exact I.
  - vm_compute. left.
  - reflexivity.
  - vm_compute. right. left.
  - vm_compute. reflexivity.
Defined.

Section QueryOne.

Local Open Scope nat_scope.

Context (matches : Element → string → bool) (selector : string).

(** Run until its first [yield], the generator stops at the head of what
    it would yield in full. *)
Lemma examineChildrenFirst_fuel fuel node :
  shadowDepthOf node < fuel →
  examineChildrenFirst matches fuel selector node
  = Some (head (pierceAll matches selector node)).
Proof.
  revert node. induction fuel as [|fuel IH]; intros node Hlt; [lia |].
  cbn [examineChildrenFirst].
  assert (Hshadow : ∀ e, shadowDepth e ≤ fuel →
            match shadowRoot e with
            | Some nodeShadow =>
                examineChildrenFirst matches fuel selector (FragmentNode nodeShadow)
            | None => Some None
            end = Some (head (pierceShadow matches selector e))).
  { intros e He. unfold pierceShadow. destruct (shadowRoot e) as [nodeShadow|] eqn:E; [| done].
    rewrite IH; [done |]. apply shadowDepth_shadowRoot in E. lia. }
  assert (Hwalk : ∀ iter, Forall (λ child, shadowDepth child ≤ fuel) iter →
            (fix walk (iter : list Element) : option (option Element) :=
               match iter with
               | [] => Some None
               | child :: iter =>
                   if matches child selector then Some (Some child)
                   else match
                          match shadowRoot child with
                          | Some nodeShadow =>
                              examineChildrenFirst matches fuel selector (FragmentNode nodeShadow)
                          | None => Some None
                          end
                        with
                        | Some None => walk iter
                        | found => found
                        end
               end) iter
            = Some (head (flat_map
                            (λ child, (if matches child selector then [child] else [])
                                      ++ pierceShadow matches selector child) iter))).
  { induction 1 as [|child iter Hchild _ IHiter]; [done |].
    cbn [flat_map]. destruct (matches child selector); [done |].
    rewrite (Hshadow child Hchild). cbn [app].
    destruct (pierceShadow matches selector child) as [|found rest]; [| done].
    apply IHiter. }
  assert (Hiter : Forall (λ child, shadowDepth child ≤ fuel) (createTreeWalker node)).
  { apply Forall_forall. intros child Hchild%shadowDepth_createTreeWalker. lia. }
  unfold pierceAll. rewrite <- (visit_createTreeWalker matches selector node).
  destruct node as [e | cs].
  - rewrite Hshadow by (cbn in Hlt; lia).
    destruct (pierceShadow matches selector e) as [|found rest]; [| done].
    by apply Hwalk.
  - by apply Hwalk.
Qed.

(** C10: [queryOne] returns the first element of the list [queryAll]
    returns for the same node and selector, and [null] exactly when that
    list is empty; the generator behind it runs to its first [yield], or to
    its end, whenever its fuel is above the nesting depth of the shadow
    roots. *)
Theorem queryOne_head_queryAll node :
  queryOne matches node selector = head (queryAll matches node selector)
  ∧ (queryOne matches node selector = None ↔ queryAll matches node selector = [])
  ∧ (∀ fuel, shadowDepthOf node < fuel →
             examineChildrenFirst matches fuel selector node
             = Some (queryOne matches node selector)).
Proof.
  assert (Hone : queryOne matches node selector = head (queryAll matches node selector)).
  { unfold queryOne. rewrite examineChildrenFirst_fuel by lia.
    by rewrite queryAll_pierceAll. }
  split_and!; [done | |].
  - rewrite Hone. by destruct (queryAll matches node selector).
  - intros fuel Hfuel. rewrite Hone, queryAll_pierceAll.
    by apply examineChildrenFirst_fuel.
Qed.

End QueryOne.

(** ** [unwrapHandle] and [unwrapHandleEx] *)

(** Induction on handles through the properties [getProperties] gives. *)
Lemma JSHandle_nested_ind (P : JSHandle → Prop) :
  (∀ remoteObject getProperties jsonValue,
     match getProperties with
     | Fulfilled properties => Forall (λ property, P property.2) properties
     | Rejected _ => True
     end →
     P (mkHandle remoteObject getProperties jsonValue)) →
  ∀ handle, P handle.
Proof.
  intros step. fix IH 1. intros [ro props json]. apply step.
  destruct props as [properties | reason]; [| exact I].
  induction properties as [|[k v] properties IHproperties]; constructor;
    [apply IH | apply IHproperties].
Qed.

Section UnwrapFacts.

Context (sched : nat → nat).

(** The result depends on the policy through its values only. *)
Lemma unwrapHandleEx_ext (p q : string → bool) handle :
  (∀ className, p className = q className) →
  unwrapHandleEx sched handle (Some p) = unwrapHandleEx sched handle (Some q).
Proof.
  intros Hpq. induction handle as [ro props json IH] using JSHandle_nested_ind.
  cbn [unwrapHandleEx default from_option id]. rewrite Hpq.
  destruct props as [properties | reason]; [| done].
  assert (Hentries :
    ((λ '(k, v), await (unwrapHandleEx sched v (Some p)) (λ unwrapped, Fulfilled (k, unwrapped)))
     <$> properties)
    = ((λ '(k, v), await (unwrapHandleEx sched v (Some q)) (λ unwrapped, Fulfilled (k, unwrapped)))
       <$> properties)).
  { apply Forall_fmap_ext_1. eapply Forall_impl; [exact IH |].
    intros [k v] Hv. cbn in *. by rewrite Hv. }
  assert (Hitems :
    ((λ '(_, v), unwrapHandleEx sched v (Some p)) <$> properties)
    = ((λ '(_, v), unwrapHandleEx sched v (Some q)) <$> properties)).
  { apply Forall_fmap_ext_1. eapply Forall_impl; [exact IH |].
    intros [k v] Hv. cbn in *. by rewrite Hv. }
  cbn [await]. by rewrite Hentries, Hitems.
Qed.

(** A policy that rejects a class name leaves an object of that class
    wrapped, while [unwrapHandle] inlines it. *)
Lemma unwrapHandle_differs (p : string → bool) name :
  p name = false →
  unwrapHandle sched (Examples.emptyObject name)
  ≠ unwrapHandleEx sched (Examples.emptyObject name) (Some p).
Proof.
  intros Hp. unfold unwrapHandle, Examples.emptyObject.
  cbn [unwrapHandleEx default from_option id remoteType subtype className].
  rewrite Hp. vm_compute. discriminate.
Qed.

End UnwrapFacts.

(** C9, counterexample: [unwrapHandle] inlines an object of class [Foo],
    which [unwrapHandleEx] under its default policy leaves wrapped; and no
    policy that is true on exactly two class names makes the two agree on
    every handle. *)
Lemma unwrapHandle_counterexample :
  unwrapHandle id (Examples.emptyObject "Foo") = Fulfilled (unwrapped_object [])
  ∧ unwrapHandleEx id (Examples.emptyObject "Foo") None
    = Fulfilled (unwrapped_handle (Examples.emptyObject "Foo"))
  ∧ ¬ ∃ p, exactlyTwo p
           ∧ ∀ sched handle, unwrapHandle sched handle = unwrapHandleEx sched handle (Some p).
Proof.
  split_and!; [by vm_compute | by vm_compute |].
  intros (p & (a & b & Hab & Hp) & Heq).
  assert (Hall : ∀ name, p name = true).
  { intros name. destruct (p name) eqn:E; [done |].
    by destruct (unwrapHandle_differs id p name E). }
  pose proof (proj1 (Hp "Foo") (Hall _)) as HFoo.
  pose proof (proj1 (Hp "Bar") (Hall _)) as HBar.
  pose proof (proj1 (Hp "Baz") (Hall _)) as HBaz.
  destruct HFoo as [<- | <-], HBar as [? | ?], HBaz as [? | ?]; congruence.
Qed.

(** C9 (as amended): [unwrapHandle] is [unwrapHandleEx] under the policy
    that is true on every class name, and under no other policy; the policy
    that is true on exactly the two class names [Object] and [Proxy] is the
    default of [unwrapHandleEx] when it is given no policy. *)
Theorem unwrapHandle_policy (p : string → bool) :
  ((∀ sched handle, unwrapHandle sched handle = unwrapHandleEx sched handle (Some p))
   ↔ ∀ name, p name = true)
  ∧ (∀ sched handle,
       unwrapHandleEx sched handle None
       = unwrapHandleEx sched handle (Some shouldUnwrap_default))
  ∧ (∀ name, shouldUnwrap_default name = true ↔ name = "Object" ∨ name = "Proxy").
Proof.
  split_and!.
  - split.
    + intros Heq name. destruct (p name) eqn:E; [done |].
      by destruct (unwrapHandle_differs id p name E).
    + intros Hall sched handle. unfold unwrapHandle.
      apply unwrapHandleEx_ext. intros name. by rewrite Hall.
  - intros sched [ro props json]. reflexivity.
  - intros name. unfold shouldUnwrap_default. rewrite bool_decide_eq_true.
    rewrite !elem_of_cons, elem_of_nil. tauto.
Qed.

(** ** The entries of [findValue], location by location *)

Section FindValueCharacterisation.

Context {Encoder : Type} (String_ : Encoder → string).
Context (searcher : ValueSearcher (Encoder := Encoder)).

Lemma elem_of_finding text mk entry :
  entry ∈ finding String_ searcher text mk ↔
  ∃ encoders, findValueIn searcher (Buffer_from text) = Fulfilled (Some encoders)
              ∧ entry = mk (String_ <$> encoders).
Proof.
  unfold finding. destruct (findValueIn searcher (Buffer_from text)) as [[encoders|]|reason].
  - rewrite list_elem_of_singleton. split; [eauto |]. by intros (? & [= <-] & ->).
  - rewrite elem_of_nil. split; [done |]. by intros (? & [=] & _).
  - rewrite elem_of_nil. split; [done |]. by intros (? & [=] & _).
Qed.

Lemma elem_of_requestFindings index request entry :
  entry ∈ requestFindings String_ searcher index request
  ↔ foundInRequest String_ searcher index request entry.
Proof.
  unfold requestFindings, foundInRequest. rewrite !elem_of_app, elem_of_flat_map, elem_of_finding.
  split.
  - intros [(encoders & Hf & ->) | [([name value] & Hin & Hf) | Hbody]].
    + exists encoders. by left.
    + apply elem_of_finding in Hf as (encoders & Hf & ->).
      exists encoders. right; left. by exists name, value.
    + destruct (postData request) as [[|c body]|] eqn:Hpost; try by apply elem_of_nil in Hbody.
      apply elem_of_finding in Hbody as (encoders & Hf & ->).
      exists encoders. right; right. by exists (String c body).
  - intros (encoders & [[Hf ->] | [(name & value & Hin & Hf & ->) | (body & Hpost & Hne & Hf & ->)]]).
    + left. by exists encoders.
    + right; left. exists (name, value). split; [done |]. apply elem_of_finding. by exists encoders.
    + right; right. rewrite Hpost. destruct body as [|c body]; [done |].
      apply elem_of_finding. by exists encoders.
Qed.

Lemma elem_of_allRequestFindings k requests entry :
  entry ∈ allRequestFindings String_ searcher k requests ↔
  ∃ i request, requests !! i = Some request
               ∧ foundInRequest String_ searcher (k + i) request entry.
Proof.
  revert k. induction requests as [|request requests IH]; intros k; cbn [allRequestFindings].
  - rewrite elem_of_nil. split; [done |]. by intros (i & request & Hi & _).
  - rewrite elem_of_app, elem_of_requestFindings, IH. split.
    + intros [Hfound | (i & request' & Hi & Hfound)].
      * exists 0, request. by rewrite Nat.add_0_r.
      * exists (S i), request'. by rewrite Nat.add_succ_r.
    + intros ([|i] & request' & Hi & Hfound); cbn in Hi.
      * left. simplify_eq. by rewrite Nat.add_0_r in Hfound.
      * right. exists i, request'. by rewrite Nat.add_succ_r in Hfound.
Qed.

Lemma elem_of_visitedFindings requests k visitedTargets entry :
  entry ∈ visitedFindings String_ searcher (url <$> requests) k visitedTargets ↔
  ∃ j target, visitedTargets !! j = Some target
              ∧ foundInTarget String_ searcher requests (k + j) target entry.
Proof.
  unfold foundInTarget.
  revert k. induction visitedTargets as [|target visitedTargets IH]; intros k;
    cbn [visitedFindings].
  - rewrite elem_of_nil. split; [done |]. by intros (j & target & Hj & _).
  - rewrite elem_of_app, IH. split.
    + intros [Hhere | (j & target' & Hj & encoders & Hnot & Hf & ->)].
      * destruct (decide (target ∈ url <$> requests)); [by apply elem_of_nil in Hhere |].
        apply elem_of_finding in Hhere as (encoders & Hf & ->).
        exists 0, target. split; [done |]. exists encoders. by rewrite Nat.add_0_r.
      * exists (S j), target'. split; [done |]. exists encoders. by rewrite Nat.add_succ_r.
    + intros ([|j] & target' & Hj & encoders & Hnot & Hf & ->); cbn in Hj.
      * left. simplify_eq. rewrite decide_False by done.
        apply elem_of_finding. exists encoders. by rewrite Nat.add_0_r.
      * right. exists j, target'. split; [done |]. exists encoders.
        by rewrite Nat.add_succ_r.
Qed.

(** X2: what [findValue] resolves to holds exactly the findings of the
    searched locations: for each request, those in its URL, in its header
    values and in its non-empty body, under the index of the request; for
    each visited target whose URL is not the URL of a request, the finding in
    its URL, under the index of the target.  No finding is dropped and
    nothing is reported that the searcher did not find. *)
Theorem findValue_entries_iff sched requests visitedTargets entries :
  findValue String_ sched searcher requests visitedTargets = Fulfilled entries →
  ∀ entry,
    entry ∈ entries ↔
    (∃ i request, requests !! i = Some request
                  ∧ foundInRequest String_ searcher i request entry)
    ∨ (∃ j target, visitedTargets !! j = Some target
                   ∧ foundInTarget String_ searcher requests j target entry).
Proof.
  intros ->%findValue_Fulfilled entry. unfold orderedFindings.
  by rewrite elem_of_app, elem_of_allRequestFindings, elem_of_visitedFindings.
Qed.

(** The indices of an entry select a request or a visited target of the
    collections that were searched. *)
Lemma findValue_indices requests visitedTargets entry :
  entry ∈ orderedFindings String_ searcher requests visitedTargets →
  (is_Some (index ← requestIndex entry; requests !! index)
   ∧ visitedTargetIndex entry = None)
  ∨ (requestIndex entry = None
     ∧ is_Some (index ← visitedTargetIndex entry; visitedTargets !! index)).
Proof.
  unfold orderedFindings.
  rewrite elem_of_app, elem_of_allRequestFindings, elem_of_visitedFindings.
  intros [(i & request & Hi & encoders & Hfound) | (j & target & Hj & encoders & _ & _ & ->)].
  - left. destruct Hfound as [[_ ->] | [(name & value & _ & _ & ->) | (body & _ & _ & _ & ->)]];
      cbn; rewrite Hi; eauto.
  - right. cbn. rewrite Hj. eauto.
Qed.

End FindValueCharacterisation.

Lemma findValue_entries_iff_witness :
  headerEntry 0 "x-id" ["uri"]
    ∈ orderedFindings id Examples.searcher Examples.okRequests Examples.okTargets
  ↔ (∃ i request, Examples.okRequests !! i = Some request
                  ∧ foundInRequest id Examples.searcher i request (headerEntry 0 "x-id" ["uri"]))
    ∨ (∃ j target, Examples.okTargets !! j = Some target
                   ∧ foundInTarget id Examples.searcher Examples.okRequests j target
                       (headerEntry 0 "x-id" ["uri"])).
Proof.
  apply (findValue_entries_iff id Examples.searcher (λ i, i)
           Examples.okRequests Examples.okTargets).
  vm_compute. reflexivity.
Defined.

(** ** Leaks found by [findValue], summarised by [getSummary] *)

Section FindValueSummary.

Context {Encoder : Type} (String_ : Encoder → string).
Context (searcher : ValueSearcher (Encoder := Encoder)).
Context (formatDuration secondsToFixed1 : number → string)
        (selectorStr : SelectorChain → string) (stackFrameFileRegex : RegExp).

Lemma findValue_resolves sched collectorData entries (leak : LeakedValue) :
  findValue String_ sched searcher (default [] (requests collectorData))
    (VisitedTarget.url <$> from_option FieldsData.visitedTargets [] (fields collectorData))
  = Fulfilled entries →
  findEntry leak ∈ entries →
  resolves collectorData leak = true.
Proof.
  intros ->%findValue_Fulfilled Hin%findValue_indices. unfold resolves.
  destruct (requestIndex leak) as [i|], (visitedTargetIndex leak) as [j|],
    (requests collectorData) as [rs|], (fields collectorData) as [fd|];
    cbn in *; destruct Hin as [[Hreq Hvis] | [Hreq Hvis]]; try done;
    try (by destruct Hreq); try (by destruct Hvis).
  all: rewrite ?list_lookup_fmap, ?fmap_is_Some in *.
  all: rewrite ?andb_true_iff, ?bool_decide_eq_true; auto.
Qed.

(** X3: [getSummary] returns a report whenever the leaks it is given are
    entries that [findValue] found in the requests and the visited targets
    of the same crawl, and every password leak carries a frame stack: the
    indices of such entries always select a request or a visited target. *)
Theorem getSummary_of_findValue sched output fieldsCollectorOptions entries leaks :
  findValue String_ sched searcher (default [] (requests (data (crawlResult output))))
    (VisitedTarget.url
       <$> from_option FieldsData.visitedTargets [] (fields (data (crawlResult output))))
  = Fulfilled entries →
  leakedValues output = Some leaks →
  Forall (λ leak : LeakedValue, findEntry leak ∈ entries) leaks →
  Forall (λ leak, hasFrameStack leak = true)
    (from_option FieldsData.passwordLeaks [] (fields (data (crawlResult output)))) →
  Forall (λ leak, resolves (data (crawlResult output)) leak = true) leaks
  ∧ ∃ report,
      getSummary formatDuration secondsToFixed1 selectorStr stackFrameFileRegex
        output fieldsCollectorOptions = inr report.
Proof.
  intros Hfind Hleaks Hfound Hstacks.
  assert (Hres : Forall (λ leak, resolves (data (crawlResult output)) leak = true) leaks).
  { eapply Forall_impl; [exact Hfound |]. intros leak Hin. by eapply findValue_resolves. }
  split; [done |].
  assert (Hwf : wellFormed output = true).
  { unfold wellFormed. rewrite Hleaks. apply andb_true_intro. split.
    - destruct (fields (data (crawlResult output))) as [fd|]; [| done].
      apply forallb_forall. intros leak Hin%list_elem_of_In.
      cbn in Hstacks. rewrite Forall_forall in Hstacks. by apply Hstacks.
    - apply forallb_forall. intros leak Hin%list_elem_of_In.
      rewrite Forall_forall in Hres. by apply Hres. }
  destruct (summarize_returns formatDuration secondsToFixed1 selectorStr
              stackFrameFileRegex output fieldsCollectorOptions Hwf)
    as (header & pw & written & calls & stats & Hsum & _).
  eexists. unfold getSummary. by rewrite Hsum.
Qed.

End FindValueSummary.

Lemma getSummary_of_findValue_witness :
  Forall (λ leak, resolves (data (crawlResult Scenarios.crawled)) leak = true)
    Scenarios.crawledLeaks
  ∧ ∃ report,
      getSummary Examples.formatDuration Examples.secondsToFixed1 Examples.selectorStr
        Examples.stackFrameFileRegex Scenarios.crawled Examples.fill = inr report.
Proof.
  apply (getSummary_of_findValue id Examples.searcher Examples.formatDuration
           Examples.secondsToFixed1 Examples.selectorStr Examples.stackFrameFileRegex
           (λ i, i) Scenarios.crawled Examples.fill Scenarios.crawledEntries).
  - vm_compute. reflexivity.
  - reflexivity.
  - apply Forall_fmap, Forall_forall. intros entry Hin. exact Hin.
  - constructor.
Defined.

(** ** Order and coverage of the groups *)

Section GroupOrder.

Context {A : Type} (groupFn : A → string).
Implicit Types (acc : list (string * list A)).

Lemma groupInsert_keys key item acc :
  (groupInsert key item acc).*1
  = if decide (key ∈ acc.*1) then acc.*1 else acc.*1 ++ [key].
Proof.
  induction acc as [|[k g] acc IH]; [done |].
  cbn [groupInsert fmap list_fmap fst]. destruct (decide (k = key)) as [-> | Hne].
  - rewrite decide_True by (cbn; left). done.
  - cbn [fmap list_fmap fst]. rewrite IH. destruct (decide (key ∈ acc.*1)) as [Hin | Hnot].
    + rewrite decide_True by (cbn; by right). done.
    + rewrite decide_False; [done |]. cbn. intros [? | ?]%elem_of_cons; congruence.
Qed.

Lemma foldl_groupInsert_keys acc items :
  (foldl (λ result item, groupInsert (groupFn item) item result) acc items).*1
  = acc.*1 ++ filter (λ k, k ∉ acc.*1) (firstOccurrences (groupFn <$> items)).
Proof.
  revert acc. induction items as [|item items IH]; intros acc.
  - cbn. by rewrite app_nil_r.
  - cbn [foldl fmap list_fmap firstOccurrences]. rewrite IH, groupInsert_keys.
    destruct (decide (groupFn item ∈ acc.*1)) as [Hin | Hnot].
    + rewrite filter_cons_False by (intros ?; done). f_equal.
      rewrite list_filter_filter. apply list_filter_iff. intros k.
      split; [| tauto]. intros Hk. split; [done |]. congruence.
    + rewrite filter_cons_True by done. rewrite <- app_assoc. cbn [app]. do 2 f_equal.
      rewrite list_filter_filter. apply list_filter_iff. intros k.
      rewrite elem_of_app, list_elem_of_singleton. tauto.
Qed.

Lemma filter_all {B} (P : B → Prop) `{∀ x, Decision (P x)} (l : list B) :
  (∀ x, P x) → filter P l = l.
Proof.
  intros HP. induction l as [|x l IH]; [done |].
  rewrite filter_cons_True by done. by f_equal.
Qed.

Lemma groupBy_keys items :
  (groupBy groupFn items).*1 = firstOccurrences (groupFn <$> items).
Proof.
  unfold groupBy. rewrite foldl_groupInsert_keys. cbn [fmap list_fmap app].
  apply filter_all. intros k. apply not_elem_of_nil.
Qed.

Lemma groupInsert_members key item acc :
  mjoin (groupInsert key item acc).*2 ≡ₚ mjoin acc.*2 ++ [item].
Proof.
  induction acc as [|[k g] acc IH]; [done |].
  cbn [groupInsert]. destruct (decide (k = key)) as [-> | Hne]; cbn.
  - rewrite <- !app_assoc. apply Permutation_app_head, Permutation_app_comm.
  - rewrite IH. by rewrite app_assoc.
Qed.

Lemma groupBy_members items : mjoin (groupBy groupFn items).*2 ≡ₚ items.
Proof.
  induction items as [|item items IH] using rev_ind; [done |].
  by rewrite groupBy_snoc, groupInsert_members, IH.
Qed.

End GroupOrder.

Section FieldValueGroups.

Context (selectorStr : SelectorChain → string) (fieldsCollectorOptions : FillOptions).

(** X6: the groups of the field value reads come in the order in which their
    keys first occur in the log, and each group holds the reads of its key,
    all of them and in log order. *)
Theorem fieldValueGroups_first_occurrence savedCalls :
  (fieldValueGroups selectorStr fieldsCollectorOptions savedCalls).*1
  = firstOccurrences
      (groupKey selectorStr <$> fieldValueReads fieldsCollectorOptions savedCalls)
  ∧ Forall (λ '(key, group),
              group = filter (λ call, groupKey selectorStr call = key)
                        (fieldValueReads fieldsCollectorOptions savedCalls)
              ∧ group ≠ [])
      (fieldValueGroups selectorStr fieldsCollectorOptions savedCalls).
Proof.
  unfold fieldValueGroups. split; [apply groupBy_keys |].
  apply Forall_forall. intros [key group] Hin.
  by apply (proj2 (groupBy_groups _ _)) in Hin.
Qed.

(** X7: [fieldValueCalls] never throws, and the time stamps it attaches to
    the groups are those of the reads of a filled-in value, each read counted
    once; no group is without a time stamp. *)
Theorem fieldValueCalls_times savedCalls :
  ∃ calls,
    fieldValueCalls selectorStr fieldsCollectorOptions savedCalls = pure calls
    ∧ mjoin calls.*2
      ≡ₚ (λ call, SavedCallEx.time (SavedCallEx.custom call))
         <$> fieldValueReads fieldsCollectorOptions savedCalls
    ∧ Forall (λ '(_, times), times ≠ []) calls.
Proof.
  destruct (fieldValueCalls_returns selectorStr fieldsCollectorOptions savedCalls)
    as [calls Hcalls].
  exists calls. split; [done |].
  unfold fieldValueCalls in Hcalls. apply mapR_inv in Hcalls.
  pose proof (groupBy_nonempty (groupKey selectorStr)
                (fieldValueReads fieldsCollectorOptions savedCalls)) as Hne.
  pose proof (groupBy_members (groupKey selectorStr)
                (fieldValueReads fieldsCollectorOptions savedCalls)) as Hmem.
  fold (fieldValueGroups selectorStr fieldsCollectorOptions savedCalls) in Hne, Hmem.
  set (stamp := λ call, SavedCallEx.time (SavedCallEx.custom call)) in *.
  assert (Hshape : calls.*2
                   = (λ group : list SavedCallEx.t, stamp <$> group)
                     <$> (fieldValueGroups selectorStr fieldsCollectorOptions savedCalls).*2
                   ∧ Forall (λ '(_, times), times ≠ []) calls).
  { clear Hmem. induction Hcalls as [|[key group] [call times] groups calls [out Hcall] _ IH].
    - split; [done | constructor].
    - apply Forall_cons in Hne as [Hgroup Hne]. destruct (IH Hne) as [IH1 IH2].
      destruct group as [|first group]; [done |].
      cbn in Hcall. injection Hcall as <- <- _.
      split; [cbn; by f_equal | by constructor]. }
  destruct Hshape as [Hshape Hnonempty]. split; [| done].
  rewrite Hshape, <- Hmem. clear.
  induction (fieldValueGroups selectorStr fieldsCollectorOptions savedCalls).*2
    as [|g gs IH]; [done |].
  cbn. by rewrite fmap_app, IH.
Qed.

End FieldValueGroups.

(** ** The displayed frames in general *)

Section DisplayedFrames.

Context (regex : RegExp).

Lemma displayStep_length displayed prevFile entry :
  length (displayStep regex (displayed, prevFile) entry).1 = S (length displayed).
Proof.
  unfold displayStep. destruct entry as [frame info].
  destruct (String_replace frame regex _ prevFile) as [displayFrame prevFile'].
  cbn. rewrite length_app. cbn. lia.
Qed.

Lemma displayLoop_length entries : length (displayLoop regex entries).1 = length entries.
Proof.
  induction entries as [|entry entries IH]; [done |].
  rewrite displayLoop_cons. destruct (displayLoop regex entries) as [displayed prevFile].
  rewrite displayStep_length. cbn in *. by rewrite IH.
Qed.

(** X8: one line is displayed per frame that has an entry in [stackInfo]:
    [zip] cuts the longer of the two arrays, so the frames of [stack] beyond
    the length of [stackInfo] are not displayed. *)
Theorem displayFrames_length call :
  length (displayFrames regex call)
  = Nat.min (length (stack_ call)) (length (stackInfo call)).
Proof.
  unfold displayFrames. by rewrite length_reverse, displayLoop_length, length_zip_with.
Qed.

Lemma displayStep_unmatched displayed prevFile frame info :
  regex frame = [Text frame] →
  displayStep regex (displayed, prevFile) (frame, info) = (displayed ++ [frame], prevFile).
Proof.
  intros Hregex. unfold displayStep, String_replace. rewrite Hregex.
  cbn [replaceChunks]. by rewrite append_empty_r.
Qed.

Lemma displayLoop_parsed frames :
  Forall (parsedBy regex) frames →
  displayLoop regex ((λ frame, (frameText frame, frameInfo frame)) <$> frames)
  = (reverse (compressed frames), fileBelow frames).
Proof.
  induction 1 as [|frame below Hframe _ IH]; [done |].
  rewrite fmap_cons, displayLoop_cons, IH. unfold parsedBy in Hframe.
  cbn [compressed fileBelow]. rewrite reverse_cons.
  destruct (fileMatch frame) as [[[before file] after]|].
  - by rewrite (displayStep_one_match _ _ _ _ _ _ _ _ Hframe).
  - by rewrite (displayStep_unmatched _ _ _ _ Hframe).
Qed.

(** X9: the displayed frames, whatever the length of the stack: a frame in
    which the pattern finds no file is displayed as it is; a frame with a
    file is displayed with the marker when the nearest frame with a file
    further down the array has the same file, and with its classification and
    file otherwise.  In particular the last frame with a file of a run of
    frames of one file is the one that shows the file. *)
Theorem displayFrames_compressed call frames :
  Forall (parsedBy regex) frames →
  stack_ call = frameText <$> frames →
  stackInfo call = frameInfo <$> frames →
  displayFrames regex call = compressed frames.
Proof.
  intros Hparsed Hstack Hinfo. unfold displayFrames. rewrite Hstack, Hinfo.
  replace (zip (frameText <$> frames) (frameInfo <$> frames))
    with ((λ frame, (frameText frame, frameInfo frame)) <$> frames).
  - rewrite displayLoop_parsed by done. apply reverse_involutive.
  - clear. induction frames as [|frame frames IH]; [done |]. cbn. by f_equal.
Qed.

End DisplayedFrames.

Lemma displayFrames_compressed_witness :
  displayFrames Examples.stackFrameFileRegex Scenarios.parsedCall
  = compressed Scenarios.parsedFrames.
Proof.
  apply (displayFrames_compressed Examples.stackFrameFileRegex
           Scenarios.parsedCall Scenarios.parsedFrames).
  - repeat (constructor; [vm_compute; reflexivity |]). constructor.
  - reflexivity.
  - reflexivity.
Defined.

(** The frame without a file does not end the run of frames of [a.js]. *)
Lemma compressed_parsedFrames :
  compressed Scenarios.parsedFrames
  = ["at f (↓:1:2)"; "<anonymous>"; "at g (third party a.js:3:4)"; "at k (b.js:7:8)"].
Proof. by vm_compute. Qed.

(** ** What the report says about the leaks *)

Lemma bind_inv {A B} (m : Report A) (f : A → Report B) b out :
  bind m f = inr (b, out) →
  ∃ a out1 out2, m = inr (a, out1) ∧ f a = inr (b, out2) ∧ out = out1 ++ out2.
Proof.
  unfold bind. destruct m as [e | [a out1]]; [done |].
  destruct (f a) as [e | [b' out2]] eqn:E; [done |].
  intros [= <- <-]. by exists a, out1, out2.
Qed.

Lemma seq_inv (m k : Report unit) out :
  (m ;; k) = inr ((), out) →
  ∃ out1 out2, m = inr ((), out1) ∧ k = inr ((), out2) ∧ out = out1 ++ out2.
Proof.
  intros H. change (bind m (λ _, k) = inr ((), out)) in H.
  apply bind_inv in H as ([] & out1 & out2 & ? & ? & ?). eauto.
Qed.

Lemma forOf_pushed {A} (xs : list A) (body : A → Report unit) out x :
  forOf xs body = inr ((), out) → x ∈ xs →
  ∃ out', body x = inr ((), out') ∧ out' ⊆ out.
Proof.
  revert out. induction xs as [|y xs IH]; intros out; [by intros _ ?%elem_of_nil |].
  cbn [forOf]. intros (out1 & out2 & Hy & Hxs & ->)%seq_inv [-> | Hin]%elem_of_cons.
  - exists out1. split; [done |]. intros s Hs. apply elem_of_app. by left.
  - destruct (IH out2 Hxs Hin) as (out' & Hbody & Hsub). exists out'. split; [done |].
    intros s Hs. apply elem_of_app. right. by apply Hsub.
Qed.

Lemma concat_contains (strings : list string) s :
  s ∈ strings → contains (String.concat "" strings) s.
Proof.
  intros (l1 & l2 & ->)%list_elem_of_split.
  apply (contains_pushed l1 [s] l2).
Qed.

Section Mentions.

Context (formatDuration secondsToFixed1 : number → string)
        (selectorStr : SelectorChain → string) (stackFrameFileRegex : RegExp).
Context (output : OutputFile) (fieldsCollectorOptions : FillOptions).

Lemma writeLeak_pushed leak out :
  writeLeak secondsToFixed1 output leak = inr ((), out) →
  ∃ phrase, leakPhrase leak = Some phrase ∧ phrase ∈ out.
Proof.
  unfold writeLeak, leakPhrase.
  intros (reqTime & out0 & out1 & _ & (out2 & out3 & _ & Hrest & ->)%seq_inv & ->)%bind_inv.
  destruct (request leak) as [request|].
  - apply seq_inv in Hrest as (out4 & out5 & [= <-] & _ & ->).
    eexists. split; [done |]. rewrite !elem_of_app. right. right. left. left.
  - destruct (visitedTarget leak) as [visitedTarget|]; [| done].
    cbn [deref] in Hrest. rewrite bind_pure_l in Hrest.
    rewrite writeln_line in Hrest by done. injection Hrest as <-.
    eexists. split; [done |]. rewrite !elem_of_app. right. right. left.
Qed.

(** X5: the report has, for every leak that passes the filter, the phrase
    that says where the leak was sent: the classification and the URL of its
    request or, for a leak without a request, of its visited target.  No
    rendered leak is left out of the text. *)
Theorem getSummary_mentions_leaks report leaks annotatedLeaks domainInfo rendered :
  getSummary formatDuration secondsToFixed1 selectorStr stackFrameFileRegex
    output fieldsCollectorOptions = inr report →
  leakedValues output = Some leaks →
  mapR (annotate (data (crawlResult output))) leaks = pure annotatedLeaks →
  hasDomainInfo annotatedLeaks = pure domainInfo →
  importantLeaks domainInfo annotatedLeaks = pure rendered →
  Forall (λ leak, ∃ phrase, leakPhrase leak = Some phrase ∧ contains report phrase) rendered.
Proof.
  intros Hreport Hleaks Hannotated Hdomain Hrendered.
  apply Forall_forall. intros leak Hleak.
  unfold getSummary in Hreport.
  destruct (summarize _ _ _ _ _ _) as [e | [[] strings]] eqn:Hsum; [done |].
  injection Hreport as <-. unfold summarize in Hsum.
  apply seq_inv in Hsum as (out1 & rest1 & _ & Hsum & ->).
  apply seq_inv in Hsum as (out2 & rest2 & _ & Hsum & ->).
  apply seq_inv in Hsum as (out3 & rest3 & _ & Hsum & ->).
  apply seq_inv in Hsum as (out4 & rest4 & Hwritten & _ & ->).
  unfold writeLeaks in Hwritten.
  rewrite Hleaks, Hannotated, bind_pure_l, Hdomain, bind_pure_l, Hrendered, bind_pure_l
    in Hwritten.
  destruct rendered as [|first others] eqn:E; [by apply elem_of_nil in Hleak |].
  rewrite <- E in *. clear E.
  apply seq_inv in Hwritten as (out5 & rest5 & _ & Hwritten & ->).
  apply seq_inv in Hwritten as (out6 & out7 & Hloop & _ & ->).
  destruct (forOf_pushed _ _ _ _ Hloop Hleak) as (out' & Hbody & Hsub).
  apply writeLeak_pushed in Hbody as (phrase & Hphrase & Hin).
  exists phrase. split; [done |]. apply concat_contains.
  rewrite !elem_of_app. right. right. right. left. right. left. by apply Hsub.
Qed.

End Mentions.

Lemma getSummary_mentions_leaks_witness :
  Forall (λ leak, ∃ phrase, leakPhrase leak = Some phrase
                            ∧ contains Scenarios.classifiedReport phrase)
    (filter (λ leak, important leak) Examples.classifiedLeaks).
Proof.
  apply (getSummary_mentions_leaks Examples.formatDuration Examples.secondsToFixed1
           Examples.selectorStr Examples.stackFrameFileRegex
           Scenarios.classifiedOutput Examples.fill Scenarios.classifiedReport
           [Examples.urlLeak 0; Examples.urlLeak 1] Examples.classifiedLeaks true).
  - vm_compute. reflexivity.
  - reflexivity.
  - reflexivity.
  - vm_compute. reflexivity.
  - vm_compute. reflexivity.
Defined.

(** ** Which leaks the report renders *)

Lemma forOf_lines {A} (xs : list A) (body : A → Report unit) :
  (∀ x, x ∈ xs → ∃ out, body x = inr ((), out)) →
  forOf xs body
  = inr ((), flat_map (λ x, match body x with inr (_, out) => out | inl _ => [] end) xs).
Proof.
  induction xs as [|x xs IH]; intros Hbody; [done |].
  cbn [forOf flat_map]. apply seq_returns.
  - destruct (Hbody x) as [out Hx]; [by left |]. by rewrite Hx.
  - apply IH. intros y Hy. apply Hbody. by right.
Qed.

Lemma annotate_leak collectorData leaked annotated out :
  annotate collectorData leaked = inr (annotated, out) → leak annotated = leaked.
Proof.
  unfold annotate.
  destruct (requestIndex leaked) as [i|], (visitedTargetIndex leaked) as [j|],
    (requests collectorData) as [rs|], (fields collectorData) as [fd|]; cbn; try done.
  all: by intros [= <- _].
Qed.

Lemma mapR_annotate_leaks collectorData leaks annotatedLeaks out :
  mapR (annotate collectorData) leaks = inr (annotatedLeaks, out) →
  leak <$> annotatedLeaks = leaks.
Proof.
  intros Hmap%mapR_inv.
  induction Hmap as [|leaked annotated leaks annotatedLeaks [o Ha] _ IH]; [done |].
  rewrite fmap_cons. f_equal; [by eapply annotate_leak | exact IH].
Qed.

Section Rendered.

Context (formatDuration secondsToFixed1 : number → string)
        (selectorStr : SelectorChain → string) (stackFrameFileRegex : RegExp).
Context (output : OutputFile) (fieldsCollectorOptions : FillOptions).

(** What [writeLeaks] pushes when every leak resolves. *)
Lemma writeLeaks_section leaks :
  leakedValues output = Some leaks →
  forallb (resolves (data (crawlResult output))) leaks = true →
  ∃ annotatedLeaks,
    mapR (annotate (data (crawlResult output))) leaks = pure annotatedLeaks
    ∧ writeLeaks secondsToFixed1 output (data (crawlResult output))
      = inr ((), leaksSection secondsToFixed1 output (firstClassified annotatedLeaks) leaks
                   (if firstClassified annotatedLeaks
                    then filter (λ leak, important leak) annotatedLeaks
                    else annotatedLeaks)).
Proof.
  intros Hleaks Hres. unfold writeLeaks. rewrite Hleaks.
  destruct (mapR_returns (annotate (data (crawlResult output)))
              (λ annotated, is_Some (location annotated)) leaks)
    as (annotatedLeaks & Hmap & Hloc).
  { intros leak Hleak. by eapply annotate_resolves, forallb_elem_of. }
  exists annotatedLeaks. split; [done |]. rewrite Hmap, bind_pure_l.
  destruct (importantLeaks_by_first_leak _ Hloc) as [Hdomain Himportant].
  rewrite Hdomain, bind_pure_l, Himportant, bind_pure_l.
  set (rendered := if firstClassified annotatedLeaks then _ else _).
  assert (Hrendered : Forall (λ leak, is_Some (location leak)) rendered).
  { subst rendered. destruct (firstClassified annotatedLeaks); [| done].
    apply Forall_forall. intros leak [_ Hleak]%list_elem_of_filter.
    rewrite Forall_forall in Hloc. auto. }
  clearbody rendered. destruct rendered as [|first others].
  - cbn [leaksSection]. by apply writeln_line.
  - cbn [leaksSection]. apply seq_returns; [by apply writeln_line |].
    apply seq_returns; [| done]. unfold leakLines. apply forOf_lines.
    intros leak Hleak. apply writeLeak_returns. rewrite Forall_forall in Hrendered. auto.
Qed.

(** The strings pushed around the section of the leaks. *)
Lemma summarize_section leaks :
  wellFormed output = true →
  leakedValues output = Some leaks →
  ∃ annotatedLeaks before after,
    mapR (annotate (data (crawlResult output))) leaks = pure annotatedLeaks
    ∧ writeLeaks secondsToFixed1 output (data (crawlResult output))
      = inr ((), leaksSection secondsToFixed1 output (firstClassified annotatedLeaks) leaks
                   (if firstClassified annotatedLeaks
                    then filter (λ leak, important leak) annotatedLeaks
                    else annotatedLeaks))
    ∧ summarize formatDuration secondsToFixed1 selectorStr stackFrameFileRegex
        output fieldsCollectorOptions
      = inr ((), before
                 ++ leaksSection secondsToFixed1 output (firstClassified annotatedLeaks) leaks
                      (if firstClassified annotatedLeaks
                       then filter (λ leak, important leak) annotatedLeaks
                       else annotatedLeaks)
                 ++ after).
Proof.
  intros Hwf Hleaks. pose proof Hwf as Hwf'.
  unfold wellFormed in Hwf'. apply andb_true_iff in Hwf' as [Hstacks Hres].
  rewrite Hleaks in Hres.
  destruct (writeLeaks_section leaks Hleaks Hres) as (annotatedLeaks & Hmap & Hwritten).
  destruct writeHeader_returns with (formatDuration := formatDuration) (output := output)
    as [header Hheader].
  destruct (writePasswordLeaks_returns secondsToFixed1 selectorStr output
              (fields (data (crawlResult output)))) as (pw & Hpw & _).
  { intros fd Hfd. by rewrite Hfd in Hstacks. }
  destruct (writeFieldValueCalls_returns secondsToFixed1 selectorStr stackFrameFileRegex
              output fieldsCollectorOptions (data (crawlResult output))) as [calls Hcalls].
  destruct (writeStatistics_returns (fields (data (crawlResult output)))) as [stats Hstats].
  set (warning := match requests (data (crawlResult output)) with
                  | None => ["⚠️ No request collector data found"; LF]
                  | Some _ => []
                  end).
  exists annotatedLeaks, (header ++ pw ++ warning), (calls ++ stats).
  split; [done |]. split; [done |].
  rewrite <- !app_assoc.
  unfold summarize. repeat apply seq_returns; try done.
  subst warning. by destruct (requests (data (crawlResult output))).
Qed.

(** C2 (as amended): classification is taken to be available exactly when
    the first resolved leak location carries a defined [thirdParty].  On an
    input that meets the contract of [getSummary], the section of the leaks in
    the report it returns has the lines of exactly the leaks whose location
    has [thirdParty === true] or [tracker === true] when the first leak is
    classified, and the lines of every leak when there is no leak or the first
    one is not classified; these strings are what [writeLeaks] pushes, and
    they stand in the report between what is written before and after. *)
Theorem getSummary_renders_by_first_leak leaks :
  wellFormed output = true →
  leakedValues output = Some leaks →
  ∃ annotatedLeaks before after,
    mapR (annotate (data (crawlResult output))) leaks = pure annotatedLeaks
    ∧ writeLeaks secondsToFixed1 output (data (crawlResult output))
      = inr ((), leaksSection secondsToFixed1 output (firstClassified annotatedLeaks) leaks
                   (if firstClassified annotatedLeaks
                    then filter (λ leak, important leak) annotatedLeaks
                    else annotatedLeaks))
    ∧ getSummary formatDuration secondsToFixed1 selectorStr stackFrameFileRegex
        output fieldsCollectorOptions
      = inr (String.concat ""
               (before
                ++ leaksSection secondsToFixed1 output (firstClassified annotatedLeaks) leaks
                     (if firstClassified annotatedLeaks
                      then filter (λ leak, important leak) annotatedLeaks
                      else annotatedLeaks)
                ++ after)).
Proof.
  intros Hwf Hleaks.
  destruct (summarize_section leaks Hwf Hleaks)
    as (annotatedLeaks & before & after & Hmap & Hwritten & Hsum).
  exists annotatedLeaks, before, after. split_and!; [done | done |].
  unfold getSummary. by rewrite Hsum.
Qed.

(** X4: the leaks [getSummary] renders are leaks of [output.leakedValues],
    in the order they have there: the annotated leaks are the leaked values
    in place, the rendered leaks are a subsequence of them, and the section of
    the leaks in the report has the lines of the rendered leaks one after the
    other in that order. *)
Theorem getSummary_renders_in_order leaks :
  wellFormed output = true →
  leakedValues output = Some leaks →
  ∃ annotatedLeaks rendered domainInfo before after,
    mapR (annotate (data (crawlResult output))) leaks = pure annotatedLeaks
    ∧ leak <$> annotatedLeaks = leaks
    ∧ rendered `sublist_of` annotatedLeaks
    ∧ writeLeaks secondsToFixed1 output (data (crawlResult output))
      = inr ((), leaksSection secondsToFixed1 output domainInfo leaks rendered)
    ∧ getSummary formatDuration secondsToFixed1 selectorStr stackFrameFileRegex
        output fieldsCollectorOptions
      = inr (String.concat ""
               (before ++ leaksSection secondsToFixed1 output domainInfo leaks rendered
                ++ after)).
Proof.
  intros Hwf Hleaks.
  destruct (summarize_section leaks Hwf Hleaks)
    as (annotatedLeaks & before & after & Hmap & Hwritten & Hsum).
  exists annotatedLeaks,
    (if firstClassified annotatedLeaks
     then filter (λ leak, important leak) annotatedLeaks else annotatedLeaks),
    (firstClassified annotatedLeaks), before, after.
  split_and!; [done | by eapply mapR_annotate_leaks | | done |].
  - destruct (firstClassified annotatedLeaks); [apply sublist_filter | done].
  - unfold getSummary. by rewrite Hsum.
Qed.

End Rendered.

Lemma getSummary_renders_by_first_leak_witness :
  ∃ annotatedLeaks before after,
    mapR (annotate (data (crawlResult Scenarios.classifiedOutput)))
      [Examples.urlLeak 0; Examples.urlLeak 1] = pure annotatedLeaks
    ∧ writeLeaks Examples.secondsToFixed1 Scenarios.classifiedOutput
        (data (crawlResult Scenarios.classifiedOutput))
      = inr ((), leaksSection Examples.secondsToFixed1 Scenarios.classifiedOutput
                   (firstClassified annotatedLeaks) [Examples.urlLeak 0; Examples.urlLeak 1]
                   (if firstClassified annotatedLeaks
                    then filter (λ leak, important leak) annotatedLeaks
                    else annotatedLeaks))
    ∧ getSummary Examples.formatDuration Examples.secondsToFixed1 Examples.selectorStr
        Examples.stackFrameFileRegex Scenarios.classifiedOutput Examples.fill
      = inr (String.concat ""
               (before
                ++ leaksSection Examples.secondsToFixed1 Scenarios.classifiedOutput
                     (firstClassified annotatedLeaks) [Examples.urlLeak 0; Examples.urlLeak 1]
                     (if firstClassified annotatedLeaks
                      then filter (λ leak, important leak) annotatedLeaks
                      else annotatedLeaks)
                ++ after)).
Proof.
  apply (getSummary_renders_by_first_leak Examples.formatDuration Examples.secondsToFixed1
           Examples.selectorStr Examples.stackFrameFileRegex
           Scenarios.classifiedOutput Examples.fill [Examples.urlLeak 0; Examples.urlLeak 1]).
  - vm_compute. reflexivity.
  - reflexivity.
Defined.

Lemma getSummary_renders_in_order_witness :
  ∃ annotatedLeaks rendered domainInfo before after,
    mapR (annotate (data (crawlResult Scenarios.classifiedOutput)))
      [Examples.urlLeak 0; Examples.urlLeak 1] = pure annotatedLeaks
    ∧ leak <$> annotatedLeaks = [Examples.urlLeak 0; Examples.urlLeak 1]
    ∧ rendered `sublist_of` annotatedLeaks
    ∧ writeLeaks Examples.secondsToFixed1 Scenarios.classifiedOutput
        (data (crawlResult Scenarios.classifiedOutput))
      = inr ((), leaksSection Examples.secondsToFixed1 Scenarios.classifiedOutput
                   domainInfo [Examples.urlLeak 0; Examples.urlLeak 1] rendered)
    ∧ getSummary Examples.formatDuration Examples.secondsToFixed1 Examples.selectorStr
        Examples.stackFrameFileRegex Scenarios.classifiedOutput Examples.fill
      = inr (String.concat ""
               (before
                ++ leaksSection Examples.secondsToFixed1 Scenarios.classifiedOutput
                     domainInfo [Examples.urlLeak 0; Examples.urlLeak 1] rendered
                ++ after)).
Proof.
  apply (getSummary_renders_in_order Examples.formatDuration Examples.secondsToFixed1
           Examples.selectorStr Examples.stackFrameFileRegex
           Scenarios.classifiedOutput Examples.fill [Examples.urlLeak 0; Examples.urlLeak 1]).
  - vm_compute. reflexivity.
  - reflexivity.
Defined.

(** ** Further properties of the query handler *)

Lemma filter_flat_map {A B} (P : B → Prop) `{∀ x, Decision (P x)} (f : A → list B)
    (l : list A) :
  filter P (flat_map f l) = flat_map (λ x, filter P (f x)) l.
Proof. induction l as [|x l IH]; [done |]. cbn. by rewrite filter_app, IH. Qed.

Section QueryFacts.

Local Open Scope nat_scope.

Context (matches : Element → string → bool) (selector : string).

Lemma pierce_filter e :
  pierce matches selector e
  = filter (λ x, matches x selector = true) (pierce (λ _ _, true) "" e).
Proof.
  induction e as [id shadow kids IHs IHk] using Element_nested_ind.
  cbn [pierce]. rewrite !filter_app, !filter_flat_map. f_equal; [| f_equal].
  - cbn. by destruct (matches (mkElement id shadow kids) selector).
  - destruct shadow as [nodeShadow|]; [| done].
    rewrite filter_flat_map. by apply flat_map_ext_Forall.
  - by apply flat_map_ext_Forall.
Qed.

Lemma pierceAll_filter node :
  pierceAll matches selector node
  = filter (λ x, matches x selector = true) (everyElement node).
Proof.
  unfold everyElement, pierceAll. rewrite filter_app, filter_flat_map. f_equal.
  - destruct node as [e | cs]; [| done]. unfold pierceShadow.
    destruct (shadowRoot e) as [nodeShadow|]; [| done].
    rewrite filter_flat_map. apply flat_map_ext_Forall, Forall_forall.
    intros c _. apply pierce_filter.
  - apply flat_map_ext_Forall, Forall_forall. intros c _. apply pierce_filter.
Qed.

(** X12: the result of [queryAll] for a selector is cut out of one enumeration
    of the elements below the node, the same for every selector: it has the
    elements of that enumeration that match, in the same relative order. *)
Theorem queryAll_filter node :
  queryAll matches node selector
  = filter (λ e, matches e selector = true) (queryAll (λ _ _, true) node "").
Proof. rewrite !queryAll_pierceAll. apply pierceAll_filter. Qed.

(** X13: where distinct elements have distinct identities, [queryAll] returns
    no element twice. *)
Theorem queryAll_NoDup node :
  uniqueIds node → NoDup (queryAll matches node selector).
Proof.
  unfold uniqueIds. intros Hids%NoDup_fmap_1.
  rewrite queryAll_pierceAll, pierceAll_filter. by apply NoDup_filter.
Qed.

Lemma elementSize_elem (cs : list Element) c :
  c ∈ cs → elementSize c ≤ foldr (λ c n, elementSize c + n) 0 cs.
Proof. induction 1 as [c cs | c c' cs _ IH]; cbn [foldr]; lia. Qed.

Lemma reaches_size p x : reaches p x → elementSize x < elementSize p.
Proof.
  induction 1 as [p e Hc | p nodeShadow e Hs He | p m e _ IH1 _ IH2]; [| | lia].
  - destruct p as [id shadow kids]. cbn [children] in Hc. cbn [elementSize].
    apply elementSize_elem in Hc. lia.
  - destruct p as [id shadow kids]. cbn [shadowRoot] in Hs. subst shadow.
    cbn [elementSize]. apply elementSize_elem in He. lia.
Qed.

(** X14: [queryAll] on an element never returns the element itself, whether
    it matches the selector or not: only what is below it is examined. *)
Theorem queryAll_excludes_root e :
  e ∉ queryAll matches (ElementNode e) selector.
Proof.
  rewrite queryAll_pierceAll. intros [Hreach _]%elem_of_pierceAll.
  cbn [reachesFrom] in Hreach. apply reaches_size in Hreach. lia.
Qed.

Lemma shadowDepth_0 e : shadowDepth e = 0 → shadowRoot e = None.
Proof.
  destruct e as [id shadow kids]. cbn [shadowDepth shadowRoot].
  destruct shadow; [lia | done].
Qed.

(** X15: below a node without any shadow root [queryAll] returns the matching
    elements the tree walker visits, in document order. *)
Theorem queryAll_light node :
  shadowDepthOf node = 0 →
  queryAll matches node selector
  = filter (λ e, matches e selector = true) (createTreeWalker node).
Proof.
  intros Hdepth. rewrite queryAll_pierceAll. unfold pierceAll.
  rewrite <- (visit_createTreeWalker matches selector node).
  assert (Hroot : match node with
                  | ElementNode e => pierceShadow matches selector e
                  | FragmentNode _ => []
                  end = []).
  { destruct node as [e | cs]; [| done]. unfold pierceShadow.
    by rewrite (shadowDepth_0 e Hdepth). }
  rewrite Hroot. cbn [app].
  assert (Hwalk : Forall (λ child, shadowRoot child = None) (createTreeWalker node)).
  { apply Forall_forall. intros child Hchild%shadowDepth_createTreeWalker.
    apply shadowDepth_0. lia. }
  induction Hwalk as [|child iter Hchild _ IH]; [done |].
  cbn [flat_map]. rewrite IH. unfold pierceShadow. rewrite Hchild, app_nil_r.
  destruct (matches child selector) eqn:Hm.
  - by rewrite filter_cons_True.
  - rewrite filter_cons_False; [done |]. by rewrite Hm.
Qed.

(** X16: [queryOne] returns a matching element below the node, and [null]
    exactly when no element reachable through light children and open shadow
    roots matches. *)
Theorem queryOne_found node :
  (∀ e, queryOne matches node selector = Some e
        → reachesFrom node e ∧ matches e selector = true)
  ∧ (queryOne matches node selector = None
     ↔ ∀ e, reachesFrom node e → matches e selector = false).
Proof.
  assert (Hone : queryOne matches node selector = head (pierceAll matches selector node)).
  { unfold queryOne. by rewrite examineChildrenFirst_fuel by lia. }
  rewrite Hone. split.
  - intros e He. apply elem_of_pierceAll.
    destruct (pierceAll matches selector node) as [|x l]; [done |].
    injection He as ->. left.
  - split.
    + intros Hnone e Hreach. destruct (matches e selector) eqn:Hm; [| done].
      assert (Hin : e ∈ pierceAll matches selector node) by by apply elem_of_pierceAll.
      destruct (pierceAll matches selector node); [by apply elem_of_nil in Hin | done].
    + intros Hall. destruct (pierceAll matches selector node) as [|x l] eqn:E; [done |].
      assert (Hin : x ∈ pierceAll matches selector node) by (rewrite E; left).
      apply elem_of_pierceAll in Hin as [Hreach Hm]. by rewrite (Hall x Hreach) in Hm.
Qed.

End QueryFacts.

Lemma queryAll_NoDup_witness : NoDup (queryAll Examples.matchesId Examples.page "#3").
Proof.
  apply (queryAll_NoDup Examples.matchesId "#3" Examples.page).
  unfold uniqueIds. apply (bool_decide_unpack _). vm_compute. exact I.
Defined.

Lemma queryAll_light_witness :
  queryAll Examples.matchesId Scenarios.lightPage "#3"
  = filter (λ e, Examples.matchesId e "#3" = true) (createTreeWalker Scenarios.lightPage).
Proof.
  apply (queryAll_light Examples.matchesId "#3" Scenarios.lightPage). reflexivity.
Defined.

(** ** Further properties of [unwrapHandleEx] *)

Lemma all_Rejected_inv {A} sched (ps : list (Settled A)) reason :
  all sched ps = Rejected reason → Rejected reason ∈ ps.
Proof.
  unfold all. destruct (earliest sched 0 ps None) as [[t e]|] eqn:E; [| done].
  intros [= <-]. by destruct (earliest_reason _ _ _ _ _ _ E).
Qed.

Lemma elem_of_values {A} (ps : list (Settled A)) v :
  v ∈ values ps ↔ Fulfilled v ∈ ps.
Proof.
  induction ps as [|[a|e] ps IH]; cbn [values].
  - by rewrite !elem_of_nil.
  - rewrite !elem_of_cons, IH. split; intros [? | ?]; simplify_eq; auto.
  - rewrite elem_of_cons, IH. split; [auto |]. by intros [? | ?].
Qed.

Lemma elem_of_setProperty {A} key (value : A) obj k v :
  (k, v) ∈ setProperty key value obj → (k, v) = (key, value) ∨ (k, v) ∈ obj.
Proof.
  induction obj as [|[k' v'] obj IH]; cbn [setProperty].
  - intros ?%list_elem_of_singleton. by left.
  - destruct (decide (k' = key)) as [-> | Hne].
    + intros [? | ?]%elem_of_cons; [by left | right; by right].
    + intros [? | Hin]%elem_of_cons; [right; simplify_eq; left |].
      destruct (IH Hin); [by left | right; by right].
Qed.

Lemma elem_of_fromEntries {A} (entries : list (string * A)) k v :
  (k, v) ∈ Object_fromEntries entries → (k, v) ∈ entries.
Proof.
  unfold Object_fromEntries.
  assert (Hgen : ∀ obj, (k, v) ∈ foldl (λ obj '(k, v), setProperty k v obj) obj entries →
                        (k, v) ∈ obj ∨ (k, v) ∈ entries).
  { induction entries as [|[k' v'] entries IH]; intros obj; cbn [foldl]; [by left |].
    intros [[-> | Hin]%elem_of_setProperty | Hin]%IH.
    - right. left.
    - by left.
    - right. by right. }
  intros [Hin%elem_of_nil | Hin]%Hgen; done.
Qed.

Section UnwrapInvariants.

Context (sched : nat → nat).

(** X17: whatever [unwrapHandleEx] leaves as a handle inside the value it
    returns is a function, a symbol, an object or proxy of a class that the
    policy refuses, or an object of a subtype other than [null] and [array]:
    no handle to a primitive and no handle to an object the policy accepts is
    left wrapped, at any depth. *)
Theorem unwrapHandleEx_keptWrapped (shouldUnwrap : string → bool) handle unwrapped :
  unwrapHandleEx sched handle (Some shouldUnwrap) = Fulfilled unwrapped →
  Forall (keptWrapped shouldUnwrap) (wrappedHandles unwrapped).
Proof.
  revert unwrapped. induction handle as [ro props json IH] using JSHandle_nested_ind.
  intros unwrapped. cbn [unwrapHandleEx default from_option id].
  destruct (bool_decide (remoteType ro ∈ ["function"; "symbol"])) eqn:Hfun.
  { intros [= <-]. apply bool_decide_eq_true in Hfun.
    cbn [wrappedHandles]. constructor; [| constructor]. by left. }
  destruct (decide (remoteType ro = "object")) as [Hobj | Hother]; cycle 1.
  { destruct json as [value | reason]; [| done]. intros [= <-]. constructor. }
  destruct (bool_decide (subtype ro ∈ [None; Some "proxy"])) eqn:Hplain.
  - apply bool_decide_eq_true in Hplain.
    destruct (shouldUnwrap (className ro)) eqn:Hpolicy; cycle 1.
    { intros [= <-]. cbn [wrappedHandles]. constructor; [| constructor].
      right. split; [done |]. by left. }
    destruct props as [properties | reason]; [| done]. cbn [await].
    destruct (all sched _) as [entries | reason] eqn:Hall; [| done].
    intros [= <-]. apply all_Fulfilled in Hall as [_ ->].
    cbn [wrappedHandles]. apply Forall_forall. intros h Hh.
    apply elem_of_flat_map in Hh as ([k v] & Hin%elem_of_fromEntries & Hh).
    apply elem_of_values, list_elem_of_fmap in Hin as ([k' v'] & Heq & Hprop).
    rewrite Forall_forall in IH. specialize (IH _ Hprop). cbn in IH, Heq.
    destruct (unwrapHandleEx sched v' (Some shouldUnwrap)) as [u | reason] eqn:Hv; [| done].
    cbn in Heq. simplify_eq. specialize (IH _ eq_refl).
    rewrite Forall_forall in IH. by apply IH.
  - apply bool_decide_eq_false in Hplain.
    destruct (decide (subtype ro = Some "null")) as [Hnull | Hnotnull].
    { intros [= <-]. constructor. }
    destruct (decide (subtype ro = Some "array")) as [Harray | Hnotarray]; cycle 1.
    { intros [= <-]. cbn [wrappedHandles]. constructor; [| constructor].
      right. split; [done |]. right. cbn [remoteObject].
      rewrite !elem_of_cons, elem_of_nil in *. tauto. }
    destruct props as [properties | reason]; [| done]. cbn [await].
    destruct (all sched _) as [items | reason] eqn:Hall; [| done].
    intros [= <-]. apply all_Fulfilled in Hall as [_ ->].
    cbn [wrappedHandles]. apply Forall_forall. intros h Hh.
    apply elem_of_flat_map in Hh as (u & Hin & Hh).
    apply elem_of_values, list_elem_of_fmap in Hin as ([k' v'] & Heq & Hprop).
    rewrite Forall_forall in IH. specialize (IH _ Hprop _ (eq_sym Heq)).
    rewrite Forall_forall in IH. by apply IH.
Qed.

(** X18: [unwrapHandleEx] rejects only with the reason of a rejected protocol
    call ([getProperties()] or [jsonValue()]) of the handle or of a handle
    below it: it adds no error of its own, under any policy and any settling
    order.  This is a statement about its rejections only, not about
    whether it settles. *)
Theorem unwrapHandleEx_rejection handle policy reason :
  unwrapHandleEx sched handle policy = Rejected reason →
  reason ∈ protocolErrors handle.
Proof.
  revert policy reason. induction handle as [ro props json IH] using JSHandle_nested_ind.
  intros policy reason. cbn [unwrapHandleEx protocolErrors].
  destruct (bool_decide (remoteType ro ∈ ["function"; "symbol"])); [done |].
  destruct (decide (remoteType ro = "object")) as [Hobj | Hother]; cycle 1.
  { destruct json as [value | reason']; [done |]. intros [= <-].
    apply elem_of_app. right. left. }
  destruct props as [properties | reason'].
  - assert (Hbelow : ∀ k v, (k, v) ∈ properties →
              unwrapHandleEx sched v (Some (default shouldUnwrap_default policy))
              = Rejected reason →
              reason ∈ flat_map (λ property, protocolErrors property.2) properties
                       ++ match json with
                          | Fulfilled _ => []
                          | Rejected reason => [reason]
                          end).
    { intros k v Hprop Hv. rewrite Forall_forall in IH.
      apply elem_of_app. left. apply elem_of_flat_map. exists (k, v).
      split; [done |]. by eapply (IH (k, v)). }
    destruct (bool_decide (subtype ro ∈ [None; Some "proxy"])).
    + destruct (default shouldUnwrap_default policy (className ro)); [| done].
      cbn [await]. destruct (all sched _) as [entries | reason'] eqn:Hall; [done |].
      intros [= <-]. apply all_Rejected_inv, list_elem_of_fmap in Hall
        as ([k v] & Heq & Hprop).
      apply (Hbelow k v Hprop). cbn in Heq.
      destruct (unwrapHandleEx sched v _); cbn in Heq; congruence.
    + destruct (decide (subtype ro = Some "null")); [done |].
      destruct (decide (subtype ro = Some "array")); [| done].
      cbn [await]. destruct (all sched _) as [items | reason'] eqn:Hall; [done |].
      intros [= <-]. apply all_Rejected_inv, list_elem_of_fmap in Hall
        as ([k v] & Heq & Hprop).
      by apply (Hbelow k v Hprop).
  - cbn [await].
    destruct (bool_decide (subtype ro ∈ [None; Some "proxy"]));
      [destruct (default shouldUnwrap_default policy (className ro)); [| done]
      | destruct (decide (subtype ro = Some "null")); [done |];
        destruct (decide (subtype ro = Some "array")); [| done]];
      intros [= <-]; apply elem_of_app; left; left.
Qed.

End UnwrapInvariants.

Lemma unwrapHandleEx_keptWrapped_witness :
  Forall (keptWrapped (λ _, true))
    (wrappedHandles (unwrapped_object [("handler", unwrapped_handle Scenarios.functionHandle);
                                       ("node", unwrapped_handle Scenarios.nodeHandle)])).
Proof.
  apply (unwrapHandleEx_keptWrapped id (λ _, true) Scenarios.listenerObject).
  vm_compute. reflexivity.
Defined.

(** An array is rejected with the reason of its element. *)
Lemma unwrapHandleEx_rejection_witness :
  "Target closed" ∈ protocolErrors Scenarios.brokenArray.
Proof.
  apply (unwrapHandleEx_rejection id Scenarios.brokenArray None "Target closed").
  vm_compute. reflexivity.
Defined.

(** ** The settling order and the value of [unwrapHandleEx] *)





(** ** [isNavigationError] *)

Section NavigationError.

Implicit Types (before after units : list CodeUnit) (k : list CodeUnit → list CodeUnit → bool).

Lemma isWordChar_canonicalize c : isWordChar (canonicalize c) = isWordChar c.
Proof.
  unfold isWordChar, canonicalize.
  destruct (97 <=? c)%N eqn:H1, (c <=? 122)%N eqn:H2; cbn [andb orb];
    rewrite ?H1, ?H2; cbn [andb orb]; try done.
  apply N.leb_le in H1, H2.
  assert (H3 : (65 <=? c - 32)%N = true) by (apply N.leb_le; lia).
  assert (H4 : (c - 32 <=? 90)%N = true) by (apply N.leb_le; lia).
  assert (H5 : (97 <=? c - 32)%N = false) by (apply N.leb_gt; lia).
  by rewrite H3, H4, H5.
Qed.

Lemma wordAt_canonicalize units cs :
  canonicalize <$> units = canonicalize <$> cs → wordAt units = wordAt cs.
Proof.
  destruct units as [|u units], cs as [|c cs]; try done.
  intros [= Hc _]. cbn. by rewrite <- (isWordChar_canonicalize u), Hc, isWordChar_canonicalize.
Qed.

Lemma wordAt_reverse_canonicalize units cs :
  canonicalize <$> units = canonicalize <$> cs →
  wordAt (reverse units) = wordAt (reverse cs).
Proof. intros H. apply wordAt_canonicalize. by rewrite !fmap_reverse, H. Qed.

Lemma wordAt_app units rest : units ≠ [] → wordAt (units ++ rest) = wordAt units.
Proof. by destruct units. Qed.

Lemma match_units cs before after k :
  matchPattern (foldr (λ c p, pat_seq (pat_char c) p) pat_empty cs) before after k = true ↔
  ∃ units rest,
    after = units ++ rest
    ∧ canonicalize <$> units = canonicalize <$> cs
    ∧ k (reverse units ++ before) rest = true.
Proof.
  revert before after. induction cs as [|c cs IH]; intros before after; cbn [foldr matchPattern].
  - split.
    + intros Hk. by exists [], after.
    + intros (units & rest & -> & Hunits & Hk). by destruct units.
  - destruct after as [|a after].
    + split; [done |]. intros (units & rest & Happ & Hunits & _).
      by destruct units.
    + rewrite andb_true_iff, N.eqb_eq, IH. split.
      * intros (Ha & units & rest & -> & Hunits & Hk).
        exists (a :: units), rest. split; [done |]. split; [cbn; by f_equal |].
        by rewrite reverse_cons, <- app_assoc.
      * intros (units & rest & Happ & Hunits & Hk).
        destruct units as [|u units]; [done |].
        injection Happ as -> ->. injection Hunits as Ha Hunits.
        split; [done |]. exists units, rest. split; [done |]. split; [done |].
        by rewrite reverse_cons, <- app_assoc in Hk.
Qed.

Lemma match_literal text before after k :
  matchPattern (literal text) before after k = true ↔
  ∃ units rest,
    after = units ++ rest ∧ sameIgnoringCase units text
    ∧ k (reverse units ++ before) rest = true.
Proof. apply match_units. Qed.

Lemma match_star_dot before after k :
  matchPattern (pat_star pat_dot) before after k = true ↔
  ∃ units rest,
    after = units ++ rest
    ∧ Forall (λ c, isLineTerminator c = false) units
    ∧ k (reverse units ++ before) rest = true.
Proof.
  cbn [matchPattern].
  generalize (Nat.le_refl (length after)). generalize (length after) at 2 3 as fuel.
  intros fuel. revert before after. induction fuel as [|fuel IH]; intros before after Hfuel.
  - destruct after as [|a after]; [| cbn in Hfuel; lia]. split.
    + intros Hk. by exists [], [].
    + intros (units & rest & Happ & _ & Hk). symmetry in Happ.
      apply app_eq_nil in Happ as [-> ->]. done.
  - rewrite orb_true_iff. destruct after as [|a after].
    + split.
      * intros [? | Hk]; [done |]. by exists [], [].
      * intros (units & rest & Happ & _ & Hk). symmetry in Happ.
        apply app_eq_nil in Happ as [-> ->]. by right.
    + assert (Hlt : Nat.ltb (length after) (length (a :: after)) = true)
        by (apply Nat.ltb_lt; cbn; lia).
      rewrite Hlt. cbn [andb]. rewrite andb_true_iff, negb_true_iff.
      rewrite IH by (cbn in Hfuel; lia). split.
      * intros [(Ha & units & rest & -> & Hunits & Hk) | Hk].
        -- exists (a :: units), rest. split; [done |]. split; [by constructor |].
           by rewrite reverse_cons, <- app_assoc.
        -- by exists [], (a :: after).
      * intros (units & rest & Happ & Hunits & Hk). destruct units as [|u units].
        -- right. cbn in Happ. by subst rest.
        -- left. injection Happ as -> ->. apply Forall_cons in Hunits as [Hu Hunits].
           split; [done |]. exists units, rest. split; [done |]. split; [done |].
           by rewrite reverse_cons, <- app_assoc in Hk.
Qed.

Lemma match_anchored_phrase text before after k :
  wordAt (reverse (codeUnits text)) = true →
  matchPattern (pat_seq pat_start (pat_seq (literal text) pat_boundary)) before after k = true ↔
  before = []
  ∧ ∃ units rest, after = units ++ rest ∧ sameIgnoringCase units text
                  ∧ wordAt rest = false ∧ k (reverse units) rest = true.
Proof.
  intros Hword. cbn [matchPattern]. destruct before as [|b before].
  - rewrite match_literal. split.
    + intros (units & rest & -> & Hunits & Hk). split; [done |].
      exists units, rest. rewrite app_nil_r in Hk.
      rewrite (wordAt_reverse_canonicalize _ _ Hunits), Hword in Hk.
      apply andb_true_iff in Hk as [Hb Hk]. by destruct (wordAt rest).
    + intros (_ & units & rest & -> & Hunits & Hrest & Hk). exists units, rest.
      rewrite app_nil_r, (wordAt_reverse_canonicalize _ _ Hunits), Hword, Hrest.
      done.
  - split; [done | by intros [? _]].
Qed.

Lemma match_protocol_error before after :
  matchPattern
    (pat_seq pat_start
       (pat_seq (literal "Protocol error")
          (pat_seq pat_boundary
             (pat_seq (pat_star pat_dot)
                (pat_seq pat_boundary
                   (pat_alt (literal "Session closed") (literal "Target closed")))))))
    before after (λ _ _, true) = true ↔
  before = [] ∧ protocolErrorClosed after.
Proof.
  cbn [matchPattern]. destruct before as [|b before]; [| split; [done | by intros [? _]]].
  rewrite match_literal. unfold protocolErrorClosed. split.
  - intros (phrase & rest1 & -> & Hphrase & Hk). split; [done |].
    rewrite app_nil_r in Hk. apply andb_true_iff in Hk as [Hb1 Hk].
    rewrite (wordAt_reverse_canonicalize _ _ Hphrase) in Hb1.
    change (wordAt (reverse (codeUnits "Protocol error"))) with true in Hb1.
    apply match_star_dot in Hk as (between & rest2 & -> & Hline & Hk).
    apply andb_true_iff in Hk as [Hb2 Hk]. apply orb_true_iff in Hk.
    assert (Hkeyword : ∃ keyword rest,
              rest2 = keyword ++ rest
              ∧ (sameIgnoringCase keyword "Session closed"
                 ∨ sameIgnoringCase keyword "Target closed")).
    { destruct Hk as [Hk | Hk]; apply match_literal in Hk as (keyword & rest & -> & Hkeyword & _);
        exists keyword, rest; auto. }
    destruct Hkeyword as (keyword & rest & -> & Hkeyword).
    assert (Hw : wordAt (keyword ++ rest) = true).
    { destruct Hkeyword as [Hkeyword | Hkeyword];
        (destruct keyword as [|c keyword]; [done |]);
        rewrite (wordAt_app (c :: keyword)) by done;
        by rewrite (wordAt_canonicalize _ _ Hkeyword). }
    rewrite Hw in Hb2. destruct between as [|c between].
    + cbn [reverse app] in Hb2. rewrite app_nil_l in Hb2.
      rewrite (wordAt_reverse_canonicalize _ _ Hphrase) in Hb2. done.
    + exists phrase, (c :: between), keyword, rest. split; [done |]. split; [done |].
      rewrite wordAt_app in Hb1 by done. split; [by destruct (wordAt (c :: between)) |].
      assert (Hne : reverse (c :: between) ≠ []).
      { rewrite reverse_cons. by intros [? ?]%app_eq_nil. }
      rewrite wordAt_app in Hb2 by done.
      split; [by destruct (wordAt (reverse (c :: between))) |]. done.
  - intros (_ & phrase & between & keyword & rest & -> & Hphrase & Hb1 & Hb2 & Hne & Hline & Hkeyword).
    exists phrase, (between ++ keyword ++ rest). split; [done |]. split; [done |].
    rewrite app_nil_r, (wordAt_reverse_canonicalize _ _ Hphrase).
    change (wordAt (reverse (codeUnits "Protocol error"))) with true.
    rewrite wordAt_app, Hb1 by done. cbn [xorb andb].
    apply match_star_dot. exists between, (keyword ++ rest). split; [done |]. split; [done |].
    assert (Hne' : reverse between ≠ []).
    { destruct between as [|c between]; [done |]. rewrite reverse_cons.
      by intros [? ?]%app_eq_nil. }
    rewrite wordAt_app, Hb2 by done.
    assert (Hw : wordAt (keyword ++ rest) = true).
    { destruct Hkeyword as [Hkeyword | Hkeyword];
        (destruct keyword as [|c keyword]; [done |]);
        rewrite (wordAt_app (c :: keyword)) by done;
        by rewrite (wordAt_canonicalize _ _ Hkeyword). }
    rewrite Hw. cbn [xorb andb]. apply orb_true_iff.
    destruct Hkeyword as [Hkeyword | Hkeyword]; [left | right];
      apply match_literal; by exists keyword, rest.
Qed.

Lemma match_alt p q before after k :
  matchPattern (pat_alt p q) before after k
  = matchPattern p before after k || matchPattern q before after k.
Proof. done. Qed.

Lemma match_navigationErrorPattern before after :
  matchPattern navigationErrorPattern before after (λ _ _, true) = true ↔
  before = []
  ∧ (protocolErrorClosed after
     ∨ startsWithPhrase after "Execution context was destroyed"
     ∨ startsWithPhrase after "Execution context is not available in detached frame").
Proof.
  unfold navigationErrorPattern. do 2 rewrite (match_alt _ _ before after (λ _ _, true)).
  rewrite !orb_true_iff, match_protocol_error.
  rewrite (match_anchored_phrase "Execution context was destroyed"
             before after (λ _ _, true)) by (vm_compute; reflexivity).
  rewrite (match_anchored_phrase "Execution context is not available in detached frame"
             before after (λ _ _, true)) by (vm_compute; reflexivity).
  unfold startsWithPhrase. split.
  - intros [[-> H] | [(-> & units & rest & ? & ? & ? & _) | (-> & units & rest & ? & ? & ? & _)]];
      (split; [done |]).
    + by left.
    + right; left. by exists units, rest.
    + right; right. by exists units, rest.
  - intros [-> [H | [(units & rest & ? & ? & ?) | (units & rest & ? & ? & ?)]]].
    + by left.
    + right; left. split; [done |]. by exists units, rest.
    + right; right. split; [done |]. by exists units, rest.
Qed.

Lemma testFrom_navigationErrorPattern c before after :
  testFrom navigationErrorPattern (c :: before) after = false.
Proof.
  revert c before. induction after as [|a after IH]; intros c before; cbn [testFrom].
  - apply orb_false_iff. split; [| done].
    apply not_true_is_false. by intros [? _]%match_navigationErrorPattern.
  - apply orb_false_iff. split; [| apply IH].
    apply not_true_is_false. by intros [? _]%match_navigationErrorPattern.
Qed.

(** X10: [isNavigationError] is true of the instances of [Error] whose message
    starts with [Protocol error] and goes on, on the same line, with [Session
    closed] or [Target closed], or starts with [Execution context was
    destroyed] or with [Execution context is not available in detached
    frame], and of nothing else.  The phrases are matched from the start of
    the message only, whatever the case of their letters, and each must stand
    apart from a word character next to it. *)
Theorem isNavigationError_iff err :
  isNavigationError err = true ↔
  ∃ message,
    err = thrown_Error message
    ∧ (protocolErrorClosed message
       ∨ startsWithPhrase message "Execution context was destroyed"
       ∨ startsWithPhrase message "Execution context is not available in detached frame").
Proof.
  destruct err as [message|]; cbn [isNavigationError]; [| split; [done | by intros (? & ? & _)]].
  unfold RegExp_test.
  assert (Htest : testFrom navigationErrorPattern [] message
                  = matchPattern navigationErrorPattern [] message (λ _ _, true)).
  { destruct message as [|c message]; cbn [testFrom]; [by rewrite orb_false_r |].
    by rewrite testFrom_navigationErrorPattern, orb_false_r. }
  rewrite Htest, match_navigationErrorPattern. split.
  - intros [_ H]. by exists message.
  - intros (? & [= <-] & H). done.
Qed.

End NavigationError.

(** A message of Puppeteer for a closed target, and messages that only
    mention the phrases. *)
Lemma isNavigationError_examples :
  isNavigationError
    (thrown_Error (codeUnits "Protocol error (Runtime.callFunctionOn): Target closed."))
  = true
  ∧ isNavigationError (thrown_Error (codeUnits "Execution context was destroyed, most likely because of a navigation."))
    = true
  ∧ isNavigationError (thrown_Error (codeUnits "Error: Protocol error (Runtime.evaluate): Target closed."))
    = false
  ∧ isNavigationError (thrown_Error (codeUnits "Protocol errors: Target closed")) = false
  ∧ isNavigationError (thrown_Error (codeUnits "protocol ERROR: session CLOSED")) = true
  ∧ isNavigationError thrown_other = false.
Proof. by vm_compute. Qed.

(** ** [getFrameStack] *)

Lemma Frame_nested_ind (P : Frame → Prop) :
  (∀ frameId, P (mkFrame frameId None)) →
  (∀ frameId parent, P parent → P (mkFrame frameId (Some parent))) →
  ∀ frame, P frame.
Proof.
  intros Hmain Hchild. fix IH 1. intros [id [parent|]].
  - apply Hchild, IH.
  - apply Hmain.
Qed.

Lemma pushParents_ancestors frame frames :
  pushParents frame frames = frames ++ ancestors frame.
Proof.
  revert frames. induction frame as [id | id parent IH] using Frame_nested_ind;
    intros frames; cbn [pushParents ancestors].
  - by rewrite app_nil_r.
  - by rewrite IH, <- app_assoc.
Qed.

Lemma ancestors_chain frame i above :
  (frame :: ancestors frame) !! i = Some above →
  (frame :: ancestors frame) !! S i = parentFrame above.
Proof.
  revert i. induction frame as [id | id parent IH] using Frame_nested_ind; intros i.
  - destruct i as [|i]; [| done]. by intros [= <-].
  - destruct i as [|i]; [by intros [= <-] |]. cbn [ancestors]. apply IH.
Qed.

(** X11: the stack [getFrameStack] returns starts with the frame itself, each
    further element is the parent of the one before it, and the stack stops
    at the frame that has no parent. *)
Theorem getFrameStack_chain frame :
  getFrameStack frame !! 0 = Some frame
  ∧ ∀ i above, getFrameStack frame !! i = Some above →
               getFrameStack frame !! S i = parentFrame above.
Proof.
  unfold getFrameStack. rewrite pushParents_ancestors. split; [done |].
  apply ancestors_chain.
Qed.

(** ** [attributePairs] *)

Section AttributePairs.

Local Open Scope nat_scope.

Lemma length_interleave pairs : length (interleave pairs) = 2 * length pairs.
Proof.
  unfold interleave. induction pairs as [|[name value] pairs IH]; [done |].
  cbn [flat_map app length]. lia.
Qed.

Lemma half_interleave pairs : length (interleave pairs) / 2 = length pairs.
Proof. rewrite length_interleave, Nat.mul_comm. by apply Nat.div_mul. Qed.

Lemma even_length_interleave pairs : Nat.even (length (interleave pairs)) = true.
Proof. rewrite length_interleave. apply Nat.even_spec. by exists (length pairs). Qed.

Lemma lookup_interleave pairs :
  (λ i, {| AttributePair.name := interleave pairs !! (i * 2);
           AttributePair.value := interleave pairs !! (i * 2 + 1) |})
  <$> seq 0 (length pairs)
  = pairOf <$> pairs.
Proof.
  induction pairs as [|[name value] pairs IH]; [done |].
  cbn [length]. rewrite <- cons_seq, <- fmap_S_seq, !fmap_cons, <- list_fmap_compose.
  f_equal. rewrite <- IH. by apply list_fmap_ext.
Qed.

Lemma even_interleave (l : list string) :
  Nat.even (length l) = true → ∃ pairs, l = interleave pairs.
Proof.
  revert l. fix IH 1. intros [|name [|value l]] Heven.
  - by exists [].
  - done.
  - destruct (IH l Heven) as [pairs ->]. by exists ((name, value) :: pairs).
Qed.

(** X20: the pairs of an interleaved array of names and values are these names
    and values, in order. *)
Theorem attributePairs_interleave pairs :
  attributePairs {| attributes := interleave pairs |} = inr (pairOf <$> pairs).
Proof.
  unfold attributePairs. cbn [attributes].
  by rewrite even_length_interleave, half_interleave, lookup_interleave.
Qed.

(** X21: on an array of even length [attributePairs] returns half as many
    pairs, none with an undefined name or value, and the names and values of
    the pairs, read in order, give back the array; on an array of odd length
    it throws a [RangeError]. *)
Theorem attributePairs_round_trip attributesResponse :
  if Nat.even (length (attributes attributesResponse))
  then ∃ pairs,
         attributePairs attributesResponse = inr pairs
         ∧ length pairs = length (attributes attributesResponse) / 2
         ∧ flat_map (λ pair, [AttributePair.name pair; AttributePair.value pair]) pairs
           = Some <$> attributes attributesResponse
  else attributePairs attributesResponse = inl RangeError.
Proof.
  destruct attributesResponse as [l]. unfold attributePairs. cbn [attributes].
  destruct (Nat.even (length l)) eqn:Heven; [| done].
  destruct (even_interleave l Heven) as [pairs ->].
  rewrite half_interleave, lookup_interleave.
  exists (pairOf <$> pairs). split; [done |]. split; [by rewrite length_fmap |].
  clear. induction pairs as [|[name value] pairs IH]; [done |]. cbn. by rewrite IH.
Qed.

End AttributePairs.

(** ** [createCDPReadStream] *)

Section ReadStream.

Local Open Scope nat_scope.

Lemma readLoop_commands reads closed pulls :
  ∃ n, sent (readLoop reads closed pulls)
       = replicate (S n) IO.read
         ++ match ending (readLoop reads closed pulls) with
            | stream_pending => []
            | _ => [IO.close]
            end
       ∧ length (yielded (readLoop reads closed pulls)) ≤ S n.
Proof.
  revert pulls. induction reads as [|[response | reason] reads IH]; intros pulls;
    cbn [readLoop].
  - exists 0. split; [done | cbn; lia].
  - assert (Hclosed : ∀ completion, completion ≠ stream_pending →
              ∃ n, sent (sending IO.read [chunkOf response] (closing closed completion))
                   = replicate (S n) IO.read
                     ++ match ending (sending IO.read [chunkOf response]
                                        (closing closed completion)) with
                        | stream_pending => []
                        | _ => [IO.close]
                        end
                   ∧ length (yielded (sending IO.read [chunkOf response]
                                        (closing closed completion))) ≤ S n).
    { intros completion Hcompletion. exists 0. split; [| cbn; lia].
      cbn. by destruct closed, completion. }
    assert (Hloop : ∀ pulls,
              ∃ n, sent (sending IO.read [chunkOf response]
                           (if IO.eof response then closing closed stream_done
                            else readLoop reads closed pulls))
                   = replicate (S n) IO.read
                     ++ match ending (sending IO.read [chunkOf response]
                                        (if IO.eof response then closing closed stream_done
                                         else readLoop reads closed pulls)) with
                        | stream_pending => []
                        | _ => [IO.close]
                        end
                   ∧ length (yielded (sending IO.read [chunkOf response]
                                        (if IO.eof response then closing closed stream_done
                                         else readLoop reads closed pulls))) ≤ S n).
    { intros pulls'. destruct (IO.eof response); [by apply Hclosed |].
      destruct (IH pulls') as (n & Hsent & Hlen). exists (S n).
      cbn [sending sent ending yielded]. rewrite Hsent. split; [done |].
      cbn [app length]. lia. }
    destruct pulls as [[|pulls]|]; [by apply Hclosed | apply Hloop | apply Hloop].
  - exists 0. split; [| cbn; lia]. cbn. by destruct closed.
Qed.

(** X22: once resumed, the generator closes the stream exactly once, after
    its last read, however it ends: at the end of the stream, when a read is
    rejected, or when its consumer calls [return()].  A run sends [IO.read]
    one or more times and then [IO.close], and nothing else; only a run that
    waits for an answer that never comes sends no [IO.close].  Each read
    yields at most one chunk. *)
Theorem readStream_closes_once reads closed pulls :
  pulls ≠ Some 0 →
  ∃ n, sent (readStream reads closed pulls)
       = replicate (S n) IO.read
         ++ match ending (readStream reads closed pulls) with
            | stream_pending => []
            | _ => [IO.close]
            end
       ∧ length (yielded (readStream reads closed pulls)) ≤ S n.
Proof.
  intros Hpulls. unfold readStream.
  destruct pulls as [[|pulls]|]; [done | apply readLoop_commands | apply readLoop_commands].
Qed.

(** X23: a consumer that reads the stream to its end gets the data of the
    answers up to and including the first one that announces the end, in
    order; the generator sends one read per chunk, then closes the stream, and
    sends no read after the end was announced.  It returns unless closing is
    rejected. *)
Theorem readStream_to_eof body last rest closed :
  Forall (λ response, IO.eof response = false) body →
  IO.eof last = true →
  readStream ((Fulfilled <$> body) ++ Fulfilled last :: rest) closed None
  = {| sent := replicate (S (length body)) IO.read ++ [IO.close];
       yielded := chunkOf <$> body ++ [last];
       ending := match closed with
                 | Fulfilled _ => stream_done
                 | Rejected reason => stream_threw reason
                 end |}.
Proof.
  intros Hbody Hlast. unfold readStream.
  induction Hbody as [|response body Hresponse _ IH].
  - cbn. by rewrite Hlast.
  - cbn [fmap list_fmap app readLoop]. rewrite Hresponse. cbn [fmap option_fmap option_map].
    by rewrite IH.
Qed.

End ReadStream.

Lemma readStream_closes_once_witness :
  ∃ n, sent (readStream Scenarios.streamReads (Fulfilled ()) (Some 2))
       = replicate (S n) IO.read
         ++ match ending (readStream Scenarios.streamReads (Fulfilled ()) (Some 2)) with
            | stream_pending => []
            | _ => [IO.close]
            end
       ∧ (length (yielded (readStream Scenarios.streamReads (Fulfilled ()) (Some 2))) ≤ S n)%nat.
Proof.
  apply (readStream_closes_once Scenarios.streamReads (Fulfilled ()) (Some 2)).
  discriminate.
Defined.

Lemma readStream_to_eof_witness :
  readStream Scenarios.streamReads (Fulfilled ()) None
  = {| sent := replicate (S (length Scenarios.streamBody)) IO.read ++ [IO.close];
       yielded := chunkOf <$> Scenarios.streamBody ++ [Scenarios.textChunk "</html>" true];
       ending := stream_done |}.
Proof.
  apply (readStream_to_eof Scenarios.streamBody (Scenarios.textChunk "</html>" true)
           [Rejected "Invalid stream handle"] (Fulfilled ())).
  - repeat constructor.
  - reflexivity.
Defined.

(** A consumer that calls [return()] after two chunks: two reads, then
    the stream is closed. *)
Lemma readStream_abandoned :
  readStream Scenarios.streamReads (Fulfilled ()) (Some 2)
  = {| sent := [IO.read; IO.read; IO.close];
       yielded := chunkOf <$> Scenarios.streamBody;
       ending := stream_returned |}.
Proof. reflexivity. Qed.
